(** * stan::io::reader — a shallow embedding of [src/stan/io/reader.hpp]

    The reader walks two borrowed sequences ([data_r_], [data_i_]) with two
    [size_t] cursors ([pos_], [int_pos_]).  Every member function is
    embedded as a computation in a state-and-exception monad over the
    reader: a C++ exception leaves the cursors as they were at the [throw].

    Conventions of the embedding
    - [size_t] values are [Z] with the wrap-around modulo [2^64] written out
      ([SizeT.add], [SizeT.sub], [SizeT.mul]).
    - [int] values are [Z].
    - The template parameter [T] and the bound types [TL], [TU], [TS] are
      type variables; [stan::math] and the Eigen containers are outside of
      the repository and enter as an interface ([math.Lib]) and as the small
      [Eigen] module below.
    - A member function that exists in two overloads, without and with the
      trailing [T& lp] argument, gives two definitions: [f] and [f_lp].  The
      second one takes the accumulator and returns it next to the value.
    - [data_r_[i]] with [i] beyond the end of the vector is undefined
      behaviour in C++; the embedding reads an unspecified value [stray i]
      there, so that the cursor arithmetic of the unchecked paths can be
      followed. *)

From Stdlib Require Import ZArith Lia String.
From stdpp Require Import base numbers list.

Local Open Scope Z_scope.

(** ** [size_t] arithmetic *)
Module SizeT.

Definition modulus : Z := 2 ^ 64.
Definition SIZE_MAX : Z := modulus - 1.

Definition wrap (z : Z) : Z := z mod modulus.
Definition add (a b : Z) : Z := wrap (a + b).
Definition sub (a b : Z) : Z := wrap (a - b).
Definition mul (a b : Z) : Z := wrap (a * b).
Definition div (a b : Z) : Z := a / b.

Definition in_range (z : Z) : Prop := 0 <= z <= SIZE_MAX.

End SizeT.

(** ** Exceptions and outcomes *)

(** The exceptions the reader can raise: [std::runtime_error] and
    [std::invalid_argument] are thrown by the reader itself, [library_error]
    stands for whatever a [stan::math] function throws. *)
Inductive exn : Type :=
| runtime_error (what : string)
| invalid_argument (what : string)
| library_error (what : string).

Inductive outcome (A : Type) : Type :=
| Ok (a : A)
| Throw (e : exn).
Arguments Ok {A} a.
Arguments Throw {A} e.

(** ** The Eigen containers the reader fills *)
Module Eigen.
Section Containers.
Context {T : Type}.

(** [Eigen::Matrix<T, Dynamic, 1>] and [Eigen::Matrix<T, 1, Dynamic>]:
    the coefficients in order. *)
Definition vector_t : Type := list T.
Definition row_vector_t : Type := list T.

(** [Eigen::Matrix<T, Dynamic, Dynamic>]: column-major storage, the
    default of Eigen. *)
Record matrix_t : Type := Matrix
  { rows : Z; cols : Z; coeffs : list T }.

(** [v(i, j)]: the cell at storage index [j * rows + i]. *)
Definition storage_index (v : matrix_t) (i j : Z) : nat :=
  Z.to_nat (j * rows v + i).
Definition coeff (v : matrix_t) (i j : Z) : option T :=
  coeffs v !! storage_index v i j.
(** [v(i, j) = x] *)
Definition set_coeff (v : matrix_t) (i j : Z) (x : T) : matrix_t :=
  Matrix (rows v) (cols v) (<[storage_index v i j := x]> (coeffs v)).

(** Row [i] of the matrix, read cell by cell. *)
Definition row (v : matrix_t) (i : Z) : list (option T) :=
  (fun j => coeff v i j) <$> seqZ 0 (cols v).
(** Column [j] of the matrix, read cell by cell. *)
Definition col (v : matrix_t) (j : Z) : list (option T) :=
  (fun i => coeff v i j) <$> seqZ 0 (rows v).

(** [Eigen::Triplet<T>] and the list handed to [setFromTriplets].
    [Eigen::SparseMatrix<T>] is kept as its dimensions and the triplet
    list it was last built from. *)
Record triplet_type : Type := Triplet
  { t_row : Z; t_col : Z; t_value : T }.
Record sparse_matrix_t : Type := SparseMatrix
  { sp_rows : Z; sp_cols : Z; sp_triplets : list triplet_type }.

Definition setFromTriplets (ret_mat : sparse_matrix_t)
    (triplet_list : list triplet_type) : sparse_matrix_t :=
  SparseMatrix (sp_rows ret_mat) (sp_cols ret_mat) triplet_list.
End Containers.
Arguments vector_t : clear implicits.
Arguments row_vector_t : clear implicits.
Arguments matrix_t : clear implicits.
Arguments triplet_type : clear implicits.
Arguments sparse_matrix_t : clear implicits.
End Eigen.

(** ** The interface of [stan::math] used by the reader

    Checks return or throw; transforms return the constrained value or
    throw; the [_lp] overloads take the accumulator and return it
    incremented. *)
Module math.
Class Lib (T TL TU TS : Type) : Type :=
  { check_positive : T -> outcome unit;
    check_greater_or_equal : T -> TL -> outcome unit;
    check_less_or_equal : T -> TU -> outcome unit;
    check_bounded : T -> TL -> TU -> outcome unit;
    (* check_bounded<T, double, double> with literal bounds *)
    check_bounded_dd : T -> Z -> Z -> outcome unit;
    check_unit_vector : Eigen.vector_t T -> outcome unit;
    check_simplex : Eigen.vector_t T -> outcome unit;
    check_ordered : Eigen.vector_t T -> outcome unit;
    check_positive_ordered : Eigen.vector_t T -> outcome unit;
    check_cholesky_factor : Eigen.matrix_t T -> outcome unit;
    check_cholesky_factor_corr : Eigen.matrix_t T -> outcome unit;
    check_cov_matrix : Eigen.matrix_t T -> outcome unit;
    check_corr_matrix : Eigen.matrix_t T -> outcome unit;

    positive_constrain : T -> outcome T;
    positive_constrain_lp : T -> T -> outcome (T * T);
    lb_constrain : T -> TL -> outcome T;
    lb_constrain_lp : T -> TL -> T -> outcome (T * T);
    ub_constrain : T -> TU -> outcome T;
    ub_constrain_lp : T -> TU -> T -> outcome (T * T);
    lub_constrain : T -> TL -> TU -> outcome T;
    lub_constrain_lp : T -> TL -> TU -> T -> outcome (T * T);
    offset_multiplier_constrain : T -> TL -> TS -> outcome T;
    offset_multiplier_constrain_lp : T -> TL -> TS -> T -> outcome (T * T);
    prob_constrain : T -> outcome T;
    prob_constrain_lp : T -> T -> outcome (T * T);
    corr_constrain : T -> outcome T;
    corr_constrain_lp : T -> T -> outcome (T * T);

    unit_vector_constrain : Eigen.vector_t T -> outcome (Eigen.vector_t T);
    unit_vector_constrain_lp :
      Eigen.vector_t T -> T -> outcome (Eigen.vector_t T * T);
    simplex_constrain : Eigen.vector_t T -> outcome (Eigen.vector_t T);
    simplex_constrain_lp :
      Eigen.vector_t T -> T -> outcome (Eigen.vector_t T * T);
    ordered_constrain : Eigen.vector_t T -> outcome (Eigen.vector_t T);
    ordered_constrain_lp :
      Eigen.vector_t T -> T -> outcome (Eigen.vector_t T * T);
    positive_ordered_constrain :
      Eigen.vector_t T -> outcome (Eigen.vector_t T);
    positive_ordered_constrain_lp :
      Eigen.vector_t T -> T -> outcome (Eigen.vector_t T * T);

    cholesky_factor_constrain :
      Eigen.vector_t T -> Z -> Z -> outcome (Eigen.matrix_t T);
    cholesky_factor_constrain_lp :
      Eigen.vector_t T -> Z -> Z -> T -> outcome (Eigen.matrix_t T * T);
    cholesky_corr_constrain :
      Eigen.vector_t T -> Z -> outcome (Eigen.matrix_t T);
    cholesky_corr_constrain_lp :
      Eigen.vector_t T -> Z -> T -> outcome (Eigen.matrix_t T * T);
    cov_matrix_constrain :
      Eigen.vector_t T -> Z -> outcome (Eigen.matrix_t T);
    cov_matrix_constrain_lp :
      Eigen.vector_t T -> Z -> T -> outcome (Eigen.matrix_t T * T);
    corr_matrix_constrain :
      Eigen.vector_t T -> Z -> outcome (Eigen.matrix_t T);
    corr_matrix_constrain_lp :
      Eigen.vector_t T -> Z -> T -> outcome (Eigen.matrix_t T * T) }.
End math.

(** What the C++ abstract machine leaves open for a scalar type [T]. *)
Class Machine (T : Type) : Type :=
  { zero : T;            (* T(0), the value of a default-built triplet *)
    indet : T;           (* a coefficient that was allocated, never written *)
    stray : Z -> T }.    (* what lies at data_r_[i] behind the end *)

(** ** The reader *)
Record reader (T : Type) : Type := Reader
  { data_r_ : list T;    (* Real valued data. *)
    data_i_ : list Z;    (* Integer valued data. *)
    pos_ : Z;            (* Current position of the reader for real values. *)
    int_pos_ : Z }.      (* Current position for integer values. *)
Arguments Reader {T}.
Arguments data_r_ {T}.
Arguments data_i_ {T}.
Arguments pos_ {T}.
Arguments int_pos_ {T}.

(** [reader(data_r, data_i)]: both cursors start at the front. *)
Definition construct {T} (data_r : list T) (data_i : list Z) : reader T :=
  Reader data_r data_i 0 0.

(** The state-and-exception monad of the member functions. *)
Definition M (T A : Type) : Type := reader T -> outcome A * reader T.

Definition ret {T A} (a : A) : M T A := fun st => (Ok a, st).
Definition throw {T A} (e : exn) : M T A := fun st => (Throw e, st).
Definition bind {T A B} (c : M T A) (k : A -> M T B) : M T B :=
  fun st =>
    match c st with
    | (Ok a, st') => k a st'
    | (Throw e, st') => (Throw e, st')
    end.
(** A call into [stan::math]: it does not see the reader. *)
Definition lift {T A} (o : outcome A) : M T A := fun st => (o, st).

Declare Scope reader_scope.
Delimit Scope reader_scope with reader.
Notation "x <- c1 ;; c2" := (bind c1 (fun x => c2))
  (at level 100, c1 at next level, right associativity) : reader_scope.
Notation "c1 ;; c2" := (bind c1 (fun _ => c2))
  (at level 100, right associativity) : reader_scope.
Local Open Scope reader_scope.

(** [for (i = from; ...; ++i)] run for [count] rounds over an accumulator. *)
Fixpoint for_loop {T A} (count : nat) (i : Z) (body : Z -> A -> M T A)
    (acc : A) : M T A :=
  match count with
  | O => ret acc
  | S count' => acc' <- body i acc ;; for_loop count' (i + 1) body acc'
  end.

(** The state a computation ends in, whatever its outcome. *)
Definition final {T A} (c : M T A) (st : reader T) : reader T := snd (c st).
(** The number of scalars a computation moved the cursor by. *)
Definition consumed {T A} (c : M T A) (st : reader T) : Z :=
  pos_ (final c st) - pos_ st.

Section Members.
Context {T TL TU TS : Type} {Mc : Machine T} {L : math.Lib T TL TU TS}.

Local Abbreviation reader := (reader T).
Local Abbreviation M := (M T).
Local Abbreviation vector_t := (Eigen.vector_t T).
Local Abbreviation row_vector_t := (Eigen.row_vector_t T).
Local Abbreviation matrix_t := (Eigen.matrix_t T).
Local Abbreviation sparse_matrix_t := (Eigen.sparse_matrix_t T).
Local Abbreviation triplet_type := (Eigen.triplet_type T).

(** *** Raw access to the borrowed vectors *)

Definition size_r (st : reader) : Z := Z.of_nat (length (data_r_ st)).
Definition size_i (st : reader) : Z := Z.of_nat (length (data_i_ st)).

(** [data_r_[i]], for a [size_t] index [i] *)
Definition elem_r (st : reader) (i : Z) : T :=
  default (stray i) (data_r_ st !! Z.to_nat i).
(** [data_i_[i]] *)
Definition elem_i (st : reader) (i : Z) : Z :=
  default 0 (data_i_ st !! Z.to_nat i).

Definition set_pos (st : reader) (p : Z) : reader :=
  Reader (data_r_ st) (data_i_ st) p (int_pos_ st).
Definition set_int_pos (st : reader) (p : Z) : reader :=
  Reader (data_r_ st) (data_i_ st) (pos_ st) p.

(** A [T&] into [data_r_] is kept as the index it points at; [deref]
    reads through it. *)
Definition deref (p : Z) : M T := fun st => (Ok (elem_r st p), st).

(** *** Private members *)

(** [return data_r_[pos_];] *)
Definition scalar_ptr : M Z := fun st => (Ok (pos_ st), st).

(** [pos_ += m; return data_r_[pos_ - m];] -- no look at [data_r_.size()] *)
Definition scalar_ptr_increment (m : Z) : M Z := fun st =>
  let st' := set_pos st (SizeT.add (pos_ st) m) in
  (Ok (SizeT.sub (pos_ st') m), st').

(** [return data_i_[int_pos_];] *)
Definition int_ptr : M Z := fun st => (Ok (int_pos_ st), st).

(** [int_pos_ += m; return data_i_[int_pos_ - m];] *)
Definition int_ptr_increment (m : Z) : M Z := fun st =>
  let st' := set_int_pos st (SizeT.add (int_pos_ st) m) in
  (Ok (SizeT.sub (int_pos_ st') m), st').

(** *** Eigen objects built by the reader *)

(** [vector_t ret_vec(m)] *)
Definition Vector_new (m : Z) : vector_t := replicate (Z.to_nat m) indet.
(** [matrix_t ret_mat(n, m)] *)
Definition Matrix_new (n m : Z) : matrix_t :=
  Eigen.Matrix n m (replicate (Z.to_nat (n * m)) indet).
(** [Eigen::SparseMatrix<T> ret_mat(n, m)] *)
Definition SparseMatrix_new (n m : Z) : sparse_matrix_t :=
  Eigen.SparseMatrix n m [].
(** [std::vector<T> ret_vec(m)]: value-initialised *)
Definition std_vector_new (m : Z) : list T := replicate (Z.to_nat m) zero.

(** [map_vector_t(&x, m)] where [x] is [data_r_[p]]: the [m] cells from
    [p] on. *)
Definition map_vector_t (p m : Z) : M vector_t := fun st =>
  (Ok (elem_r st <$> seqZ p m), st).
Definition map_row_vector_t (p m : Z) : M row_vector_t := fun st =>
  (Ok (elem_r st <$> seqZ p m), st).
(** [map_matrix_t(&x, n, m)]: the [n * m] cells from [p] on, seen as the
    column-major storage of an [n] by [m] matrix. *)
Definition map_matrix_t (p n m : Z) : M matrix_t := fun st =>
  (Ok (Eigen.Matrix n m (elem_r st <$> seqZ p (SizeT.mul n m))), st).

(** [std::copy(data_r_.begin() + first, data_r_.begin() + last,
    ret_vec.begin())]: the cells from [first] up to [last] overwrite the
    front of [ret_vec]. *)
Definition std_copy (st : reader) (first last : Z) (ret_vec : list T)
  : list T :=
  (elem_r st <$> seqZ first (last - first)) ++
  drop (Z.to_nat (last - first)) ret_vec.

(** [vec[i]] on an index vector *)
Definition at_index (vec : list Z) (i : Z) : Z :=
  default 0 (vec !! Z.to_nat i).

(** *** Cursor/buffer *)

Definition available (st : reader) : Z := SizeT.sub (size_r st) (pos_ st).
Definition available_i (st : reader) : Z :=
  SizeT.sub (size_i st) (int_pos_ st).

Definition integer : M Z := fun st =>
  if size_i st <=? int_pos_ st
  then (Throw (runtime_error "no more integers to read."), st)
  else (Ok (elem_i st (int_pos_ st)),
        set_int_pos st (SizeT.add (int_pos_ st) 1)).

Definition integer_constrain : M Z := integer.
Definition integer_constrain_lp (lp : T) : M (Z * T) :=
  i <- integer ;; ret (i, lp).

Definition scalar : M T := fun st =>
  if size_r st <=? pos_ st
  then (Throw (runtime_error "no more scalars to read"), st)
  else (Ok (elem_r st (pos_ st)), set_pos st (SizeT.add (pos_ st) 1)).

Definition scalar_constrain : M T := scalar.
Definition scalar_constrain_lp (lp : T) : M (T * T) :=
  x <- scalar ;; ret (x, lp).

(** *** Scalar/shape extraction *)

Definition std_vector (m : Z) : M (list T) := fun st =>
  let ret_vec := std_vector_new m in
  if m =? 0 then (Ok ret_vec, st)
  else
    let ret_vec := std_copy st (pos_ st) (pos_ st + m) ret_vec in
    (Ok ret_vec, set_pos st (SizeT.add (pos_ st) m)).

Definition vector (m : Z) : M vector_t :=
  let ret_vec := Vector_new m in
  if m =? 0 then ret ret_vec
  else p <- scalar_ptr_increment m ;; map_vector_t p m.
Definition vector_constrain (m : Z) : M vector_t := vector m.
Definition vector_constrain_lp (m : Z) (lp : T) : M (vector_t * T) :=
  v <- vector m ;; ret (v, lp).

Definition row_vector (m : Z) : M row_vector_t :=
  let ret_vec := Vector_new m in
  if m =? 0 then ret ret_vec
  else p <- scalar_ptr_increment m ;; map_row_vector_t p m.
Definition row_vector_constrain (m : Z) : M row_vector_t := row_vector m.
Definition row_vector_constrain_lp (m : Z) (lp : T)
  : M (row_vector_t * T) :=
  v <- row_vector m ;; ret (v, lp).

Definition matrix (n m : Z) : M matrix_t :=
  let ret_mat := Matrix_new n m in
  if (m =? 0) || (n =? 0) then ret ret_mat
  else p <- scalar_ptr_increment (SizeT.mul n m) ;; map_matrix_t p n m.
Definition matrix_constrain (n m : Z) : M matrix_t := matrix n m.
Definition matrix_constrain_lp (n m : Z) (lp : T) : M (matrix_t * T) :=
  v <- matrix n m ;; ret (v, lp).

(** The loop shared by the sparse accessors:
    [for (auto i = 0; i < vec_r.size(); i++)
       triplet_list.emplace_back(triplet_type(vec_r[i], vec_c[i], elem))]
    on a triplet list that starts as [triplet_list]. *)
Definition triplet_loop (triplet_list : list triplet_type) (elem : M T)
    (vec_r vec_c : list Z) : M (list triplet_type) :=
  for_loop (length vec_r) 0
    (fun i tl =>
       x <- elem ;;
       ret (tl ++ [Eigen.Triplet (at_index vec_r i) (at_index vec_c i) x]))
    triplet_list.
Definition triplet_loop_lp (triplet_list : list triplet_type)
    (elem : T -> M (T * T)) (vec_r vec_c : list Z) (lp : T)
  : M (list triplet_type * T) :=
  for_loop (length vec_r) 0
    (fun i acc =>
       r <- elem (snd acc) ;;
       ret (fst acc ++
              [Eigen.Triplet (at_index vec_r i) (at_index vec_c i) (fst r)],
            snd r))
    (triplet_list, lp).

(** [std::vector<triplet_type> triplet_list(vec_r.size())]: the list
    starts with [vec_r.size()] default-built triplets. *)
Definition presized (vec_r : list Z) : list triplet_type :=
  replicate (length vec_r) (Eigen.Triplet 0 0 zero).
(** [std::vector<triplet_type> triplet_list;
    triplet_list.reserve(vec_r.size())]: the list starts empty. *)
Definition reserved (vec_r : list Z) : list triplet_type := [].

(** The body shared by the sparse accessors. *)
Definition sparse_read (triplet_list : list triplet_type) (elem : M T)
    (vec_r vec_c : list Z) (n m : Z) : M sparse_matrix_t :=
  let ret_mat := SparseMatrix_new n m in
  if (m =? 0) || (n =? 0) then ret ret_mat
  else
    triplet_list <- triplet_loop triplet_list elem vec_r vec_c ;;
    ret (Eigen.setFromTriplets ret_mat triplet_list).
Definition sparse_read_lp (triplet_list : list triplet_type)
    (elem : T -> M (T * T)) (vec_r vec_c : list Z) (n m : Z) (lp : T)
  : M (sparse_matrix_t * T) :=
  let ret_mat := SparseMatrix_new n m in
  if (m =? 0) || (n =? 0) then ret (ret_mat, lp)
  else
    r <- triplet_loop_lp triplet_list elem vec_r vec_c lp ;;
    ret (Eigen.setFromTriplets ret_mat (fst r), snd r).

Definition sparse_matrix (vec_r vec_c : list Z) (n m : Z)
  : M sparse_matrix_t :=
  sparse_read (presized vec_r) (p <- scalar_ptr_increment 1 ;; deref p)
    vec_r vec_c n m.
Definition sparse_matrix_constrain (vec_r vec_c : list Z) (n m : Z)
  : M sparse_matrix_t :=
  sparse_matrix vec_r vec_c n m.
Definition sparse_matrix_constrain_lp (vec_r vec_c : list Z) (n m : Z)
    (lp : T) : M (sparse_matrix_t * T) :=
  v <- sparse_matrix vec_r vec_c n m ;; ret (v, lp).

(** *** Integer bounds *)

Definition integer_lb (lb : Z) : M Z :=
  i <- integer ;;
  if negb (lb <=? i)
  then throw (runtime_error "required value greater than or equal to lb")
  else ret i.
Definition integer_lb_constrain (lb : Z) : M Z := integer_lb lb.
Definition integer_lb_constrain_lp (lb : Z) (lp : T) : M (Z * T) :=
  i <- integer_lb lb ;; ret (i, lp).

Definition integer_ub (ub : Z) : M Z :=
  i <- integer ;;
  if negb (i <=? ub)
  then throw (runtime_error "required value less than or equal to ub")
  else ret i.
Definition integer_ub_constrain (ub : Z) : M Z := integer_ub ub.
Definition integer_ub_constrain_lp (ub : Z) (lp : T) : M (Z * T) :=
  i <- integer_ub ub ;; ret (i, lp).

Definition integer_lub (lb ub : Z) : M Z :=
  (* read first to make position deterministic [arbitrary choice] *)
  i <- integer ;;
  if ub <? lb
  then throw (runtime_error "lower bound must be less than or equal to ub")
  else if negb (lb <=? i)
  then throw (runtime_error "required value greater than or equal to lb")
  else if negb (i <=? ub)
  then throw (runtime_error "required value less than or equal to ub")
  else ret i.
Definition integer_lub_constrain (lb ub : Z) : M Z := integer_lub lb ub.
Definition integer_lub_constrain_lp (lb ub : Z) (lp : T) : M (Z * T) :=
  i <- integer_lub lb ub ;; ret (i, lp).

(** *** Constrained scalars *)

Definition scalar_pos : M T :=
  x <- scalar ;; lift (math.check_positive x) ;; ret x.
Definition scalar_pos_constrain : M T :=
  x <- scalar ;; lift (math.positive_constrain x).
Definition scalar_pos_constrain_lp (lp : T) : M (T * T) :=
  x <- scalar ;; lift (math.positive_constrain_lp x lp).

Definition scalar_lb (lb : TL) : M T :=
  x <- scalar ;; lift (math.check_greater_or_equal x lb) ;; ret x.
Definition scalar_lb_constrain (lb : TL) : M T :=
  x <- scalar ;; lift (math.lb_constrain x lb).
Definition scalar_lb_constrain_lp (lb : TL) (lp : T) : M (T * T) :=
  x <- scalar ;; lift (math.lb_constrain_lp x lb lp).

Definition scalar_ub (ub : TU) : M T :=
  x <- scalar ;; lift (math.check_less_or_equal x ub) ;; ret x.
Definition scalar_ub_constrain (ub : TU) : M T :=
  x <- scalar ;; lift (math.ub_constrain x ub).
Definition scalar_ub_constrain_lp (ub : TU) (lp : T) : M (T * T) :=
  x <- scalar ;; lift (math.ub_constrain_lp x ub lp).

Definition scalar_lub (lb : TL) (ub : TU) : M T :=
  x <- scalar ;; lift (math.check_bounded x lb ub) ;; ret x.
Definition scalar_lub_constrain (lb : TL) (ub : TU) : M T :=
  x <- scalar ;; lift (math.lub_constrain x lb ub).
Definition scalar_lub_constrain_lp (lb : TL) (ub : TU) (lp : T)
  : M (T * T) :=
  x <- scalar ;; lift (math.lub_constrain_lp x lb ub lp).

Definition scalar_offset_multiplier (offset : TL) (multiplier : TS) : M T :=
  x <- scalar ;; ret x.
Definition scalar_offset_multiplier_constrain (offset : TL) (multiplier : TS)
  : M T :=
  x <- scalar ;; lift (math.offset_multiplier_constrain x offset multiplier).
Definition scalar_offset_multiplier_constrain_lp (offset : TL)
    (multiplier : TS) (lp : T) : M (T * T) :=
  x <- scalar ;;
  lift (math.offset_multiplier_constrain_lp x offset multiplier lp).

Definition prob : M T :=
  x <- scalar ;; lift (math.check_bounded_dd x 0 1) ;; ret x.
Definition prob_constrain : M T :=
  x <- scalar ;; lift (math.prob_constrain x).
Definition prob_constrain_lp (lp : T) : M (T * T) :=
  x <- scalar ;; lift (math.prob_constrain_lp x lp).

Definition corr : M T :=
  x <- scalar ;; lift (math.check_bounded_dd x (-1) 1) ;; ret x.
Definition corr_constrain : M T :=
  x <- scalar ;; lift (math.corr_constrain x).
Definition corr_constrain_lp (lp : T) : M (T * T) :=
  x <- scalar ;; lift (math.corr_constrain_lp x lp).

(** *** Constrained vectors *)

Definition unit_vector (k : Z) : M vector_t :=
  if k =? 0
  then throw
         (invalid_argument "io::unit_vector: unit vectors cannot be size 0.")
  else
    theta <- vector k ;; lift (math.check_unit_vector theta) ;; ret theta.
Definition unit_vector_constrain (k : Z) : M vector_t :=
  if k =? 0
  then throw
         (invalid_argument
            "io::unit_vector_constrain: unit vectors cannot be size 0.")
  else x <- vector k ;; lift (math.unit_vector_constrain x).
Definition unit_vector_constrain_lp (k : Z) (lp : T) : M (vector_t * T) :=
  if k =? 0
  then throw
         (invalid_argument
            "io::unit_vector_constrain: unit vectors cannot be size 0.")
  else x <- vector k ;; lift (math.unit_vector_constrain_lp x lp).

Definition simplex (k : Z) : M vector_t :=
  if k =? 0
  then throw (invalid_argument "io::simplex: simplexes cannot be size 0.")
  else theta <- vector k ;; lift (math.check_simplex theta) ;; ret theta.
Definition simplex_constrain (k : Z) : M vector_t :=
  if k =? 0
  then throw
         (invalid_argument
            "io::simplex_constrain: simplexes cannot be size 0.")
  else x <- vector (SizeT.sub k 1) ;; lift (math.simplex_constrain x).
Definition simplex_constrain_lp (k : Z) (lp : T) : M (vector_t * T) :=
  if k =? 0
  then throw
         (invalid_argument
            "io::simplex_constrain: simplexes cannot be size 0.")
  else x <- vector (SizeT.sub k 1) ;; lift (math.simplex_constrain_lp x lp).

Definition ordered (k : Z) : M vector_t :=
  x <- vector k ;; lift (math.check_ordered x) ;; ret x.
Definition ordered_constrain (k : Z) : M vector_t :=
  x <- vector k ;; lift (math.ordered_constrain x).
Definition ordered_constrain_lp (k : Z) (lp : T) : M (vector_t * T) :=
  x <- vector k ;; lift (math.ordered_constrain_lp x lp).

Definition positive_ordered (k : Z) : M vector_t :=
  x <- vector k ;; lift (math.check_positive_ordered x) ;; ret x.
Definition positive_ordered_constrain (k : Z) : M vector_t :=
  x <- vector k ;; lift (math.positive_ordered_constrain x).
Definition positive_ordered_constrain_lp (k : Z) (lp : T)
  : M (vector_t * T) :=
  x <- vector k ;; lift (math.positive_ordered_constrain_lp x lp).

(** *** Constrained matrices *)

(** [(m * (m + 1)) / 2 + (n - m) * m] in [size_t] *)
Definition cholesky_factor_cov_size (n m : Z) : Z :=
  SizeT.add (SizeT.div (SizeT.mul m (SizeT.add m 1)) 2)
            (SizeT.mul (SizeT.sub n m) m).
(** [(K * (K - 1)) / 2] in [size_t] *)
Definition corr_size (K : Z) : Z :=
  SizeT.div (SizeT.mul K (SizeT.sub K 1)) 2.
(** [k + (k * (k - 1)) / 2] in [size_t] *)
Definition cov_size (k : Z) : Z :=
  SizeT.add k (SizeT.div (SizeT.mul k (SizeT.sub k 1)) 2).

Definition cholesky_factor_cov (n m : Z) : M matrix_t :=
  y <- matrix n m ;; lift (math.check_cholesky_factor y) ;; ret y.
Definition cholesky_factor_cov_constrain (n m : Z) : M matrix_t :=
  x <- vector (cholesky_factor_cov_size n m) ;;
  lift (math.cholesky_factor_constrain x n m).
Definition cholesky_factor_cov_constrain_lp (n m : Z) (lp : T)
  : M (matrix_t * T) :=
  x <- vector (cholesky_factor_cov_size n m) ;;
  lift (math.cholesky_factor_constrain_lp x n m lp).

Definition cholesky_factor_corr (K : Z) : M matrix_t :=
  y <- matrix K K ;; lift (math.check_cholesky_factor_corr y) ;; ret y.
Definition cholesky_factor_corr_constrain (K : Z) : M matrix_t :=
  x <- vector (corr_size K) ;; lift (math.cholesky_corr_constrain x K).
Definition cholesky_factor_corr_constrain_lp (K : Z) (lp : T)
  : M (matrix_t * T) :=
  x <- vector (corr_size K) ;; lift (math.cholesky_corr_constrain_lp x K lp).

Definition cov_matrix (k : Z) : M matrix_t :=
  y <- matrix k k ;; lift (math.check_cov_matrix y) ;; ret y.
Definition cov_matrix_constrain (k : Z) : M matrix_t :=
  x <- vector (cov_size k) ;; lift (math.cov_matrix_constrain x k).
Definition cov_matrix_constrain_lp (k : Z) (lp : T) : M (matrix_t * T) :=
  x <- vector (cov_size k) ;; lift (math.cov_matrix_constrain_lp x k lp).

Definition corr_matrix (k : Z) : M matrix_t :=
  x <- matrix k k ;; lift (math.check_corr_matrix x) ;; ret x.
Definition corr_matrix_constrain (k : Z) : M matrix_t :=
  x <- vector (corr_size k) ;; lift (math.corr_matrix_constrain x k).
Definition corr_matrix_constrain_lp (k : Z) (lp : T) : M (matrix_t * T) :=
  x <- vector (corr_size k) ;; lift (math.corr_matrix_constrain_lp x k lp).

(** *** Batch operations

    The loops shared by the dense batch accessors.

    [vector_t v(m); for (size_t i = 0; i < m; ++i) v(i) = elem;] *)
Definition fill_vector (elem : M T) (m : Z) : M (list T) :=
  for_loop (Z.to_nat m) 0
    (fun i v => x <- elem ;; ret (<[Z.to_nat i := x]> v))
    (Vector_new m).
Definition fill_vector_lp (elem : T -> M (T * T)) (m : Z) (lp : T)
  : M (list T * T) :=
  for_loop (Z.to_nat m) 0
    (fun i acc =>
       r <- elem (snd acc) ;; ret (<[Z.to_nat i := fst r]> (fst acc), snd r))
    (Vector_new m, lp).

(** [matrix_t v(n, m);
    for (size_t j = 0; j < m; ++j)
      for (size_t i = 0; i < n; ++i) v(i, j) = elem;] *)
Definition fill_matrix (elem : M T) (n m : Z) : M matrix_t :=
  for_loop (Z.to_nat m) 0
    (fun j v =>
       for_loop (Z.to_nat n) 0
         (fun i v => x <- elem ;; ret (Eigen.set_coeff v i j x)) v)
    (Matrix_new n m).
Definition fill_matrix_lp (elem : T -> M (T * T)) (n m : Z) (lp : T)
  : M (matrix_t * T) :=
  for_loop (Z.to_nat m) 0
    (fun j acc =>
       for_loop (Z.to_nat n) 0
         (fun i acc =>
            r <- elem (snd acc) ;;
            ret (Eigen.set_coeff (fst acc) i j (fst r), snd r)) acc)
    (Matrix_new n m, lp).

(** **** [lb] *)

Definition vector_lb (lb : TL) (m : Z) : M vector_t :=
  fill_vector (scalar_lb lb) m.
Definition vector_lb_constrain (lb : TL) (m : Z) : M vector_t :=
  fill_vector (scalar_lb_constrain lb) m.
Definition vector_lb_constrain_lp (lb : TL) (m : Z) (lp : T)
  : M (vector_t * T) :=
  fill_vector_lp (scalar_lb_constrain_lp lb) m lp.

Definition row_vector_lb (lb : TL) (m : Z) : M row_vector_t :=
  fill_vector (scalar_lb lb) m.
Definition row_vector_lb_constrain (lb : TL) (m : Z) : M row_vector_t :=
  fill_vector (scalar_lb_constrain lb) m.
Definition row_vector_lb_constrain_lp (lb : TL) (m : Z) (lp : T)
  : M (row_vector_t * T) :=
  fill_vector_lp (scalar_lb_constrain_lp lb) m lp.

Definition matrix_lb (lb : TL) (n m : Z) : M matrix_t :=
  fill_matrix (scalar_lb lb) n m.
Definition matrix_lb_constrain (lb : TL) (n m : Z) : M matrix_t :=
  fill_matrix (scalar_lb_constrain lb) n m.
Definition matrix_lb_constrain_lp (lb : TL) (n m : Z) (lp : T)
  : M (matrix_t * T) :=
  fill_matrix_lp (scalar_lb_constrain_lp lb) n m lp.

(** [sparse_matrix_lb] reserves its triplet list and pushes onto it; every
    other sparse accessor builds the list with [vec_r.size()] elements and
    emplaces behind them. *)
Definition sparse_matrix_lb (lb : TL) (vec_r vec_c : list Z) (n m : Z)
  : M sparse_matrix_t :=
  sparse_read (reserved vec_r) (scalar_lb lb) vec_r vec_c n m.
Definition sparse_matrix_lb_constrain (lb : TL) (vec_r vec_c : list Z)
    (n m : Z)
  : M sparse_matrix_t :=
  sparse_read (presized vec_r) (scalar_lb_constrain lb) vec_r vec_c n m.
Definition sparse_matrix_lb_constrain_lp (lb : TL) (vec_r vec_c : list Z)
    (n m : Z) (lp : T)
  : M (sparse_matrix_t * T) :=
  sparse_read_lp (presized vec_r) (scalar_lb_constrain_lp lb)
    vec_r vec_c n m lp.

(** **** [ub] *)

Definition vector_ub (ub : TU) (m : Z) : M vector_t :=
  fill_vector (scalar_ub ub) m.
Definition vector_ub_constrain (ub : TU) (m : Z) : M vector_t :=
  fill_vector (scalar_ub_constrain ub) m.
Definition vector_ub_constrain_lp (ub : TU) (m : Z) (lp : T)
  : M (vector_t * T) :=
  fill_vector_lp (scalar_ub_constrain_lp ub) m lp.

Definition row_vector_ub (ub : TU) (m : Z) : M row_vector_t :=
  fill_vector (scalar_ub ub) m.
Definition row_vector_ub_constrain (ub : TU) (m : Z) : M row_vector_t :=
  fill_vector (scalar_ub_constrain ub) m.
Definition row_vector_ub_constrain_lp (ub : TU) (m : Z) (lp : T)
  : M (row_vector_t * T) :=
  fill_vector_lp (scalar_ub_constrain_lp ub) m lp.

Definition matrix_ub (ub : TU) (n m : Z) : M matrix_t :=
  fill_matrix (scalar_ub ub) n m.
Definition matrix_ub_constrain (ub : TU) (n m : Z) : M matrix_t :=
  fill_matrix (scalar_ub_constrain ub) n m.
Definition matrix_ub_constrain_lp (ub : TU) (n m : Z) (lp : T)
  : M (matrix_t * T) :=
  fill_matrix_lp (scalar_ub_constrain_lp ub) n m lp.

Definition sparse_matrix_ub (ub : TU) (vec_r vec_c : list Z) (n m : Z)
  : M sparse_matrix_t :=
  sparse_read (presized vec_r) (scalar_ub ub) vec_r vec_c n m.
Definition sparse_matrix_ub_constrain (ub : TU) (vec_r vec_c : list Z)
    (n m : Z)
  : M sparse_matrix_t :=
  sparse_read (presized vec_r) (scalar_ub_constrain ub) vec_r vec_c n m.
Definition sparse_matrix_ub_constrain_lp (ub : TU) (vec_r vec_c : list Z)
    (n m : Z) (lp : T)
  : M (sparse_matrix_t * T) :=
  sparse_read_lp (presized vec_r) (scalar_ub_constrain_lp ub)
    vec_r vec_c n m lp.

(** **** [lub] *)

Definition vector_lub (lb : TL) (ub : TU) (m : Z) : M vector_t :=
  fill_vector (scalar_lub lb ub) m.
Definition vector_lub_constrain (lb : TL) (ub : TU) (m : Z) : M vector_t :=
  fill_vector (scalar_lub_constrain lb ub) m.
Definition vector_lub_constrain_lp (lb : TL) (ub : TU) (m : Z) (lp : T)
  : M (vector_t * T) :=
  fill_vector_lp (scalar_lub_constrain_lp lb ub) m lp.

Definition row_vector_lub (lb : TL) (ub : TU) (m : Z) : M row_vector_t :=
  fill_vector (scalar_lub lb ub) m.
Definition row_vector_lub_constrain (lb : TL) (ub : TU) (m : Z)
  : M row_vector_t :=
  fill_vector (scalar_lub_constrain lb ub) m.
Definition row_vector_lub_constrain_lp (lb : TL) (ub : TU) (m : Z) (lp : T)
  : M (row_vector_t * T) :=
  fill_vector_lp (scalar_lub_constrain_lp lb ub) m lp.

Definition matrix_lub (lb : TL) (ub : TU) (n m : Z) : M matrix_t :=
  fill_matrix (scalar_lub lb ub) n m.
Definition matrix_lub_constrain (lb : TL) (ub : TU) (n m : Z) : M matrix_t :=
  fill_matrix (scalar_lub_constrain lb ub) n m.
Definition matrix_lub_constrain_lp (lb : TL) (ub : TU) (n m : Z) (lp : T)
  : M (matrix_t * T) :=
  fill_matrix_lp (scalar_lub_constrain_lp lb ub) n m lp.

Definition sparse_matrix_lub (lb : TL) (ub : TU) (vec_r vec_c : list Z)
    (n m : Z)
  : M sparse_matrix_t :=
  sparse_read (presized vec_r) (scalar_lub lb ub) vec_r vec_c n m.
Definition sparse_matrix_lub_constrain (lb : TL) (ub : TU)
    (vec_r vec_c : list Z) (n m : Z)
  : M sparse_matrix_t :=
  sparse_read (presized vec_r) (scalar_lub_constrain lb ub) vec_r vec_c n m.
Definition sparse_matrix_lub_constrain_lp (lb : TL) (ub : TU)
    (vec_r vec_c : list Z) (n m : Z) (lp : T)
  : M (sparse_matrix_t * T) :=
  sparse_read_lp (presized vec_r) (scalar_lub_constrain_lp lb ub)
    vec_r vec_c n m lp.

(** **** [offset_multiplier] *)

Definition vector_offset_multiplier (offset : TL) (multiplier : TS) (m : Z)
  : M vector_t :=
  fill_vector (scalar_offset_multiplier offset multiplier) m.
Definition vector_offset_multiplier_constrain (offset : TL)
    (multiplier : TS) (m : Z)
  : M vector_t :=
  fill_vector (scalar_offset_multiplier_constrain offset multiplier) m.
Definition vector_offset_multiplier_constrain_lp (offset : TL)
    (multiplier : TS) (m : Z) (lp : T)
  : M (vector_t * T) :=
  fill_vector_lp (scalar_offset_multiplier_constrain_lp offset multiplier)
    m lp.

Definition row_vector_offset_multiplier (offset : TL) (multiplier : TS) (m : Z)
  : M row_vector_t :=
  fill_vector (scalar_offset_multiplier offset multiplier) m.
Definition row_vector_offset_multiplier_constrain (offset : TL)
    (multiplier : TS) (m : Z)
  : M row_vector_t :=
  fill_vector (scalar_offset_multiplier_constrain offset multiplier) m.
Definition row_vector_offset_multiplier_constrain_lp (offset : TL)
    (multiplier : TS) (m : Z) (lp : T)
  : M (row_vector_t * T) :=
  fill_vector_lp (scalar_offset_multiplier_constrain_lp offset multiplier)
    m lp.

Definition matrix_offset_multiplier (offset : TL) (multiplier : TS) (n m : Z)
  : M matrix_t :=
  fill_matrix (scalar_offset_multiplier offset multiplier) n m.
Definition matrix_offset_multiplier_constrain (offset : TL)
    (multiplier : TS) (n m : Z)
  : M matrix_t :=
  fill_matrix (scalar_offset_multiplier_constrain offset multiplier) n m.
Definition matrix_offset_multiplier_constrain_lp (offset : TL)
    (multiplier : TS) (n m : Z) (lp : T)
  : M (matrix_t * T) :=
  fill_matrix_lp (scalar_offset_multiplier_constrain_lp offset multiplier)
    n m lp.

Definition sparse_matrix_offset_multiplier (offset : TL) (multiplier : TS)
    (vec_r vec_c : list Z) (n m : Z)
  : M sparse_matrix_t :=
  sparse_read (presized vec_r) (scalar_offset_multiplier offset multiplier)
    vec_r vec_c n m.
(** The source calls the plain [scalar_offset_multiplier] here. *)
Definition sparse_matrix_offset_multiplier_constrain (offset : TL)
    (multiplier : TS) (vec_r vec_c : list Z) (n m : Z)
  : M sparse_matrix_t :=
  sparse_read (presized vec_r) (scalar_offset_multiplier offset multiplier)
    vec_r vec_c n m.
(** The [T& lp] overload of [sparse_matrix_offset_multiplier_constrain]
    calls [scalar_offset_multiplier(offset, multiplier, lp)], an overload the
    class does not declare: the member template cannot be instantiated and
    has no embedding. *)

(** *** What lies ahead of the cursor *)

(** The [k] cells of [data_r_] from the cursor on, in order. *)
Definition next_scalars (st : reader) (k : Z) : list T :=
  elem_r st <$> seqZ (pos_ st) k.

(** The triplets a sparse accessor is asked for: one per listed nonzero,
    in the order of the index lists, the [i]-th with the [i]-th value of
    [xs]. *)
Fixpoint triplets_of (vec_r vec_c : list Z) (xs : list T)
  : list triplet_type :=
  match vec_r, vec_c, xs with
  | r :: vec_r', c :: vec_c', x :: xs' =>
      Eigen.Triplet r c x :: triplets_of vec_r' vec_c' xs'
  | _, _, _ => []
  end.

(** *** The public interface as data

    One constructor per public member function (and overload), carrying the
    arguments of the call; [exec] runs the call and keeps the reader it
    leaves behind, whether the call returned or threw. *)
Inductive call : Type :=
| call_available
| call_available_i
| call_integer
| call_integer_constrain
| call_integer_constrain_lp (lp : T)
| call_scalar
| call_scalar_constrain
| call_scalar_constrain_lp (lp : T)
| call_std_vector (m : Z)
| call_vector (m : Z)
| call_vector_constrain (m : Z)
| call_vector_constrain_lp (m : Z) (lp : T)
| call_row_vector (m : Z)
| call_row_vector_constrain (m : Z)
| call_row_vector_constrain_lp (m : Z) (lp : T)
| call_matrix (n m : Z)
| call_matrix_constrain (n m : Z)
| call_matrix_constrain_lp (n m : Z) (lp : T)
| call_sparse_matrix (vec_r vec_c : list Z) (n m : Z)
| call_sparse_matrix_constrain (vec_r vec_c : list Z) (n m : Z)
| call_sparse_matrix_constrain_lp (vec_r vec_c : list Z) (n m : Z) (lp : T)
| call_integer_lb (lb : Z)
| call_integer_lb_constrain (lb : Z)
| call_integer_lb_constrain_lp (lb : Z) (lp : T)
| call_integer_ub (ub : Z)
| call_integer_ub_constrain (ub : Z)
| call_integer_ub_constrain_lp (ub : Z) (lp : T)
| call_integer_lub (lb ub : Z)
| call_integer_lub_constrain (lb ub : Z)
| call_integer_lub_constrain_lp (lb ub : Z) (lp : T)
| call_scalar_pos
| call_scalar_pos_constrain
| call_scalar_pos_constrain_lp (lp : T)
| call_scalar_lb (lb : TL)
| call_scalar_lb_constrain (lb : TL)
| call_scalar_lb_constrain_lp (lb : TL) (lp : T)
| call_scalar_ub (ub : TU)
| call_scalar_ub_constrain (ub : TU)
| call_scalar_ub_constrain_lp (ub : TU) (lp : T)
| call_scalar_lub (lb : TL) (ub : TU)
| call_scalar_lub_constrain (lb : TL) (ub : TU)
| call_scalar_lub_constrain_lp (lb : TL) (ub : TU) (lp : T)
| call_scalar_offset_multiplier (offset : TL) (multiplier : TS)
| call_scalar_offset_multiplier_constrain (offset : TL) (multiplier : TS)
| call_scalar_offset_multiplier_constrain_lp (offset : TL)
    (multiplier : TS) (lp : T)
| call_prob
| call_prob_constrain
| call_prob_constrain_lp (lp : T)
| call_corr
| call_corr_constrain
| call_corr_constrain_lp (lp : T)
| call_unit_vector (k : Z)
| call_unit_vector_constrain (k : Z)
| call_unit_vector_constrain_lp (k : Z) (lp : T)
| call_simplex (k : Z)
| call_simplex_constrain (k : Z)
| call_simplex_constrain_lp (k : Z) (lp : T)
| call_ordered (k : Z)
| call_ordered_constrain (k : Z)
| call_ordered_constrain_lp (k : Z) (lp : T)
| call_positive_ordered (k : Z)
| call_positive_ordered_constrain (k : Z)
| call_positive_ordered_constrain_lp (k : Z) (lp : T)
| call_cholesky_factor_cov (n m : Z)
| call_cholesky_factor_cov_constrain (n m : Z)
| call_cholesky_factor_cov_constrain_lp (n m : Z) (lp : T)
| call_cholesky_factor_corr (K : Z)
| call_cholesky_factor_corr_constrain (K : Z)
| call_cholesky_factor_corr_constrain_lp (K : Z) (lp : T)
| call_cov_matrix (k : Z)
| call_cov_matrix_constrain (k : Z)
| call_cov_matrix_constrain_lp (k : Z) (lp : T)
| call_corr_matrix (k : Z)
| call_corr_matrix_constrain (k : Z)
| call_corr_matrix_constrain_lp (k : Z) (lp : T)
| call_vector_lb (lb : TL) (m : Z)
| call_vector_lb_constrain (lb : TL) (m : Z)
| call_vector_lb_constrain_lp (lb : TL) (m : Z) (lp : T)
| call_row_vector_lb (lb : TL) (m : Z)
| call_row_vector_lb_constrain (lb : TL) (m : Z)
| call_row_vector_lb_constrain_lp (lb : TL) (m : Z) (lp : T)
| call_matrix_lb (lb : TL) (n m : Z)
| call_matrix_lb_constrain (lb : TL) (n m : Z)
| call_matrix_lb_constrain_lp (lb : TL) (n m : Z) (lp : T)
| call_sparse_matrix_lb (lb : TL) (vec_r vec_c : list Z) (n m : Z)
| call_sparse_matrix_lb_constrain (lb : TL) (vec_r vec_c : list Z) (n m : Z)
| call_sparse_matrix_lb_constrain_lp (lb : TL)
    (vec_r vec_c : list Z) (n m : Z) (lp : T)
| call_vector_ub (ub : TU) (m : Z)
| call_vector_ub_constrain (ub : TU) (m : Z)
| call_vector_ub_constrain_lp (ub : TU) (m : Z) (lp : T)
| call_row_vector_ub (ub : TU) (m : Z)
| call_row_vector_ub_constrain (ub : TU) (m : Z)
| call_row_vector_ub_constrain_lp (ub : TU) (m : Z) (lp : T)
| call_matrix_ub (ub : TU) (n m : Z)
| call_matrix_ub_constrain (ub : TU) (n m : Z)
| call_matrix_ub_constrain_lp (ub : TU) (n m : Z) (lp : T)
| call_sparse_matrix_ub (ub : TU) (vec_r vec_c : list Z) (n m : Z)
| call_sparse_matrix_ub_constrain (ub : TU) (vec_r vec_c : list Z) (n m : Z)
| call_sparse_matrix_ub_constrain_lp (ub : TU)
    (vec_r vec_c : list Z) (n m : Z) (lp : T)
| call_vector_lub (lb : TL) (ub : TU) (m : Z)
| call_vector_lub_constrain (lb : TL) (ub : TU) (m : Z)
| call_vector_lub_constrain_lp (lb : TL) (ub : TU) (m : Z) (lp : T)
| call_row_vector_lub (lb : TL) (ub : TU) (m : Z)
| call_row_vector_lub_constrain (lb : TL) (ub : TU) (m : Z)
| call_row_vector_lub_constrain_lp (lb : TL) (ub : TU) (m : Z) (lp : T)
| call_matrix_lub (lb : TL) (ub : TU) (n m : Z)
| call_matrix_lub_constrain (lb : TL) (ub : TU) (n m : Z)
| call_matrix_lub_constrain_lp (lb : TL) (ub : TU) (n m : Z) (lp : T)
| call_sparse_matrix_lub (lb : TL) (ub : TU) (vec_r vec_c : list Z) (n m : Z)
| call_sparse_matrix_lub_constrain (lb : TL) (ub : TU)
    (vec_r vec_c : list Z) (n m : Z)
| call_sparse_matrix_lub_constrain_lp (lb : TL) (ub : TU)
    (vec_r vec_c : list Z) (n m : Z) (lp : T)
| call_vector_offset_multiplier (offset : TL) (multiplier : TS) (m : Z)
| call_vector_offset_multiplier_constrain (offset : TL)
    (multiplier : TS) (m : Z)
| call_vector_offset_multiplier_constrain_lp (offset : TL)
    (multiplier : TS) (m : Z) (lp : T)
| call_row_vector_offset_multiplier (offset : TL) (multiplier : TS) (m : Z)
| call_row_vector_offset_multiplier_constrain (offset : TL)
    (multiplier : TS) (m : Z)
| call_row_vector_offset_multiplier_constrain_lp (offset : TL)
    (multiplier : TS) (m : Z) (lp : T)
| call_matrix_offset_multiplier (offset : TL) (multiplier : TS) (n m : Z)
| call_matrix_offset_multiplier_constrain (offset : TL)
    (multiplier : TS) (n m : Z)
| call_matrix_offset_multiplier_constrain_lp (offset : TL)
    (multiplier : TS) (n m : Z) (lp : T)
| call_sparse_matrix_offset_multiplier (offset : TL)
    (multiplier : TS) (vec_r vec_c : list Z) (n m : Z)
| call_sparse_matrix_offset_multiplier_constrain (offset : TL)
    (multiplier : TS) (vec_r vec_c : list Z) (n m : Z).

Definition exec (c : call) : reader -> reader :=
  match c with
  | call_available => fun st => st
  | call_available_i => fun st => st
  | call_integer => final (integer)
  | call_integer_constrain => final (integer_constrain)
  | call_integer_constrain_lp lp => final (integer_constrain_lp lp)
  | call_scalar => final (scalar)
  | call_scalar_constrain => final (scalar_constrain)
  | call_scalar_constrain_lp lp => final (scalar_constrain_lp lp)
  | call_std_vector m => final (std_vector m)
  | call_vector m => final (vector m)
  | call_vector_constrain m => final (vector_constrain m)
  | call_vector_constrain_lp m lp => final (vector_constrain_lp m lp)
  | call_row_vector m => final (row_vector m)
  | call_row_vector_constrain m => final (row_vector_constrain m)
  | call_row_vector_constrain_lp m lp => final (row_vector_constrain_lp m lp)
  | call_matrix n m => final (matrix n m)
  | call_matrix_constrain n m => final (matrix_constrain n m)
  | call_matrix_constrain_lp n m lp => final (matrix_constrain_lp n m lp)
  | call_sparse_matrix vec_r vec_c n m => final (sparse_matrix vec_r vec_c n m)
  | call_sparse_matrix_constrain vec_r vec_c n m =>
      final (sparse_matrix_constrain vec_r vec_c n m)
  | call_sparse_matrix_constrain_lp vec_r vec_c n m lp =>
      final (sparse_matrix_constrain_lp vec_r vec_c n m lp)
  | call_integer_lb lb => final (integer_lb lb)
  | call_integer_lb_constrain lb => final (integer_lb_constrain lb)
  | call_integer_lb_constrain_lp lb lp => final (integer_lb_constrain_lp lb lp)
  | call_integer_ub ub => final (integer_ub ub)
  | call_integer_ub_constrain ub => final (integer_ub_constrain ub)
  | call_integer_ub_constrain_lp ub lp => final (integer_ub_constrain_lp ub lp)
  | call_integer_lub lb ub => final (integer_lub lb ub)
  | call_integer_lub_constrain lb ub => final (integer_lub_constrain lb ub)
  | call_integer_lub_constrain_lp lb ub lp =>
      final (integer_lub_constrain_lp lb ub lp)
  | call_scalar_pos => final (scalar_pos)
  | call_scalar_pos_constrain => final (scalar_pos_constrain)
  | call_scalar_pos_constrain_lp lp => final (scalar_pos_constrain_lp lp)
  | call_scalar_lb lb => final (scalar_lb lb)
  | call_scalar_lb_constrain lb => final (scalar_lb_constrain lb)
  | call_scalar_lb_constrain_lp lb lp => final (scalar_lb_constrain_lp lb lp)
  | call_scalar_ub ub => final (scalar_ub ub)
  | call_scalar_ub_constrain ub => final (scalar_ub_constrain ub)
  | call_scalar_ub_constrain_lp ub lp => final (scalar_ub_constrain_lp ub lp)
  | call_scalar_lub lb ub => final (scalar_lub lb ub)
  | call_scalar_lub_constrain lb ub => final (scalar_lub_constrain lb ub)
  | call_scalar_lub_constrain_lp lb ub lp =>
      final (scalar_lub_constrain_lp lb ub lp)
  | call_scalar_offset_multiplier offset multiplier =>
      final (scalar_offset_multiplier offset multiplier)
  | call_scalar_offset_multiplier_constrain offset multiplier =>
      final (scalar_offset_multiplier_constrain offset multiplier)
  | call_scalar_offset_multiplier_constrain_lp offset multiplier lp =>
      final (scalar_offset_multiplier_constrain_lp offset multiplier lp)
  | call_prob => final (prob)
  | call_prob_constrain => final (prob_constrain)
  | call_prob_constrain_lp lp => final (prob_constrain_lp lp)
  | call_corr => final (corr)
  | call_corr_constrain => final (corr_constrain)
  | call_corr_constrain_lp lp => final (corr_constrain_lp lp)
  | call_unit_vector k => final (unit_vector k)
  | call_unit_vector_constrain k => final (unit_vector_constrain k)
  | call_unit_vector_constrain_lp k lp => final (unit_vector_constrain_lp k lp)
  | call_simplex k => final (simplex k)
  | call_simplex_constrain k => final (simplex_constrain k)
  | call_simplex_constrain_lp k lp => final (simplex_constrain_lp k lp)
  | call_ordered k => final (ordered k)
  | call_ordered_constrain k => final (ordered_constrain k)
  | call_ordered_constrain_lp k lp => final (ordered_constrain_lp k lp)
  | call_positive_ordered k => final (positive_ordered k)
  | call_positive_ordered_constrain k => final (positive_ordered_constrain k)
  | call_positive_ordered_constrain_lp k lp =>
      final (positive_ordered_constrain_lp k lp)
  | call_cholesky_factor_cov n m => final (cholesky_factor_cov n m)
  | call_cholesky_factor_cov_constrain n m =>
      final (cholesky_factor_cov_constrain n m)
  | call_cholesky_factor_cov_constrain_lp n m lp =>
      final (cholesky_factor_cov_constrain_lp n m lp)
  | call_cholesky_factor_corr K => final (cholesky_factor_corr K)
  | call_cholesky_factor_corr_constrain K =>
      final (cholesky_factor_corr_constrain K)
  | call_cholesky_factor_corr_constrain_lp K lp =>
      final (cholesky_factor_corr_constrain_lp K lp)
  | call_cov_matrix k => final (cov_matrix k)
  | call_cov_matrix_constrain k => final (cov_matrix_constrain k)
  | call_cov_matrix_constrain_lp k lp => final (cov_matrix_constrain_lp k lp)
  | call_corr_matrix k => final (corr_matrix k)
  | call_corr_matrix_constrain k => final (corr_matrix_constrain k)
  | call_corr_matrix_constrain_lp k lp => final (corr_matrix_constrain_lp k lp)
  | call_vector_lb lb m => final (vector_lb lb m)
  | call_vector_lb_constrain lb m => final (vector_lb_constrain lb m)
  | call_vector_lb_constrain_lp lb m lp =>
      final (vector_lb_constrain_lp lb m lp)
  | call_row_vector_lb lb m => final (row_vector_lb lb m)
  | call_row_vector_lb_constrain lb m => final (row_vector_lb_constrain lb m)
  | call_row_vector_lb_constrain_lp lb m lp =>
      final (row_vector_lb_constrain_lp lb m lp)
  | call_matrix_lb lb n m => final (matrix_lb lb n m)
  | call_matrix_lb_constrain lb n m => final (matrix_lb_constrain lb n m)
  | call_matrix_lb_constrain_lp lb n m lp =>
      final (matrix_lb_constrain_lp lb n m lp)
  | call_sparse_matrix_lb lb vec_r vec_c n m =>
      final (sparse_matrix_lb lb vec_r vec_c n m)
  | call_sparse_matrix_lb_constrain lb vec_r vec_c n m =>
      final (sparse_matrix_lb_constrain lb vec_r vec_c n m)
  | call_sparse_matrix_lb_constrain_lp lb vec_r vec_c n m lp =>
      final (sparse_matrix_lb_constrain_lp lb vec_r vec_c n m lp)
  | call_vector_ub ub m => final (vector_ub ub m)
  | call_vector_ub_constrain ub m => final (vector_ub_constrain ub m)
  | call_vector_ub_constrain_lp ub m lp =>
      final (vector_ub_constrain_lp ub m lp)
  | call_row_vector_ub ub m => final (row_vector_ub ub m)
  | call_row_vector_ub_constrain ub m => final (row_vector_ub_constrain ub m)
  | call_row_vector_ub_constrain_lp ub m lp =>
      final (row_vector_ub_constrain_lp ub m lp)
  | call_matrix_ub ub n m => final (matrix_ub ub n m)
  | call_matrix_ub_constrain ub n m => final (matrix_ub_constrain ub n m)
  | call_matrix_ub_constrain_lp ub n m lp =>
      final (matrix_ub_constrain_lp ub n m lp)
  | call_sparse_matrix_ub ub vec_r vec_c n m =>
      final (sparse_matrix_ub ub vec_r vec_c n m)
  | call_sparse_matrix_ub_constrain ub vec_r vec_c n m =>
      final (sparse_matrix_ub_constrain ub vec_r vec_c n m)
  | call_sparse_matrix_ub_constrain_lp ub vec_r vec_c n m lp =>
      final (sparse_matrix_ub_constrain_lp ub vec_r vec_c n m lp)
  | call_vector_lub lb ub m => final (vector_lub lb ub m)
  | call_vector_lub_constrain lb ub m => final (vector_lub_constrain lb ub m)
  | call_vector_lub_constrain_lp lb ub m lp =>
      final (vector_lub_constrain_lp lb ub m lp)
  | call_row_vector_lub lb ub m => final (row_vector_lub lb ub m)
  | call_row_vector_lub_constrain lb ub m =>
      final (row_vector_lub_constrain lb ub m)
  | call_row_vector_lub_constrain_lp lb ub m lp =>
      final (row_vector_lub_constrain_lp lb ub m lp)
  | call_matrix_lub lb ub n m => final (matrix_lub lb ub n m)
  | call_matrix_lub_constrain lb ub n m =>
      final (matrix_lub_constrain lb ub n m)
  | call_matrix_lub_constrain_lp lb ub n m lp =>
      final (matrix_lub_constrain_lp lb ub n m lp)
  | call_sparse_matrix_lub lb ub vec_r vec_c n m =>
      final (sparse_matrix_lub lb ub vec_r vec_c n m)
  | call_sparse_matrix_lub_constrain lb ub vec_r vec_c n m =>
      final (sparse_matrix_lub_constrain lb ub vec_r vec_c n m)
  | call_sparse_matrix_lub_constrain_lp lb ub vec_r vec_c n m lp =>
      final (sparse_matrix_lub_constrain_lp lb ub vec_r vec_c n m lp)
  | call_vector_offset_multiplier offset multiplier m =>
      final (vector_offset_multiplier offset multiplier m)
  | call_vector_offset_multiplier_constrain offset multiplier m =>
      final (vector_offset_multiplier_constrain offset multiplier m)
  | call_vector_offset_multiplier_constrain_lp offset multiplier m lp =>
      final (vector_offset_multiplier_constrain_lp offset multiplier m lp)
  | call_row_vector_offset_multiplier offset multiplier m =>
      final (row_vector_offset_multiplier offset multiplier m)
  | call_row_vector_offset_multiplier_constrain offset multiplier m =>
      final (row_vector_offset_multiplier_constrain offset multiplier m)
  | call_row_vector_offset_multiplier_constrain_lp offset multiplier m lp =>
      final (row_vector_offset_multiplier_constrain_lp offset multiplier m lp)
  | call_matrix_offset_multiplier offset multiplier n m =>
      final (matrix_offset_multiplier offset multiplier n m)
  | call_matrix_offset_multiplier_constrain offset multiplier n m =>
      final (matrix_offset_multiplier_constrain offset multiplier n m)
  | call_matrix_offset_multiplier_constrain_lp offset multiplier n m lp =>
      final (matrix_offset_multiplier_constrain_lp offset multiplier n m lp)
  | call_sparse_matrix_offset_multiplier offset multiplier vec_r vec_c n m =>
      final (sparse_matrix_offset_multiplier offset multiplier vec_r vec_c n m)
  | call_sparse_matrix_offset_multiplier_constrain offset multiplier
      vec_r vec_c n m =>
      final (sparse_matrix_offset_multiplier_constrain offset multiplier
               vec_r vec_c n m)
  end.

(** The number of scalars a call asks of the unchecked paths
    ([scalar_ptr_increment], the [std::copy] of [std_vector]); [0] for the
    members that read through [scalar()] and [integer()] only. *)
Definition unchecked_request (c : call) : Z :=
  match c with
  | call_std_vector m => m
  | call_vector m => m
  | call_vector_constrain m => m
  | call_vector_constrain_lp m lp => m
  | call_row_vector m => m
  | call_row_vector_constrain m => m
  | call_row_vector_constrain_lp m lp => m
  | call_matrix n m => SizeT.mul n m
  | call_matrix_constrain n m => SizeT.mul n m
  | call_matrix_constrain_lp n m lp => SizeT.mul n m
  | call_sparse_matrix vec_r vec_c n m => Z.of_nat (length vec_r)
  | call_sparse_matrix_constrain vec_r vec_c n m => Z.of_nat (length vec_r)
  | call_sparse_matrix_constrain_lp vec_r vec_c n m lp =>
      Z.of_nat (length vec_r)
  | call_unit_vector k => k
  | call_unit_vector_constrain k => k
  | call_unit_vector_constrain_lp k lp => k
  | call_simplex k => k
  | call_simplex_constrain k => if k =? 0 then 0 else SizeT.sub k 1
  | call_simplex_constrain_lp k lp => if k =? 0 then 0 else SizeT.sub k 1
  | call_ordered k => k
  | call_ordered_constrain k => k
  | call_ordered_constrain_lp k lp => k
  | call_positive_ordered k => k
  | call_positive_ordered_constrain k => k
  | call_positive_ordered_constrain_lp k lp => k
  | call_cholesky_factor_cov n m => SizeT.mul n m
  | call_cholesky_factor_cov_constrain n m => cholesky_factor_cov_size n m
  | call_cholesky_factor_cov_constrain_lp n m lp =>
      cholesky_factor_cov_size n m
  | call_cholesky_factor_corr K => SizeT.mul K K
  | call_cholesky_factor_corr_constrain K => corr_size K
  | call_cholesky_factor_corr_constrain_lp K lp => corr_size K
  | call_cov_matrix k => SizeT.mul k k
  | call_cov_matrix_constrain k => cov_size k
  | call_cov_matrix_constrain_lp k lp => cov_size k
  | call_corr_matrix k => SizeT.mul k k
  | call_corr_matrix_constrain k => corr_size k
  | call_corr_matrix_constrain_lp k lp => corr_size k
  | _ => 0
  end.

End Members.
Arguments call : clear implicits.

(** ** Well-formed readers and requests *)

(** The cursors and both sizes are [size_t] values. *)
Definition wf {T} (st : reader T) : Prop :=
  SizeT.in_range (pos_ st) /\ SizeT.in_range (int_pos_ st) /\
  SizeT.in_range (size_r st) /\ SizeT.in_range (size_i st).

(** A request of [r] scalars at [st] is a [size_t] and moving the cursor by
    it does not overflow [size_t]. *)
Definition fits {T} (st : reader T) (r : Z) : Prop :=
  0 <= r /\ pos_ st + r <= SizeT.SIZE_MAX.



(** [elem] is a scalar-level read: with a scalar left it takes the scalar at
    the cursor, returns [h] of it and leaves the cursor one further. *)
Definition element_read {T} `{Machine T} (elem : M T T) (h : T -> T) : Prop :=
  forall st, wf st -> pos_ st < size_r st ->
    elem st =
      (Ok (h (elem_r st (pos_ st))),
       Reader (data_r_ st) (data_i_ st) (pos_ st + 1) (int_pos_ st)).

(** The messages of the reader's own exceptions. *)
Definition BufferExhausted_r : exn :=
  runtime_error "no more scalars to read".
Definition BufferExhausted_i : exn :=
  runtime_error "no more integers to read.".
Definition BoundInconsistent : exn :=
  runtime_error "lower bound must be less than or equal to ub".
Definition BelowLowerBound : exn :=
  runtime_error "required value greater than or equal to lb".
Definition AboveUpperBound : exn :=
  runtime_error "required value less than or equal to ub".

(** ** Vocabulary for the facts beyond the cursors' direction *)

(** [st] with the scalar cursor [r] further, and with it at the end of the
    data. *)
Definition moved {T} (st : reader T) (r : Z) : reader T :=
  Reader (data_r_ st) (data_i_ st) (pos_ st + r) (int_pos_ st).
Definition at_end {T} (st : reader T) : reader T :=
  Reader (data_r_ st) (data_i_ st) (size_r st) (int_pos_ st).

(** Neither cursor is behind the end of its sequence. *)
Definition in_bounds {T} (st : reader T) : Prop :=
  pos_ st <= size_r st /\ int_pos_ st <= size_i st.

(** The members that read from the integer sequence. *)
Definition is_integer_call {T TL TU TS} (c : call T TL TU TS) : bool :=
  match c with
  | call_integer | call_integer_constrain | call_integer_constrain_lp _
  | call_integer_lb _ | call_integer_lb_constrain _
  | call_integer_lb_constrain_lp _ _
  | call_integer_ub _ | call_integer_ub_constrain _
  | call_integer_ub_constrain_lp _ _
  | call_integer_lub _ _ | call_integer_lub_constrain _ _
  | call_integer_lub_constrain_lp _ _ _ => true
  | _ => false
  end.

(** A computation keeps the property [I] of well-formed readers. *)
Definition Keeps {T A} (I : reader T -> Prop) (c : M T A) : Prop :=
  forall st, wf st -> I st -> wf (final c st) /\ I (final c st).

(** A computation leaves the component [f] of the reader alone. *)
Definition Leaves {T A X} (f : reader T -> X) (c : M T A) : Prop :=
  forall st, f (final c st) = f st.

(** A computation reads exactly [k] scalars through the checked path: from
    a reader within bounds it returns with the cursor [k] further when [k]
    scalars are left, and otherwise throws the exhaustion error with the
    cursor at the end of the data. *)
Definition Reads {T A} (c : M T A) (k : Z) : Prop :=
  forall st, wf st -> pos_ st <= size_r st ->
    (pos_ st + k <= size_r st -> exists a, c st = (Ok a, moved st k))
    /\ (size_r st < pos_ st + k ->
        c st = (Throw (runtime_error "no more scalars to read"), at_end st)).

(** [elem] is a scalar-level read with accumulator: with a scalar [x] left
    it returns [h x] and the accumulator [g lp x], one scalar further. *)
Definition element_read_lp {T} `{Machine T} (elem : T -> M T (T * T))
    (h : T -> T) (g : T -> T -> T) : Prop :=
  forall lp st, wf st -> pos_ st < size_r st ->
    elem lp st =
      (Ok (h (elem_r st (pos_ st)), g lp (elem_r st (pos_ st))),
       moved st 1).

(** The scalar-level read [elem] in round [d] of a batch read that started
    at [st]: it runs from [d] scalars behind [st], has the outcome [r] and
    leaves the cursor one scalar further. *)
Definition round_of {T} (elem : M T T) (st : reader T) (d : nat)
    (r : outcome T) : Prop :=
  elem (moved st (Z.of_nat d)) = (r, moved st (Z.of_nat (S d))).

(** What a plain accessor makes of the value [a] it extracted, once the
    predicate of [stan::math] has returned or thrown, at the reader [st']
    the extraction left. *)
Definition checked_value {T A} (chk : outcome unit) (a : A) (st' : reader T)
  : outcome A * reader T :=
  match chk with
  | Ok _ => (Ok a, st')
  | Throw e => (Throw e, st')
  end.

(** A small instance to run the reader on: the scalars are integers, the
    transforms and checks are integer functions chosen for the examples
    (none of them is the function of [stan::math]). *)
Module Demo.

#[export] Instance machine : Machine Z :=
  {| zero := 0; indet := -1; stray := fun _ => -2 |}.

Definition check (b : bool) (what : string) : outcome unit :=
  if b then Ok tt else Throw (library_error what).

Definition sum (v : list Z) : Z := foldr Z.add 0 v.

#[export] Instance lib : math.Lib Z Z Z Z :=
  {| math.check_positive x := check (0 <? x) "is not positive";
     math.check_greater_or_equal x lb := check (lb <=? x) "is below lb";
     math.check_less_or_equal x ub := check (x <=? ub) "is above ub";
     math.check_bounded x lb ub :=
       check ((lb <=? x) && (x <=? ub)) "is out of bounds";
     math.check_bounded_dd x lo hi :=
       check ((lo <=? x) && (x <=? hi)) "is out of bounds";
     math.check_unit_vector v := check (sum v =? 1) "is not a unit vector";
     math.check_simplex v := check (sum v =? 1) "is not a simplex";
     math.check_ordered v := check true "is not ordered";
     math.check_positive_ordered v := check true "is not ordered";
     math.check_cholesky_factor y := check true "is not a factor";
     math.check_cholesky_factor_corr y := check true "is not a factor";
     math.check_cov_matrix y := check true "is not a covariance";
     math.check_corr_matrix y := check true "is not a correlation";
     math.positive_constrain x := Ok (Z.abs x + 1);
     math.positive_constrain_lp x lp := Ok (Z.abs x + 1, lp + x);
     math.lb_constrain x lb := Ok (lb + Z.abs x);
     math.lb_constrain_lp x lb lp := Ok (lb + Z.abs x, lp + x);
     math.ub_constrain x ub := Ok (ub - Z.abs x);
     math.ub_constrain_lp x ub lp := Ok (ub - Z.abs x, lp + x);
     math.lub_constrain x lb ub := Ok (lb + (x mod (ub - lb + 1)));
     math.lub_constrain_lp x lb ub lp :=
       Ok (lb + (x mod (ub - lb + 1)), lp + x);
     math.offset_multiplier_constrain x mu sigma := Ok (mu + sigma * x);
     math.offset_multiplier_constrain_lp x mu sigma lp :=
       Ok (mu + sigma * x, lp + sigma);
     math.prob_constrain x := Ok (x mod 2);
     math.prob_constrain_lp x lp := Ok (x mod 2, lp + x);
     math.corr_constrain x := Ok (Z.sgn x);
     math.corr_constrain_lp x lp := Ok (Z.sgn x, lp + x);
     math.unit_vector_constrain v := Ok v;
     math.unit_vector_constrain_lp v lp := Ok (v, lp);
     math.simplex_constrain v := Ok (v ++ [1 - sum v]);
     math.simplex_constrain_lp v lp := Ok (v ++ [1 - sum v], lp);
     math.ordered_constrain v := Ok v;
     math.ordered_constrain_lp v lp := Ok (v, lp);
     math.positive_ordered_constrain v := Ok v;
     math.positive_ordered_constrain_lp v lp := Ok (v, lp);
     math.cholesky_factor_constrain v n m := Ok (Eigen.Matrix n m v);
     math.cholesky_factor_constrain_lp v n m lp :=
       Ok (Eigen.Matrix n m v, lp);
     math.cholesky_corr_constrain v K := Ok (Eigen.Matrix K K v);
     math.cholesky_corr_constrain_lp v K lp := Ok (Eigen.Matrix K K v, lp);
     math.cov_matrix_constrain v k := Ok (Eigen.Matrix k k v);
     math.cov_matrix_constrain_lp v k lp := Ok (Eigen.Matrix k k v, lp);
     math.corr_matrix_constrain v k := Ok (Eigen.Matrix k k v);
     math.corr_matrix_constrain_lp v k lp := Ok (Eigen.Matrix k k v, lp) |}.

(** A reader over integer scalars, just constructed. *)
Definition start (data_r data_i : list Z) : reader Z :=
  construct data_r data_i.

End Demo.

(** ** Facts about [size_t] arithmetic *)

Lemma wrap_small z : SizeT.in_range z -> SizeT.wrap z = z.
Proof.
  unfold SizeT.in_range, SizeT.wrap, SizeT.SIZE_MAX. intros H.
  apply Z.mod_small. lia.
Qed.

Lemma wrap_in_range z : SizeT.in_range (SizeT.wrap z).
Proof.
  unfold SizeT.in_range, SizeT.wrap, SizeT.SIZE_MAX.
  assert (0 <= z mod SizeT.modulus < SizeT.modulus)
    by (apply Z.mod_pos_bound; reflexivity).
  lia.
Qed.

Lemma add_small a b : SizeT.in_range (a + b) -> SizeT.add a b = a + b.
Proof. apply wrap_small. Qed.

Lemma mul_small a b : SizeT.in_range (a * b) -> SizeT.mul a b = a * b.
Proof. apply wrap_small. Qed.

Lemma sub_small a b : SizeT.in_range (a - b) -> SizeT.sub a b = a - b.
Proof. apply wrap_small. Qed.

Lemma sub_add_cancel a m : SizeT.in_range a -> SizeT.sub (SizeT.add a m) m = a.
Proof.
  unfold SizeT.sub, SizeT.add, SizeT.wrap. intros H.
  rewrite Zminus_mod_idemp_l.
  replace (a + m - m) with a by lia.
  apply wrap_small, H.
Qed.

Lemma size_max_value : SizeT.SIZE_MAX = 18446744073709551615.
Proof. reflexivity. Qed.

(** ** Facts about the reader *)

Section Facts.
Context {T TL TU TS : Type} {Mc : Machine T} {L : math.Lib T TL TU TS}.

Local Abbreviation reader := (reader T).
Local Abbreviation M := (M T).

Lemma reader_eta (st : reader) :
  Reader (data_r_ st) (data_i_ st) (pos_ st) (int_pos_ st) = st.
Proof. by destruct st. Qed.

(** In bounds, [data_r_[i]] is the element of the borrowed sequence. *)
Lemma elem_r_in_bounds (st : reader) (i : Z) :
  0 <= i < size_r st ->
  data_r_ st !! Z.to_nat i = Some (elem_r st i).
Proof.
  unfold size_r, elem_r. intros H.
  destruct (lookup_lt_is_Some_2 (data_r_ st) (Z.to_nat i)) as [x Hx]; [lia|].
  by rewrite Hx.
Qed.

Lemma elem_i_in_bounds (st : reader) (i : Z) :
  0 <= i < size_i st ->
  data_i_ st !! Z.to_nat i = Some (elem_i st i).
Proof.
  unfold size_i, elem_i. intros H.
  destruct (lookup_lt_is_Some_2 (data_i_ st) (Z.to_nat i)) as [x Hx]; [lia|].
  by rewrite Hx.
Qed.

(** [scalar()] with a scalar left. *)
Lemma scalar_some (st : reader) :
  wf st -> pos_ st < size_r st ->
  scalar st = (Ok (elem_r st (pos_ st)),
               Reader (data_r_ st) (data_i_ st) (pos_ st + 1) (int_pos_ st)).
Proof.
  intros (Hp & _ & Hs & _) Hlt. unfold scalar, set_pos.
  destruct (Z.leb_spec (size_r st) (pos_ st)); [lia|].
  rewrite add_small; [done|]. unfold SizeT.in_range in *. lia.
Qed.

(** [scalar()] at the end. *)
Lemma scalar_none (st : reader) :
  size_r st <= pos_ st -> scalar st = (Throw BufferExhausted_r, st).
Proof.
  intros Hge. unfold scalar.
  by destruct (Z.leb_spec (size_r st) (pos_ st)); [|lia].
Qed.

(** [integer()] with an integer left. *)
Lemma integer_some (st : reader) :
  wf st -> int_pos_ st < size_i st ->
  integer st = (Ok (elem_i st (int_pos_ st)),
                Reader (data_r_ st) (data_i_ st) (pos_ st) (int_pos_ st + 1)).
Proof.
  intros (_ & Hp & _ & Hs) Hlt. unfold integer, set_int_pos.
  destruct (Z.leb_spec (size_i st) (int_pos_ st)); [lia|].
  rewrite add_small; [done|]. unfold SizeT.in_range in *. lia.
Qed.

(** [integer()] at the end. *)
Lemma integer_none (st : reader) :
  size_i st <= int_pos_ st -> integer st = (Throw BufferExhausted_i, st).
Proof.
  intros Hge. unfold integer.
  by destruct (Z.leb_spec (size_i st) (int_pos_ st)); [|lia].
Qed.

(** C3.  [scalar()] and [integer()] check, then advance: with the cursor
    before the end of its sequence the call returns the element at the
    cursor and moves that cursor, and only that cursor, by one; with the
    cursor at (or behind) the end the call throws the exhaustion error,
    returns no value and leaves the reader as it was. *)
Theorem single_reads_check_then_advance (st : reader) :
  wf st ->
  (pos_ st < size_r st ->
   exists x,
     data_r_ st !! Z.to_nat (pos_ st) = Some x /\
     scalar st =
       (Ok x, Reader (data_r_ st) (data_i_ st) (pos_ st + 1) (int_pos_ st)))
  /\ (size_r st <= pos_ st -> scalar st = (Throw BufferExhausted_r, st))
  /\ (int_pos_ st < size_i st ->
      exists i,
        data_i_ st !! Z.to_nat (int_pos_ st) = Some i /\
        integer st =
          (Ok i, Reader (data_r_ st) (data_i_ st) (pos_ st) (int_pos_ st + 1)))
  /\ (size_i st <= int_pos_ st -> integer st = (Throw BufferExhausted_i, st)).
Proof.
  intros Hwf. split; [|split; [|split]].
  - intros Hlt. exists (elem_r st (pos_ st)). split.
    + apply elem_r_in_bounds. destruct Hwf as [[? ?] _]. lia.
    + by apply scalar_some.
  - apply scalar_none.
  - intros Hlt. exists (elem_i st (int_pos_ st)). split.
    + apply elem_i_in_bounds. destruct Hwf as (_ & [? ?] & _). lia.
    + by apply integer_some.
  - apply integer_none.
Qed.

(** *** Monad steps *)

Lemma bind_ok {A B} (c : M A) (k : A -> M B) (st st' : reader) (a : A) :
  c st = (Ok a, st') -> bind c k st = k a st'.
Proof. unfold bind. by intros ->. Qed.

Lemma bind_throw {A B} (c : M A) (k : A -> M B) (st st' : reader) (e : exn) :
  c st = (Throw e, st') -> bind c k st = (Throw e, st').
Proof. unfold bind. by intros ->. Qed.

(** A call into [stan::math] and what follows it leave the reader alone. *)
Lemma final_lift {A} (o : outcome A) (st : reader) : final (lift o) st = st.
Proof. done. Qed.

Lemma final_lift_ret {A B} (o : outcome A) (b : B) (st : reader) :
  final (lift o ;; ret b) st = st.
Proof. unfold final, bind, lift, ret. by destruct o. Qed.

Lemma final_bind_ok {A B} (c : M A) (k : A -> M B) (st st' : reader) (a : A) :
  c st = (Ok a, st') -> final (bind c k) st = final (k a) st'.
Proof. intros H. unfold final. by rewrite (bind_ok _ _ _ _ _ H). Qed.

Lemma matrix_no_rows (st : reader) (m : Z) :
  matrix 0 m st = (Ok (Eigen.Matrix 0 m []), st).
Proof. unfold matrix, Matrix_new. destruct (m =? 0); reflexivity. Qed.

Lemma matrix_no_cols (st : reader) (n : Z) :
  matrix n 0 st = (Ok (Eigen.Matrix n 0 []), st).
Proof. unfold matrix, Matrix_new. rewrite Z.mul_0_r. reflexivity. Qed.

(** C10.  A zero dimension makes the dense extractors return at once:
    [matrix(0, m)] and [matrix(n, 0)] return the matrix of that shape with
    no coefficient, [vector(0)], [row_vector(0)] and [std_vector(0)] return
    the empty container; none throws, and the reader (both cursors and both
    sequences) is the one the call started from. *)
Theorem zero_dimension_reads_nothing (st : reader) (n m : Z) :
  matrix 0 m st = (Ok (Eigen.Matrix 0 m []), st)
  /\ matrix n 0 st = (Ok (Eigen.Matrix n 0 []), st)
  /\ vector 0 st = (Ok [], st)
  /\ row_vector 0 st = (Ok [], st)
  /\ std_vector 0 st = (Ok [], st).
Proof.
  split; [apply matrix_no_rows|]. split; [apply matrix_no_cols|].
  repeat split.
Qed.

(** C6.  [unit_vector(0)], [unit_vector_constrain(0)], [simplex(0)] and
    [simplex_constrain(0)] (with or without [lp]) throw
    [std::invalid_argument] at once: the reader they leave is the reader
    they were called on, so the scalar cursor has not moved. *)
Theorem zero_size_rejected_before_reading (st : reader) (lp : T) :
  unit_vector 0 st =
    (Throw (invalid_argument
              "io::unit_vector: unit vectors cannot be size 0."), st)
  /\ unit_vector_constrain 0 st =
       (Throw (invalid_argument
                 "io::unit_vector_constrain: unit vectors cannot be size 0."),
        st)
  /\ unit_vector_constrain_lp 0 lp st =
       (Throw (invalid_argument
                 "io::unit_vector_constrain: unit vectors cannot be size 0."),
        st)
  /\ simplex 0 st =
       (Throw (invalid_argument "io::simplex: simplexes cannot be size 0."),
        st)
  /\ simplex_constrain 0 st =
       (Throw (invalid_argument
                 "io::simplex_constrain: simplexes cannot be size 0."), st)
  /\ simplex_constrain_lp 0 lp st =
       (Throw (invalid_argument
                 "io::simplex_constrain: simplexes cannot be size 0."), st).
Proof. repeat split. Qed.

(** Without an integer left the bound checks fail as [integer()] does, and
    leave the reader as it was. *)
Lemma integer_bounds_exhausted (st : reader) (lb ub : Z) :
  size_i st <= int_pos_ st ->
  integer_lub lb ub st = (Throw BufferExhausted_i, st)
  /\ integer_lb lb st = (Throw BufferExhausted_i, st)
  /\ integer_ub ub st = (Throw BufferExhausted_i, st).
Proof.
  intros Hge. pose proof (integer_none st Hge) as Hi.
  unfold integer_lub, integer_lb, integer_ub.
  by rewrite !(bind_throw _ _ _ _ _ Hi).
Qed.

(** C5.  With an integer left, [integer_lub(lb, ub)] first consumes it (the
    integer cursor of the reader left behind is one further in every case
    below) and then checks, in this order: [lb > ub] throws the
    bound-consistency error, which is none of the two range errors; the
    integer below [lb] throws the lower range error; the integer above [ub]
    throws the upper range error; otherwise the integer itself is returned,
    unchanged.  [integer_lb] and [integer_ub] consume and then check in the
    same way. *)
Theorem integer_bounds_consume_then_validate (st : reader) (lb ub : Z) :
  wf st -> int_pos_ st < size_i st ->
  exists i,
    let st' :=
      Reader (data_r_ st) (data_i_ st) (pos_ st) (int_pos_ st + 1) in
    data_i_ st !! Z.to_nat (int_pos_ st) = Some i
    /\ (lb > ub -> integer_lub lb ub st = (Throw BoundInconsistent, st'))
    /\ (lb <= ub -> i < lb ->
        integer_lub lb ub st = (Throw BelowLowerBound, st'))
    /\ (lb <= ub -> ub < i ->
        integer_lub lb ub st = (Throw AboveUpperBound, st'))
    /\ (lb <= i <= ub -> integer_lub lb ub st = (Ok i, st'))
    /\ BoundInconsistent <> BelowLowerBound
    /\ BoundInconsistent <> AboveUpperBound
    /\ (i < lb -> integer_lb lb st = (Throw BelowLowerBound, st'))
    /\ (lb <= i -> integer_lb lb st = (Ok i, st'))
    /\ (ub < i -> integer_ub ub st = (Throw AboveUpperBound, st'))
    /\ (i <= ub -> integer_ub ub st = (Ok i, st')).
Proof.
  intros Hwf Hlt. exists (elem_i st (int_pos_ st)).
  pose proof (integer_some st Hwf Hlt) as Hi.
  cbv zeta. split.
  { apply elem_i_in_bounds. destruct Hwf as (_ & [? ?] & _). lia. }
  unfold integer_lub, integer_lb, integer_ub.
  rewrite !(bind_ok _ _ _ _ _ Hi).
  set (i := elem_i st (int_pos_ st)). unfold throw, ret.
  repeat split; try discriminate; intros;
    repeat match goal with
           | |- context [?a <? ?b] => destruct (Z.ltb_spec a b); try lia
           | |- context [?a <=? ?b] => destruct (Z.leb_spec a b); try lia
           | |- _ => progress simpl
           end; reflexivity.
Qed.


(** *** The unchecked bulk reads *)

Lemma elem_r_same_data (st st' : reader) (i : Z) :
  data_r_ st' = data_r_ st -> elem_r st' i = elem_r st i.
Proof. unfold elem_r. by intros ->. Qed.

Lemma length_next_scalars (st : reader) (k : Z) :
  length (next_scalars st k) = Z.to_nat k.
Proof. unfold next_scalars. by rewrite length_fmap, length_seqZ. Qed.

Lemma lookup_next_scalars (st : reader) (k i : Z) :
  0 <= i < k ->
  next_scalars st k !! Z.to_nat i = Some (elem_r st (pos_ st + i)).
Proof.
  intros H. unfold next_scalars.
  rewrite list_lookup_fmap, lookup_seqZ_lt by lia.
  simpl. do 2 f_equal. lia.
Qed.

(** In bounds, the cells ahead of the cursor are a segment of the data. *)
Lemma next_scalars_in_bounds (st : reader) (k : Z) :
  0 <= pos_ st -> 0 <= k -> pos_ st + k <= size_r st ->
  next_scalars st k =
    take (Z.to_nat k) (drop (Z.to_nat (pos_ st)) (data_r_ st)).
Proof.
  intros Hp Hk Hle. apply list_eq. intros i.
  destruct (decide (i < Z.to_nat k)%nat) as [Hi|Hi].
  - replace i with (Z.to_nat (Z.of_nat i)) at 1 by lia.
    rewrite lookup_next_scalars by lia.
    rewrite lookup_take_lt by lia. rewrite lookup_drop.
    rewrite <- elem_r_in_bounds by lia. f_equal. lia.
  - rewrite lookup_take_ge by lia.
    apply lookup_ge_None_2. rewrite length_next_scalars. lia.
Qed.

Lemma scalar_ptr_increment_run (st : reader) (m : Z) :
  wf st -> fits st m ->
  scalar_ptr_increment m st =
    (Ok (pos_ st),
     Reader (data_r_ st) (data_i_ st) (pos_ st + m) (int_pos_ st)).
Proof.
  intros (Hp & _) [Hm Hle]. unfold scalar_ptr_increment, set_pos. simpl.
  rewrite sub_add_cancel by done.
  rewrite add_small; [done|]. unfold SizeT.in_range in *. lia.
Qed.

Lemma vector_run (st : reader) (m : Z) :
  wf st -> fits st m ->
  vector m st =
    (Ok (next_scalars st m),
     Reader (data_r_ st) (data_i_ st) (pos_ st + m) (int_pos_ st)).
Proof.
  intros Hwf Hfit. unfold vector.
  destruct (Z.eqb_spec m 0) as [->|Hm].
  - rewrite Z.add_0_r, reader_eta. reflexivity.
  - by rewrite (bind_ok _ _ _ _ _ (scalar_ptr_increment_run st m Hwf Hfit)).
Qed.

Lemma row_vector_run (st : reader) (m : Z) :
  wf st -> fits st m ->
  row_vector m st =
    (Ok (next_scalars st m),
     Reader (data_r_ st) (data_i_ st) (pos_ st + m) (int_pos_ st)).
Proof. apply vector_run. Qed.

Lemma std_vector_run (st : reader) (m : Z) :
  wf st -> fits st m ->
  std_vector m st =
    (Ok (next_scalars st m),
     Reader (data_r_ st) (data_i_ st) (pos_ st + m) (int_pos_ st)).
Proof.
  intros (Hp & _) [Hm Hle]. unfold std_vector.
  destruct (Z.eqb_spec m 0) as [->|Hm0].
  - rewrite Z.add_0_r, reader_eta. reflexivity.
  - unfold std_copy, std_vector_new, set_pos, next_scalars.
    replace (pos_ st + m - pos_ st) with m by lia.
    rewrite drop_replicate, Nat.sub_diag, app_nil_r.
    rewrite add_small; [done|]. unfold SizeT.in_range in *. lia.
Qed.

Lemma matrix_run (st : reader) (n m : Z) :
  wf st -> 1 <= n -> 1 <= m -> fits st (n * m) ->
  matrix n m st =
    (Ok (Eigen.Matrix n m (next_scalars st (n * m))),
     Reader (data_r_ st) (data_i_ st) (pos_ st + n * m) (int_pos_ st)).
Proof.
  intros Hwf Hn Hm Hfit. unfold matrix.
  destruct (Z.eqb_spec m 0); [lia|]. destruct (Z.eqb_spec n 0); [lia|].
  assert (Hmul : SizeT.mul n m = n * m).
  { apply mul_small. destruct Hwf as ([? ?] & _), Hfit.
    unfold SizeT.in_range. lia. }
  simpl. rewrite Hmul.
  rewrite (bind_ok _ _ _ _ _ (scalar_ptr_increment_run st _ Hwf Hfit)).
  unfold map_matrix_t. by rewrite Hmul.
Qed.


(** C1.  For [n >= 1] and [m >= 1] (and a cursor that [n * m] more scalars
    do not overflow), [matrix(n, m)] returns; it moves the scalar cursor by
    exactly [n * m] and nothing else; the result has [n] rows and [m]
    columns and its storage is the [n * m] scalars from the cursor on, in
    order, so that coefficient [(i, j)] is the [(j * n + i)]-th of them
    (column-major) -- an element of the borrowed data when that many
    scalars were left.  In particular, when the next scalars are
    [a, b, c, d, e, f], [matrix(2, 3)] has the rows [(a, c, e)] and
    [(b, d, f)], that is the columns [(a, b)], [(c, d)] and [(e, f)]. *)
Theorem matrix_column_major (st : reader) (n m : Z) :
  wf st -> 1 <= n -> 1 <= m -> pos_ st + n * m <= SizeT.SIZE_MAX ->
  exists v : Eigen.matrix_t T,
    matrix n m st =
      (Ok v, Reader (data_r_ st) (data_i_ st) (pos_ st + n * m) (int_pos_ st))
    /\ consumed (matrix n m) st = n * m
    /\ Eigen.rows v = n /\ Eigen.cols v = m
    /\ Eigen.coeffs v = next_scalars st (n * m)
    /\ (forall i j, 0 <= i < n -> 0 <= j < m ->
        Eigen.coeff v i j = next_scalars st (n * m) !! Z.to_nat (j * n + i)
        /\ Eigen.coeff v i j = Some (elem_r st (pos_ st + (j * n + i))))
    /\ (pos_ st + n * m <= size_r st ->
        forall i j, 0 <= i < n -> 0 <= j < m ->
        Eigen.coeff v i j = data_r_ st !! Z.to_nat (pos_ st + (j * n + i)))
    /\ (forall a b c d e f,
        n = 2 -> m = 3 -> next_scalars st 6 = [a; b; c; d; e; f] ->
        Eigen.row v 0 = [Some a; Some c; Some e]
        /\ Eigen.row v 1 = [Some b; Some d; Some f]
        /\ Eigen.col v 0 = [Some a; Some b]
        /\ Eigen.col v 1 = [Some c; Some d]
        /\ Eigen.col v 2 = [Some e; Some f]).
Proof.
  intros Hwf Hn Hm Hle.
  assert (Hfit : fits st (n * m)) by (split; [nia|done]).
  pose proof (matrix_run st n m Hwf Hn Hm Hfit) as Hrun.
  eexists. split; [exact Hrun|].
  assert (Hcell : forall i j, 0 <= i < n -> 0 <= j < m ->
            Eigen.coeff (Eigen.Matrix n m (next_scalars st (n * m))) i j =
            Some (elem_r st (pos_ st + (j * n + i)))).
  { intros i j Hi Hj. unfold Eigen.coeff, Eigen.storage_index. simpl.
    apply lookup_next_scalars. nia. }
  split; [unfold consumed, final; rewrite Hrun; simpl; lia|].
  do 3 (split; [done|]). split; [|split].
  - intros i j Hi Hj. split; [done|by apply Hcell].
  - intros Hin i j Hi Hj. rewrite Hcell by done.
    symmetry. apply elem_r_in_bounds. destruct Hwf as ([? ?] & _). nia.
  - intros a b c d e f -> -> Hnext.
    unfold Eigen.row, Eigen.col, Eigen.coeff, Eigen.storage_index.
    cbn [Eigen.rows Eigen.cols Eigen.coeffs].
    change (2 * 3) with 6. rewrite Hnext. repeat split.
Qed.

Lemma wf_advance (st : reader) (r : Z) :
  wf st -> fits st r ->
  wf (Reader (data_r_ st) (data_i_ st) (pos_ st + r) (int_pos_ st)).
Proof.
  unfold wf, fits, SizeT.in_range, size_r, size_i. simpl. lia.
Qed.

Lemma next_scalars_S (st : reader) (k : nat) :
  next_scalars st (Z.of_nat (S k)) =
    elem_r st (pos_ st) ::
    next_scalars
      (Reader (data_r_ st) (data_i_ st) (pos_ st + 1) (int_pos_ st))
      (Z.of_nat k).
Proof.
  unfold next_scalars. rewrite seqZ_cons by lia. simpl.
  do 3 f_equal; lia.
Qed.

Lemma at_index_lookup (vec : list Z) (i : nat) (x : Z) :
  vec !! i = Some x -> at_index vec (Z.of_nat i) = x.
Proof. unfold at_index. rewrite Nat2Z.id. by intros ->. Qed.

(** The loop of [sparse_matrix]: every round takes the next cell through
    [scalar_ptr_increment(1)], whatever is left. *)
Lemma triplet_loop_unchecked (vec_r vec_c : list Z) (k i : nat)
    (tl : list (Eigen.triplet_type T)) (st : reader) :
  wf st -> fits st (Z.of_nat k) ->
  length vec_c = length vec_r -> (i + k = length vec_r)%nat ->
  for_loop k (Z.of_nat i)
    (fun i tl =>
       x <- (p <- scalar_ptr_increment 1 ;; deref p) ;;
       ret (tl ++ [Eigen.Triplet (at_index vec_r i) (at_index vec_c i) x]))
    tl st =
  (Ok (tl ++ triplets_of (drop i vec_r) (drop i vec_c)
                         (next_scalars st (Z.of_nat k))),
   Reader (data_r_ st) (data_i_ st) (pos_ st + Z.of_nat k) (int_pos_ st)).
Proof.
  revert i tl st. induction k as [|k IH]; intros i tl st Hwf Hfit Hlen Hik.
  - simpl. rewrite drop_ge by lia. simpl.
    by rewrite app_nil_r, Z.add_0_r, reader_eta.
  - destruct (lookup_lt_is_Some_2 vec_r i) as [r Hr]; [lia|].
    destruct (lookup_lt_is_Some_2 vec_c i) as [c Hc]; [lia|].
    assert (Hfit1 : fits st 1) by (destruct Hfit; split; lia).
    cbn [for_loop].
    erewrite bind_ok; cycle 1.
    { erewrite bind_ok; cycle 1.
      { erewrite bind_ok by (by apply scalar_ptr_increment_run).
        reflexivity. }
      reflexivity. }
    replace (Z.of_nat i + 1) with (Z.of_nat (S i)) by lia.
    rewrite IH; simpl;
      [|by apply wf_advance|destruct Hfit; split; simpl; lia|done|lia].
    rewrite (at_index_lookup _ _ _ Hr), (at_index_lookup _ _ _ Hc).
    rewrite (drop_S _ _ _ Hr), (drop_S _ _ _ Hc), next_scalars_S.
    rewrite <- app_assoc. simpl.
    f_equal; try reflexivity. f_equal; lia.
Qed.

Lemma sparse_matrix_run (st : reader) (vec_r vec_c : list Z) (n m : Z) :
  wf st -> fits st (Z.of_nat (length vec_r)) ->
  length vec_c = length vec_r -> 1 <= n -> 1 <= m ->
  sparse_matrix vec_r vec_c n m st =
    (Ok (Eigen.SparseMatrix n m
           (presized vec_r ++
            triplets_of vec_r vec_c
              (next_scalars st (Z.of_nat (length vec_r))))),
     Reader (data_r_ st) (data_i_ st)
            (pos_ st + Z.of_nat (length vec_r)) (int_pos_ st)).
Proof.
  intros Hwf Hfit Hlen Hn Hm. unfold sparse_matrix, sparse_read.
  destruct (Z.eqb_spec m 0); [lia|]. destruct (Z.eqb_spec n 0); [lia|].
  simpl. unfold triplet_loop.
  erewrite bind_ok; [reflexivity|].
  by apply (triplet_loop_unchecked vec_r vec_c (length vec_r) 0).
Qed.



(** C7 (as the code has it).  For index lists of equal length (and a cursor
    that [vec_r.size()] more scalars do not overflow):
    with [n >= 1] and [m >= 1], [sparse_matrix(vec_r, vec_c, n, m)] returns
    and moves the scalar cursor by exactly [vec_r.size()]; the triplet list
    its [n] by [m] result is built from ends with the triplets
    [(vec_r[i], vec_c[i], i-th scalar from the cursor on)], one per listed
    nonzero, in the order of the index lists (elements of the borrowed
    data when that many were left);
    with [n = 0] or [m = 0] it returns the [n] by [m] matrix without any
    triplet and leaves the reader as it was. *)
Theorem sparse_matrix_reads_listed_nonzeros (st : reader)
    (vec_r vec_c : list Z) (n m : Z) :
  wf st -> length vec_c = length vec_r ->
  pos_ st + Z.of_nat (length vec_r) <= SizeT.SIZE_MAX ->
  (1 <= n -> 1 <= m ->
   consumed (sparse_matrix vec_r vec_c n m) st = Z.of_nat (length vec_r)
   /\ (exists head,
         sparse_matrix vec_r vec_c n m st =
           (Ok (Eigen.SparseMatrix n m
                  (head ++
                   triplets_of vec_r vec_c
                     (next_scalars st (Z.of_nat (length vec_r))))),
            Reader (data_r_ st) (data_i_ st)
                   (pos_ st + Z.of_nat (length vec_r)) (int_pos_ st)))
   /\ (pos_ st + Z.of_nat (length vec_r) <= size_r st ->
       next_scalars st (Z.of_nat (length vec_r)) =
         take (length vec_r) (drop (Z.to_nat (pos_ st)) (data_r_ st))))
  /\ (n = 0 \/ m = 0 ->
      sparse_matrix vec_r vec_c n m st = (Ok (Eigen.SparseMatrix n m []), st)).
Proof.
  intros Hwf Hlen Hle. split.
  - intros Hn Hm.
    assert (Hfit : fits st (Z.of_nat (length vec_r))) by (split; [lia|done]).
    pose proof (sparse_matrix_run st vec_r vec_c n m Hwf Hfit Hlen Hn Hm)
      as Hrun.
    split; [unfold consumed, final; rewrite Hrun; simpl; lia|].
    split; [by exists (presized vec_r)|].
    intros Hin. rewrite next_scalars_in_bounds; [|by destruct Hwf as ([? ?] & _)
                                                 |lia|done].
    by rewrite Nat2Z.id.
  - intros Hz. unfold sparse_matrix, sparse_read.
    destruct (Z.eqb_spec m 0), (Z.eqb_spec n 0); try done. lia.
Qed.


(** *** How many scalars the constrained families read *)

Lemma corr_size_exact (K : Z) :
  0 <= K -> K * K <= SizeT.SIZE_MAX -> corr_size K = K * (K - 1) / 2.
Proof.
  intros HK Hle. unfold corr_size, SizeT.div.
  destruct (decide (K = 0)) as [->|Hne]; [reflexivity|].
  rewrite sub_small by (unfold SizeT.in_range; nia).
  rewrite mul_small by (unfold SizeT.in_range; nia).
  reflexivity.
Qed.

Lemma cov_size_exact (k : Z) :
  0 <= k -> k * k <= SizeT.SIZE_MAX -> cov_size k = k + k * (k - 1) / 2.
Proof.
  intros Hk Hle. unfold cov_size.
  change (SizeT.div (SizeT.mul k (SizeT.sub k 1)) 2) with (corr_size k).
  rewrite corr_size_exact by done.
  apply add_small. unfold SizeT.in_range.
  assert (0 <= k * (k - 1) / 2 <= k * (k - 1))
    by (split; [apply Z.div_pos|apply Z.div_le_upper_bound]; nia).
  nia.
Qed.

Lemma cholesky_factor_cov_size_exact (n m : Z) :
  0 <= m <= n -> (n + 1) * m <= SizeT.SIZE_MAX ->
  cholesky_factor_cov_size n m = m * (m + 1) / 2 + (n - m) * m.
Proof.
  intros Hm Hle. unfold cholesky_factor_cov_size, SizeT.div.
  pose proof size_max_value as Hmax.
  destruct (decide (m = 0)) as [->|Hm0].
  { unfold SizeT.mul at 2. by rewrite Z.mul_0_r, Z.mul_0_r. }
  rewrite (add_small m 1) by (unfold SizeT.in_range; nia).
  rewrite (mul_small m (m + 1)) by (unfold SizeT.in_range; nia).
  rewrite sub_small by (unfold SizeT.in_range; nia).
  rewrite (mul_small (n - m) m) by (unfold SizeT.in_range; nia).
  assert (0 <= m * (m + 1) / 2 <= m * (m + 1))
    by (split; [apply Z.div_pos|apply Z.div_le_upper_bound]; nia).
  apply add_small. unfold SizeT.in_range. nia.
Qed.

(** [matrix(n, m)] for any dimensions, zero included. *)
Lemma matrix_moves (st : reader) (n m : Z) :
  wf st -> 0 <= n -> 0 <= m -> fits st (n * m) ->
  exists v,
    matrix n m st =
      (Ok v, Reader (data_r_ st) (data_i_ st) (pos_ st + n * m) (int_pos_ st)).
Proof.
  intros Hwf Hn Hm Hfit.
  destruct (decide (n = 0)) as [->|Hn0].
  { eexists. rewrite Z.mul_0_l, Z.add_0_r, reader_eta.
    apply matrix_no_rows. }
  destruct (decide (m = 0)) as [->|Hm0].
  { eexists. rewrite Z.mul_0_r, Z.add_0_r, reader_eta.
    apply matrix_no_cols. }
  eexists. apply matrix_run; (done || lia).
Qed.

(** A family that reads a vector of [r] scalars and hands it to
    [stan::math] leaves the cursor [r] further, whatever the data and
    whatever [stan::math] does with it. *)
Lemma final_vector_lift {A} (r : Z) (k : Eigen.vector_t T -> outcome A)
    (st : reader) :
  wf st -> fits st r ->
  final (x <- vector r ;; lift (k x)) st =
    Reader (data_r_ st) (data_i_ st) (pos_ st + r) (int_pos_ st).
Proof.
  intros Hwf Hfit.
  by rewrite (final_bind_ok _ _ _ _ _ (vector_run st r Hwf Hfit)).
Qed.

Lemma final_vector_check (r : Z) (k : Eigen.vector_t T -> outcome unit)
    (st : reader) :
  wf st -> fits st r ->
  final (x <- vector r ;; lift (k x) ;; ret x) st =
    Reader (data_r_ st) (data_i_ st) (pos_ st + r) (int_pos_ st).
Proof.
  intros Hwf Hfit.
  rewrite (final_bind_ok _ _ _ _ _ (vector_run st r Hwf Hfit)).
  apply final_lift_ret.
Qed.

Lemma final_matrix_check (n m : Z) (k : Eigen.matrix_t T -> outcome unit)
    (st : reader) :
  wf st -> 0 <= n -> 0 <= m -> fits st (n * m) ->
  final (x <- matrix n m ;; lift (k x) ;; ret x) st =
    Reader (data_r_ st) (data_i_ st) (pos_ st + n * m) (int_pos_ st).
Proof.
  intros Hwf Hn Hm Hfit.
  destruct (matrix_moves st n m Hwf Hn Hm Hfit) as [v Hv].
  rewrite (final_bind_ok _ _ _ _ _ Hv).
  apply final_lift_ret.
Qed.

(** C2.  How far a constrained family moves the scalar cursor is a function
    of the requested dimensions alone: the reader left behind is the one
    the call started from with the scalar cursor moved by the table's
    count, for any data, any [stan::math], and whether the transform or the
    check returns or throws.  The dimensions are [size_t] values for which
    the constrained object ([k] scalars, [n * m + m] for the Cholesky
    factor of a covariance, [k * k] for the square matrices) does not carry
    the cursor over [SIZE_MAX]. *)
Theorem constrained_reads_consume_by_dimension (st : reader) (n m k : Z)
    (lp : T) :
  wf st ->
  let moved r :=
    Reader (data_r_ st) (data_i_ st) (pos_ st + r) (int_pos_ st) in
  (0 <= k -> pos_ st + k <= SizeT.SIZE_MAX ->
   final (unit_vector_constrain k) st = moved k
   /\ final (unit_vector_constrain_lp k lp) st = moved k
   /\ final (ordered_constrain k) st = moved k
   /\ final (ordered_constrain_lp k lp) st = moved k
   /\ final (positive_ordered_constrain k) st = moved k
   /\ final (positive_ordered_constrain_lp k lp) st = moved k
   /\ final (unit_vector k) st = moved k
   /\ final (simplex k) st = moved k
   /\ final (ordered k) st = moved k
   /\ final (positive_ordered k) st = moved k)
  /\ (1 <= k -> pos_ st + k <= SizeT.SIZE_MAX ->
      final (simplex_constrain k) st = moved (k - 1)
      /\ final (simplex_constrain_lp k lp) st = moved (k - 1))
  /\ (0 <= m <= n -> pos_ st + (n + 1) * m <= SizeT.SIZE_MAX ->
      final (cholesky_factor_cov_constrain n m) st =
        moved (m * (m + 1) / 2 + (n - m) * m)
      /\ final (cholesky_factor_cov_constrain_lp n m lp) st =
           moved (m * (m + 1) / 2 + (n - m) * m)
      /\ final (cholesky_factor_cov n m) st = moved (n * m))
  /\ (0 <= k -> pos_ st + k * k <= SizeT.SIZE_MAX ->
      final (cholesky_factor_corr_constrain k) st = moved (k * (k - 1) / 2)
      /\ final (cholesky_factor_corr_constrain_lp k lp) st =
           moved (k * (k - 1) / 2)
      /\ final (cov_matrix_constrain k) st = moved (k + k * (k - 1) / 2)
      /\ final (cov_matrix_constrain_lp k lp) st =
           moved (k + k * (k - 1) / 2)
      /\ final (corr_matrix_constrain k) st = moved (k * (k - 1) / 2)
      /\ final (corr_matrix_constrain_lp k lp) st = moved (k * (k - 1) / 2)
      /\ final (cholesky_factor_corr k) st = moved (k * k)
      /\ final (cov_matrix k) st = moved (k * k)
      /\ final (corr_matrix k) st = moved (k * k)).
Proof.
  intros Hwf moved.
  assert (Hp : 0 <= pos_ st) by (by destruct Hwf as ([? ?] & _)).
  split; [|split; [|split]].
  - intros Hk Hle. assert (Hfit : fits st k) by done.
    unfold unit_vector_constrain, unit_vector_constrain_lp, unit_vector,
      simplex, ordered, positive_ordered, ordered_constrain,
      ordered_constrain_lp, positive_ordered_constrain,
      positive_ordered_constrain_lp.
    destruct (Z.eqb_spec k 0) as [Hk0|Hk0].
    + subst k. unfold moved. rewrite Z.add_0_r, reader_eta.
      repeat split; try reflexivity;
        (erewrite final_bind_ok by reflexivity; apply final_lift_ret).
    + repeat split;
        first [ by apply final_vector_lift | by apply final_vector_check ].
  - intros Hk Hle. unfold simplex_constrain, simplex_constrain_lp.
    destruct (Z.eqb_spec k 0) as [Hk0|Hk0]; [lia|].
    assert (Hsub : SizeT.sub k 1 = k - 1)
      by (apply sub_small; unfold SizeT.in_range; lia).
    rewrite Hsub.
    split; apply final_vector_lift; (done || (split; lia)).
  - intros Hm Hle.
    assert (Hsz : cholesky_factor_cov_size n m =
                  m * (m + 1) / 2 + (n - m) * m)
      by (apply cholesky_factor_cov_size_exact; [done|nia]).
    assert (0 <= m * (m + 1) / 2 <= m * (m + 1))
      by (split; [apply Z.div_pos|apply Z.div_le_upper_bound]; nia).
    unfold cholesky_factor_cov_constrain, cholesky_factor_cov_constrain_lp,
      cholesky_factor_cov.
    rewrite Hsz.
    split; [|split];
      first [ apply final_vector_lift | apply final_matrix_check ];
      try done; try lia; split; nia.
  - intros Hk Hle.
    assert (Hc : corr_size k = k * (k - 1) / 2)
      by (apply corr_size_exact; [done|nia]).
    assert (Hv : cov_size k = k + k * (k - 1) / 2)
      by (apply cov_size_exact; [done|nia]).
    assert (0 <= k * (k - 1) / 2 <= k * (k - 1))
      by (split; [apply Z.div_pos|apply Z.div_le_upper_bound]; nia).
    unfold cholesky_factor_corr_constrain, cholesky_factor_corr_constrain_lp,
      cov_matrix_constrain, cov_matrix_constrain_lp, corr_matrix_constrain,
      corr_matrix_constrain_lp, cholesky_factor_corr, cov_matrix, corr_matrix.
    rewrite Hc, Hv.
    repeat split;
      first [ apply final_vector_lift | apply final_matrix_check ];
      try done; try lia; split; nia.
Qed.


(** *** The cursors only move forward *)












(** What follows a read without touching the reader does not change where
    the read left it. *)
Lemma final_bind_frame {A B} (c : M A) (k : A -> M B) (st : reader) :
  (forall a st', final (k a) st' = st') ->
  final (bind c k) st = final c st.
Proof.
  intros Hk. unfold final, bind in *.
  destruct (c st) as [[a|e] st']; simpl; [apply Hk|done].
Qed.

Lemma final_ret {A} (a : A) (st : reader) : final (ret a) st = st.
Proof. done. Qed.

Lemma final_throw {A} (e : exn) (st : reader) : final (@throw T A e) st = st.
Proof. done. Qed.


(** The members that are built from the primitive reads. *)
Create HintDb reader_members discriminated.
#[local] Hint Unfold
  integer_constrain integer_constrain_lp scalar_constrain scalar_constrain_lp
  vector_constrain vector_constrain_lp row_vector_constrain
  row_vector_constrain_lp matrix_constrain matrix_constrain_lp
  sparse_matrix_constrain sparse_matrix_constrain_lp sparse_read
  sparse_read_lp triplet_loop triplet_loop_lp integer_lb integer_lb_constrain
  integer_lb_constrain_lp integer_ub integer_ub_constrain
  integer_ub_constrain_lp integer_lub integer_lub_constrain
  integer_lub_constrain_lp scalar_pos scalar_pos_constrain
  scalar_pos_constrain_lp scalar_lb scalar_lb_constrain
  scalar_lb_constrain_lp scalar_ub scalar_ub_constrain scalar_ub_constrain_lp
  scalar_lub scalar_lub_constrain scalar_lub_constrain_lp
  scalar_offset_multiplier scalar_offset_multiplier_constrain
  scalar_offset_multiplier_constrain_lp prob prob_constrain prob_constrain_lp
  corr corr_constrain corr_constrain_lp unit_vector unit_vector_constrain
  unit_vector_constrain_lp simplex simplex_constrain simplex_constrain_lp
  ordered ordered_constrain ordered_constrain_lp positive_ordered
  positive_ordered_constrain positive_ordered_constrain_lp
  cholesky_factor_cov cholesky_factor_cov_constrain
  cholesky_factor_cov_constrain_lp cholesky_factor_corr
  cholesky_factor_corr_constrain cholesky_factor_corr_constrain_lp cov_matrix
  cov_matrix_constrain cov_matrix_constrain_lp corr_matrix
  corr_matrix_constrain corr_matrix_constrain_lp fill_vector fill_vector_lp
  fill_matrix fill_matrix_lp vector_lb vector_lb_constrain
  vector_lb_constrain_lp row_vector_lb row_vector_lb_constrain
  row_vector_lb_constrain_lp matrix_lb matrix_lb_constrain
  matrix_lb_constrain_lp sparse_matrix_lb sparse_matrix_lb_constrain
  sparse_matrix_lb_constrain_lp vector_ub vector_ub_constrain
  vector_ub_constrain_lp row_vector_ub row_vector_ub_constrain
  row_vector_ub_constrain_lp matrix_ub matrix_ub_constrain
  matrix_ub_constrain_lp sparse_matrix_ub sparse_matrix_ub_constrain
  sparse_matrix_ub_constrain_lp vector_lub vector_lub_constrain
  vector_lub_constrain_lp row_vector_lub row_vector_lub_constrain
  row_vector_lub_constrain_lp matrix_lub matrix_lub_constrain
  matrix_lub_constrain_lp sparse_matrix_lub sparse_matrix_lub_constrain
  sparse_matrix_lub_constrain_lp vector_offset_multiplier
  vector_offset_multiplier_constrain vector_offset_multiplier_constrain_lp
  row_vector_offset_multiplier row_vector_offset_multiplier_constrain
  row_vector_offset_multiplier_constrain_lp matrix_offset_multiplier
  matrix_offset_multiplier_constrain matrix_offset_multiplier_constrain_lp
  sparse_matrix_offset_multiplier sparse_matrix_offset_multiplier_constrain
  : reader_members.








(** A loop whose every round takes one cell through the unchecked
    primitive ends [count] cells further. *)
Lemma for_loop_unchecked {A} (body : Z -> A -> M A) :
  (forall i acc st, wf st -> fits st 1 ->
     exists acc',
       body i acc st =
         (Ok acc',
          Reader (data_r_ st) (data_i_ st) (pos_ st + 1) (int_pos_ st))) ->
  forall count i acc st, wf st -> fits st (Z.of_nat count) ->
    exists acc',
      for_loop count i body acc st =
        (Ok acc',
         Reader (data_r_ st) (data_i_ st) (pos_ st + Z.of_nat count)
                (int_pos_ st)).
Proof.
  intros Hbody. induction count as [|count IH]; intros i acc st Hwf Hfit.
  - exists acc. simpl. by rewrite Z.add_0_r, reader_eta.
  - assert (Hfit1 : fits st 1) by (destruct Hfit; split; lia).
    destruct (Hbody i acc st Hwf Hfit1) as [acc1 H1].
    destruct (IH (i + 1) acc1 _ (wf_advance st 1 Hwf Hfit1)) as [acc2 H2].
    { destruct Hfit. split; simpl; lia. }
    exists acc2. cbn [for_loop]. rewrite (bind_ok _ _ _ _ _ H1), H2. simpl.
    f_equal. f_equal. lia.
Qed.


Ltac frame :=
  rewrite ?final_bind_frame
    by (intros; first [ apply final_lift_ret | apply final_lift
                      | apply final_ret ]).



(** *** Batch operations iterate the scalar-level read *)

Lemma element_read_transform (f : T -> outcome T) (h : T -> T) :
  (forall x, f x = Ok (h x)) ->
  element_read (x <- scalar ;; lift (f x)) h.
Proof.
  intros Hf st Hwf Hlt.
  rewrite (bind_ok _ _ _ _ _ (scalar_some st Hwf Hlt)).
  unfold lift. by rewrite Hf.
Qed.

Lemma element_read_check (chk : T -> outcome unit) :
  (forall x, chk x = Ok tt) ->
  element_read (x <- scalar ;; lift (chk x) ;; ret x) id.
Proof.
  intros Hchk st Hwf Hlt.
  rewrite (bind_ok _ _ _ _ _ (scalar_some st Hwf Hlt)).
  unfold bind, lift, ret. by rewrite Hchk.
Qed.

Lemma element_read_plain : element_read (x <- scalar ;; ret x) id.
Proof.
  intros st Hwf Hlt. by rewrite (bind_ok _ _ _ _ _ (scalar_some st Hwf Hlt)).
Qed.

Lemma wf_in_bounds (st : reader) (r : Z) :
  wf st -> 0 <= r -> pos_ st + r <= size_r st -> fits st r.
Proof. intros (_ & _ & [? ?] & _) ? ?. split; lia. Qed.

Lemma next_scalars_app (st : reader) (a b : Z) :
  0 <= a -> 0 <= b ->
  next_scalars st (a + b) =
    next_scalars st a ++
    next_scalars
      (Reader (data_r_ st) (data_i_ st) (pos_ st + a) (int_pos_ st)) b.
Proof.
  intros Ha Hb. unfold next_scalars.
  by rewrite seqZ_app, fmap_app by done.
Qed.

(** The loop over the cells of a vector: the cells are written front to
    back, each with the next scalar through [h]. *)
Lemma fill_cells (elem : M T) (h : T -> T) (count : nat) :
  element_read elem h ->
  forall (i : Z) (done rest : list T) (st : reader),
    wf st -> pos_ st + Z.of_nat count <= size_r st ->
    (count <= length rest)%nat -> Z.to_nat i = length done -> 0 <= i ->
    for_loop count i
      (fun i v => x <- elem ;; ret (<[Z.to_nat i := x]> v))
      (done ++ rest) st =
    (Ok (done ++ (h <$> next_scalars st (Z.of_nat count)) ++ drop count rest),
     Reader (data_r_ st) (data_i_ st) (pos_ st + Z.of_nat count)
            (int_pos_ st)).
Proof.
  intros Helem. induction count as [|count IH];
    intros i done rest st Hwf Hin Hlen Hi Hi0.
  - simpl. by rewrite Z.add_0_r, reader_eta.
  - destruct rest as [|r rest]; [simpl in Hlen; lia|].
    cbn [for_loop].
    erewrite bind_ok; cycle 1.
    { rewrite (bind_ok _ _ _ _ _ (Helem st Hwf ltac:(lia))). reflexivity. }
    rewrite Hi.
    rewrite insert_app_r_alt, Nat.sub_diag by lia. simpl.
    rewrite (cons_middle (h _) done rest), app_assoc.
    rewrite IH; simpl;
      [|apply wf_advance; [done|apply wf_in_bounds; [done|lia|lia]]
       |unfold size_r in *; simpl; lia|simpl in Hlen; lia
       |rewrite length_app; simpl; lia|lia].
    rewrite next_scalars_S, <- app_assoc. simpl.
    f_equal. f_equal. lia.
Qed.

Lemma fill_vector_in_order (elem : M T) (h : T -> T) (m : Z) (st : reader) :
  element_read elem h -> wf st -> 0 <= m -> pos_ st + m <= size_r st ->
  fill_vector elem m st =
    (Ok (h <$> next_scalars st m),
     Reader (data_r_ st) (data_i_ st) (pos_ st + m) (int_pos_ st)).
Proof.
  intros Helem Hwf Hm Hin. unfold fill_vector, Vector_new, Eigen.vector_t.
  pose proof (fill_cells elem h (Z.to_nat m) Helem 0 []
                (replicate (Z.to_nat m) indet) st Hwf) as Hloop.
  cbn [app] in Hloop. rewrite Hloop;
    rewrite ?length_replicate; try done; try lia.
  rewrite Z2Nat.id by done.
  by rewrite drop_replicate, Nat.sub_diag, app_nil_r.
Qed.

(** The inner loop of a matrix batch accessor: column [j] from row [i] on,
    when the storage before cell [(i, j)] is [done]. *)
Lemma fill_column (elem : M T) (h : T -> T) (n m j : Z) (count : nat) :
  element_read elem h ->
  forall (i : Z) (done rest : list T) (st : reader),
    wf st -> pos_ st + Z.of_nat count <= size_r st ->
    (count <= length rest)%nat ->
    Z.to_nat (j * n + i) = length done -> 0 <= j * n + i ->
    for_loop count i
      (fun i v => x <- elem ;; ret (Eigen.set_coeff v i j x))
      (Eigen.Matrix n m (done ++ rest)) st =
    (Ok (Eigen.Matrix n m
           (done ++ (h <$> next_scalars st (Z.of_nat count)) ++
            drop count rest)),
     Reader (data_r_ st) (data_i_ st) (pos_ st + Z.of_nat count)
            (int_pos_ st)).
Proof.
  intros Helem. induction count as [|count IH];
    intros i done rest st Hwf Hin Hlen Hi Hi0.
  - simpl. by rewrite Z.add_0_r, reader_eta.
  - destruct rest as [|r rest]; [simpl in Hlen; lia|].
    cbn [for_loop].
    erewrite bind_ok; cycle 1.
    { rewrite (bind_ok _ _ _ _ _ (Helem st Hwf ltac:(lia))). reflexivity. }
    unfold Eigen.set_coeff, Eigen.storage_index.
    cbn [Eigen.rows Eigen.cols Eigen.coeffs]. rewrite Hi.
    rewrite insert_app_r_alt, Nat.sub_diag by lia. simpl.
    rewrite (cons_middle (h _) done rest), app_assoc.
    rewrite IH; simpl;
      [|apply wf_advance; [done|apply wf_in_bounds; [done|lia|lia]]
       |unfold size_r in *; simpl; lia|simpl in Hlen; lia
       |rewrite length_app; simpl; lia|lia].
    rewrite next_scalars_S, <- app_assoc. simpl.
    f_equal. f_equal. lia.
Qed.

(** The outer loop: [count] whole columns from column [j] on. *)
Lemma fill_columns (elem : M T) (h : T -> T) (n m : Z) (count : nat) :
  element_read elem h -> 0 <= n ->
  forall (j : Z) (done rest : list T) (st : reader),
    wf st -> pos_ st + Z.of_nat count * n <= size_r st ->
    Z.of_nat count * n <= Z.of_nat (length rest) ->
    Z.to_nat (j * n) = length done -> 0 <= j ->
    for_loop count j
      (fun j v =>
         for_loop (Z.to_nat n) 0
           (fun i v => x <- elem ;; ret (Eigen.set_coeff v i j x)) v)
      (Eigen.Matrix n m (done ++ rest)) st =
    (Ok (Eigen.Matrix n m
           (done ++ (h <$> next_scalars st (Z.of_nat count * n)) ++
            drop (Z.to_nat (Z.of_nat count * n)) rest)),
     Reader (data_r_ st) (data_i_ st) (pos_ st + Z.of_nat count * n)
            (int_pos_ st)).
Proof.
  intros Helem Hn. induction count as [|count IH];
    intros j done rest st Hwf Hin Hlen Hj Hj0.
  - simpl. by rewrite Z.add_0_r, reader_eta.
  - cbn [for_loop].
    assert (Hn' : Z.of_nat (Z.to_nat n) = n) by lia.
    erewrite bind_ok; cycle 1.
    { apply (fill_column elem h n m j (Z.to_nat n) Helem 0 done rest st);
        try done; nia. }
    rewrite Hn', app_assoc.
    rewrite IH; simpl;
      [|apply wf_advance; [done|apply wf_in_bounds; [done|nia|nia]]
       |unfold size_r in *; simpl; nia
       |rewrite length_drop; nia
       |rewrite length_app, length_fmap, length_next_scalars; nia|lia].
    replace (Z.of_nat (S count) * n) with (n + Z.of_nat count * n) by lia.
    rewrite next_scalars_app by nia.
    rewrite fmap_app, <- !app_assoc, drop_drop.
    rewrite <- Z2Nat.inj_add by nia. by rewrite Z.add_assoc.
Qed.

(** A dense matrix batch accessor walks the columns in the outer loop and
    the rows in the inner one: with [n * m] scalars left, the storage of
    the result is the next [n * m] scalars through [h], in order, so
    coefficient [(i, j)] comes from the [(j * n + i)]-th of them. *)
Lemma fill_matrix_column_major (elem : M T) (h : T -> T) (n m : Z)
    (st : reader) :
  element_read elem h -> wf st -> 0 <= n -> 0 <= m ->
  pos_ st + n * m <= size_r st ->
  fill_matrix elem n m st =
    (Ok (Eigen.Matrix n m (h <$> next_scalars st (n * m))),
     Reader (data_r_ st) (data_i_ st) (pos_ st + n * m) (int_pos_ st))
  /\ forall i j, 0 <= i < n -> 0 <= j < m ->
       Eigen.coeff (Eigen.Matrix n m (h <$> next_scalars st (n * m))) i j =
         Some (h (elem_r st (pos_ st + (j * n + i)))).
Proof.
  intros Helem Hwf Hn Hm Hin. split.
  - unfold fill_matrix, Matrix_new.
    pose proof (fill_columns elem h n m (Z.to_nat m) Helem Hn 0 []
                  (replicate (Z.to_nat (n * m)) indet) st Hwf) as Hloop.
    cbn [app] in Hloop. rewrite Hloop;
      rewrite ?length_replicate; try done; try nia.
    rewrite Z2Nat.id by done.
    rewrite drop_replicate. replace (m * n) with (n * m) by lia.
    by rewrite Nat.sub_diag, app_nil_r.
  - intros i j Hi Hj. unfold Eigen.coeff, Eigen.storage_index. simpl.
    rewrite list_lookup_fmap, lookup_next_scalars by nia. done.
Qed.

(** The loop of the sparse accessors that read through [scalar()]. *)
Lemma triplet_loop_in_order (elem : M T) (h : T -> T)
    (vec_r vec_c : list Z) (count i : nat)
    (tl : list (Eigen.triplet_type T)) (st : reader) :
  element_read elem h ->
  wf st -> pos_ st + Z.of_nat count <= size_r st ->
  length vec_c = length vec_r -> (i + count = length vec_r)%nat ->
  for_loop count (Z.of_nat i)
    (fun i tl =>
       x <- elem ;;
       ret (tl ++ [Eigen.Triplet (at_index vec_r i) (at_index vec_c i) x]))
    tl st =
  (Ok (tl ++ triplets_of (drop i vec_r) (drop i vec_c)
                         (h <$> next_scalars st (Z.of_nat count))),
   Reader (data_r_ st) (data_i_ st) (pos_ st + Z.of_nat count) (int_pos_ st)).
Proof.
  intros Helem. revert i tl st.
  induction count as [|count IH]; intros i tl st Hwf Hin Hlen Hik.
  - simpl. rewrite drop_ge by lia. simpl.
    by rewrite app_nil_r, Z.add_0_r, reader_eta.
  - destruct (lookup_lt_is_Some_2 vec_r i) as [r Hr]; [lia|].
    destruct (lookup_lt_is_Some_2 vec_c i) as [c Hc]; [lia|].
    cbn [for_loop].
    erewrite bind_ok; cycle 1.
    { rewrite (bind_ok _ _ _ _ _ (Helem st Hwf ltac:(lia))). reflexivity. }
    replace (Z.of_nat i + 1) with (Z.of_nat (S i)) by lia.
    rewrite IH; simpl;
      [|apply wf_advance; [done|apply wf_in_bounds; [done|lia|lia]]
       |unfold size_r in *; simpl; lia|done|lia].
    rewrite (at_index_lookup _ _ _ Hr), (at_index_lookup _ _ _ Hc).
    rewrite (drop_S _ _ _ Hr), (drop_S _ _ _ Hc), next_scalars_S.
    rewrite <- app_assoc. simpl.
    f_equal. f_equal. lia.
Qed.

Lemma sparse_read_in_order (init : list (Eigen.triplet_type T))
    (elem : M T) (h : T -> T) (vec_r vec_c : list Z) (n m : Z)
    (st : reader) :
  element_read elem h -> wf st -> length vec_c = length vec_r ->
  1 <= n -> 1 <= m -> pos_ st + Z.of_nat (length vec_r) <= size_r st ->
  sparse_read init elem vec_r vec_c n m st =
    (Ok (Eigen.SparseMatrix n m
           (init ++
            triplets_of vec_r vec_c
              (h <$> next_scalars st (Z.of_nat (length vec_r))))),
     Reader (data_r_ st) (data_i_ st)
            (pos_ st + Z.of_nat (length vec_r)) (int_pos_ st)).
Proof.
  intros Helem Hwf Hlen Hn Hm Hin. unfold sparse_read.
  destruct (Z.eqb_spec m 0); [lia|]. destruct (Z.eqb_spec n 0); [lia|].
  simpl. unfold triplet_loop.
  erewrite bind_ok; [reflexivity|].
  by apply (triplet_loop_in_order elem h vec_r vec_c (length vec_r) 0).
Qed.

(** The dense offset-multiplier batch accessors store the transformed
    scalars, column by column; the sparse one stores the scalars as they
    are. *)
Lemma offset_multiplier_batch (offset : TL) (multiplier : TS) (h : T -> T)
    (vec_r vec_c : list Z) (n m : Z) (st : reader) :
  (forall x, math.offset_multiplier_constrain x offset multiplier = Ok (h x)) ->
  wf st -> 1 <= n -> 1 <= m ->
  (pos_ st + n * m <= size_r st ->
   matrix_offset_multiplier_constrain offset multiplier n m st =
     (Ok (Eigen.Matrix n m (h <$> next_scalars st (n * m))),
      Reader (data_r_ st) (data_i_ st) (pos_ st + n * m) (int_pos_ st)))
  /\ (length vec_c = length vec_r ->
      pos_ st + Z.of_nat (length vec_r) <= size_r st ->
      sparse_matrix_offset_multiplier_constrain offset multiplier
        vec_r vec_c n m st =
        (Ok (Eigen.SparseMatrix n m
               (presized vec_r ++
                triplets_of vec_r vec_c
                  (next_scalars st (Z.of_nat (length vec_r))))),
         Reader (data_r_ st) (data_i_ st)
                (pos_ st + Z.of_nat (length vec_r)) (int_pos_ st))).
Proof.
  intros Hh Hwf Hn Hm. split.
  - intros Hin.
    apply (fill_matrix_column_major _ h n m st); try done; try lia.
    by apply element_read_transform.
  - intros Hlen Hin.
    unfold sparse_matrix_offset_multiplier_constrain,
      scalar_offset_multiplier.
    rewrite (sparse_read_in_order _ _ id) by (done || apply element_read_plain).
    by rewrite list_fmap_id.
Qed.


(** ** Beyond the claims *)

(** *** What [available()] reports *)

Lemma available_in_bounds (st : reader) :
  wf st -> pos_ st <= size_r st -> available st = size_r st - pos_ st.
Proof.
  intros ([? ?] & _ & [? ?] & _) Hle. unfold available.
  apply sub_small. unfold SizeT.in_range. lia.
Qed.

Lemma available_i_in_bounds (st : reader) :
  wf st -> int_pos_ st <= size_i st ->
  available_i st = size_i st - int_pos_ st.
Proof.
  intros (_ & [? ?] & _ & [? ?]) Hle. unfold available_i.
  apply sub_small. unfold SizeT.in_range. lia.
Qed.

(** X1.  Within bounds [available()] and [available_i()] are the numbers
    of unread elements; [scalar()] and [integer()] throw the exhaustion
    error exactly when the count is zero, and a read that returns lowers
    the count by one. *)
Theorem available_counts_what_is_left (st : reader) :
  wf st -> in_bounds st ->
  available st = size_r st - pos_ st
  /\ available_i st = size_i st - int_pos_ st
  /\ (available st = 0 <-> scalar st = (Throw BufferExhausted_r, st))
  /\ (available_i st = 0 <-> integer st = (Throw BufferExhausted_i, st))
  /\ (0 < available st ->
      available (final (scalar : M T) st) = available st - 1)
  /\ (0 < available_i st ->
      available_i (final (integer : M Z) st) = available_i st - 1).
Proof.
  intros Hwf [Hr Hi].
  pose proof (available_in_bounds st Hwf Hr) as Har.
  pose proof (available_i_in_bounds st Hwf Hi) as Hai.
  split; [done|]. split; [done|]. rewrite Har, Hai.
  split; [|split; [|split]].
  - split; [intros; apply scalar_none; lia|].
    intros Hthrow. destruct (decide (pos_ st < size_r st)) as [Hlt|]; [|lia].
    rewrite scalar_some in Hthrow by done. discriminate.
  - split; [intros; apply integer_none; lia|].
    intros Hthrow.
    destruct (decide (int_pos_ st < size_i st)) as [Hlt|]; [|lia].
    rewrite integer_some in Hthrow by done. discriminate.
  - intros Hpos. unfold final. rewrite scalar_some by (done || lia).
    cbn [snd]. rewrite available_in_bounds.
    + unfold size_r. simpl. lia.
    + by apply (wf_advance st 1); [|apply wf_in_bounds; [done|lia|lia]].
    + unfold size_r in *. simpl. lia.
  - intros Hpos. unfold final. rewrite integer_some by (done || lia).
    cbn [snd]. rewrite available_i_in_bounds.
    + unfold size_i. simpl. lia.
    + revert Hwf. unfold wf, SizeT.in_range, size_r, size_i in *. simpl. lia.
    + unfold size_i in *. simpl. lia.
Qed.

(** X2.  A bulk read that asks for more than is left puts the cursor
    behind the end; from then on [available()] is the wrapped difference
    [2^64 - (pos_ - size)], a positive number, while [scalar()] throws the
    exhaustion error. *)
Theorem available_wraps_after_over_read (st : reader) (m : Z) :
  wf st -> in_bounds st -> pos_ st + m <= SizeT.SIZE_MAX ->
  available st < m ->
  let st' := final (vector m) st in
  pos_ st' = pos_ st + m
  /\ available st' = SizeT.modulus - (m - available st)
  /\ 0 < available st'
  /\ scalar st' = (Throw BufferExhausted_r, st').
Proof.
  intros Hwf [Hr Hi] Hle Hav st'.
  pose proof (available_in_bounds st Hwf Hr) as Har.
  assert (Hfit : fits st m) by (destruct Hwf as ([? ?] & _); split; lia).
  assert (Hst' : st' = Reader (data_r_ st) (data_i_ st) (pos_ st + m)
                              (int_pos_ st)).
  { unfold st', final. by rewrite vector_run. }
  assert (Hsz : size_r st' = size_r st) by (by rewrite Hst').
  assert (Hpos : pos_ st' = pos_ st + m) by (by rewrite Hst').
  split; [done|].
  assert (Hav' : available st' = SizeT.modulus - (m - available st)).
  { unfold available at 1. rewrite Hsz, Hpos, Har.
    unfold SizeT.sub, SizeT.wrap.
    destruct Hwf as ([? ?] & _ & [? ?] & _).
    pose proof size_max_value. unfold SizeT.SIZE_MAX in *.
    replace (size_r st - (pos_ st + m))
      with ((SizeT.modulus - (m - (size_r st - pos_ st)))
            + (-1) * SizeT.modulus) by lia.
    rewrite Z.mod_add by (unfold SizeT.modulus; lia).
    apply Z.mod_small. lia. }
  split; [done|]. split.
  - rewrite Hav', Har. destruct Hwf as ([? ?] & _ & [? ?] & _).
    unfold SizeT.SIZE_MAX in *. lia.
  - apply scalar_none. lia.
Qed.

(** *** The two cursors are independent *)

Lemma leaves_ret {A X} (f : reader -> X) (a : A) : Leaves f (ret a : M A).
Proof. done. Qed.

Lemma leaves_throw {A X} (f : reader -> X) (e : exn) :
  Leaves f (@throw T A e).
Proof. done. Qed.

Lemma leaves_lift {A X} (f : reader -> X) (o : outcome A) :
  Leaves f (lift o : M A).
Proof. done. Qed.

Lemma leaves_bind {A B X} (f : reader -> X) (c : M A) (k : A -> M B) :
  Leaves f c -> (forall a, Leaves f (k a)) -> Leaves f (bind c k).
Proof.
  intros Hc Hk st. specialize (Hc st). unfold final, bind in *.
  destruct (c st) as [[a|e] st']; simpl in *; [|done].
  by rewrite <- Hc, <- (Hk a st').
Qed.

Lemma leaves_for_loop {A X} (f : reader -> X) (body : Z -> A -> M A)
    (count : nat) :
  (forall i acc, Leaves f (body i acc)) ->
  forall i acc, Leaves f (for_loop count i body acc).
Proof.
  intros Hbody. induction count as [|count IH]; intros i acc; simpl.
  - apply leaves_ret.
  - apply leaves_bind; [apply Hbody|]. intros acc'. apply IH.
Qed.

Lemma leaves_if {A X} (f : reader -> X) (b : bool) (c1 c2 : M A) :
  Leaves f c1 -> Leaves f c2 -> Leaves f (if b then c1 else c2).
Proof. by destruct b. Qed.

(** The primitives that move the scalar cursor leave whatever does not
    depend on it; likewise for the integer cursor. *)
Lemma leaves_scalar {X} (f : reader -> X) :
  (forall st p, f (set_pos st p) = f st) -> Leaves f (scalar : M T).
Proof.
  intros Hf st. unfold final, scalar.
  destruct (size_r st <=? pos_ st); [done|apply Hf].
Qed.

Lemma leaves_scalar_ptr_increment {X} (f : reader -> X) (m : Z) :
  (forall st p, f (set_pos st p) = f st) ->
  Leaves f (scalar_ptr_increment m).
Proof. intros Hf st. apply Hf. Qed.

Lemma leaves_std_vector {X} (f : reader -> X) (m : Z) :
  (forall st p, f (set_pos st p) = f st) -> Leaves f (std_vector m).
Proof.
  intros Hf st. unfold final, std_vector.
  destruct (m =? 0); [done|apply Hf].
Qed.

Lemma leaves_integer {X} (f : reader -> X) :
  (forall st p, f (set_int_pos st p) = f st) -> Leaves f (integer : M Z).
Proof.
  intros Hf st. unfold final, integer.
  destruct (size_i st <=? int_pos_ st); [done|apply Hf].
Qed.

Lemma leaves_deref {X} (f : reader -> X) (p : Z) : Leaves f (deref p).
Proof. done. Qed.

Lemma leaves_map_vector_t {X} (f : reader -> X) (p m : Z) :
  Leaves f (map_vector_t p m).
Proof. done. Qed.

Lemma leaves_map_row_vector_t {X} (f : reader -> X) (p m : Z) :
  Leaves f (map_row_vector_t p m).
Proof. done. Qed.

Lemma leaves_map_matrix_t {X} (f : reader -> X) (p n m : Z) :
  Leaves f (map_matrix_t p n m).
Proof. done. Qed.

Ltac leaves :=
  autounfold with reader_members;
  unfold vector, row_vector, matrix, sparse_matrix, sparse_read,
    triplet_loop;
  repeat first
    [ apply leaves_ret | apply leaves_throw | apply leaves_lift
    | apply leaves_deref | apply leaves_map_vector_t
    | apply leaves_map_row_vector_t | apply leaves_map_matrix_t
    | apply leaves_scalar; reflexivity
    | apply leaves_scalar_ptr_increment; reflexivity
    | apply leaves_std_vector; reflexivity
    | apply leaves_integer; reflexivity
    | apply leaves_bind | apply leaves_for_loop | apply leaves_if | intro ].

Ltac by_leaves :=
  match goal with
  | |- ?f (final ?c ?st) = ?f ?st =>
      let H := fresh in
      assert (H : Leaves f c) by (solve [leaves]); apply H
  end.

Lemma exec_leaves_data (c : call T TL TU TS) (st : reader) :
  data_r_ (exec c st) = data_r_ st /\ data_i_ (exec c st) = data_i_ st.
Proof.
  split.
  - destruct c; cbn [exec]; try reflexivity;
      by_leaves.
  - destruct c; cbn [exec]; try reflexivity;
      by_leaves.
Qed.

Lemma exec_leaves_int_pos (c : call T TL TU TS) (st : reader) :
  is_integer_call c = false -> int_pos_ (exec c st) = int_pos_ st.
Proof.
  destruct c; cbn [exec is_integer_call]; intros Hc;
    try discriminate; try reflexivity;
    by_leaves.
Qed.

Lemma exec_leaves_pos (c : call T TL TU TS) (st : reader) :
  is_integer_call c = true -> pos_ (exec c st) = pos_ st.
Proof.
  destruct c; cbn [exec is_integer_call]; intros Hc;
    try discriminate;
    by_leaves.
Qed.




(** X3.  The two cursors are independent and the borrowed sequences are
    never written: every public member function leaves both sequences as
    they are; the integer readers leave the scalar cursor where it was and
    every other member leaves the integer cursor where it was -- from any
    reader, returning or throwing. *)
Theorem cursors_are_independent (c : call T TL TU TS) (st : reader) :
  data_r_ (exec c st) = data_r_ st
  /\ data_i_ (exec c st) = data_i_ st
  /\ (is_integer_call c = true -> pos_ (exec c st) = pos_ st)
  /\ (is_integer_call c = false -> int_pos_ (exec c st) = int_pos_ st).
Proof.
  destruct (exec_leaves_data c st) as [Hr Hi].
  split; [done|]. split; [done|].
  split; [apply exec_leaves_pos|apply exec_leaves_int_pos].
Qed.


(** *** The cursors stay within the data *)

Lemma keeps_ret {A} (I : reader -> Prop) (a : A) : Keeps I (ret a : M A).
Proof. by intros st Hwf HI. Qed.

Lemma keeps_throw {A} (I : reader -> Prop) (e : exn) :
  Keeps I (@throw T A e).
Proof. by intros st Hwf HI. Qed.

Lemma keeps_lift {A} (I : reader -> Prop) (o : outcome A) :
  Keeps I (lift o : M A).
Proof. by intros st Hwf HI. Qed.

Lemma keeps_bind {A B} (I : reader -> Prop) (c : M A) (k : A -> M B) :
  Keeps I c -> (forall a, Keeps I (k a)) -> Keeps I (bind c k).
Proof.
  intros Hc Hk st Hwf HI. destruct (Hc st Hwf HI) as [Hwf' HI'].
  unfold final, bind in *. destruct (c st) as [[a|e] st']; simpl in *.
  - by apply Hk.
  - done.
Qed.

Lemma keeps_for_loop {A} (I : reader -> Prop) (body : Z -> A -> M A)
    (count : nat) :
  (forall i acc, Keeps I (body i acc)) ->
  forall i acc, Keeps I (for_loop count i body acc).
Proof.
  intros Hbody. induction count as [|count IH]; intros i acc; simpl.
  - apply keeps_ret.
  - apply keeps_bind; [apply Hbody|]. intros acc'. apply IH.
Qed.

Lemma keeps_if {A} (I : reader -> Prop) (b : bool) (c1 c2 : M A) :
  Keeps I c1 -> Keeps I c2 -> Keeps I (if b then c1 else c2).
Proof. by destruct b. Qed.

Lemma keeps_scalar : Keeps in_bounds (scalar : M T).
Proof.
  intros st Hwf [Hr Hi]. unfold final.
  destruct (decide (pos_ st < size_r st)) as [Hlt|Hge].
  - rewrite scalar_some by done. simpl. split.
    + apply wf_advance; [done|]. apply wf_in_bounds; [done|lia|lia].
    + unfold in_bounds, size_r, size_i in *. simpl. lia.
  - by rewrite scalar_none by lia.
Qed.

Lemma keeps_integer : Keeps in_bounds (integer : M Z).
Proof.
  intros st Hwf [Hr Hi]. unfold final.
  destruct (decide (int_pos_ st < size_i st)) as [Hlt|Hge].
  - rewrite integer_some by done. simpl. split.
    + revert Hwf. unfold wf, SizeT.in_range, size_r, size_i in *. simpl. lia.
    + unfold in_bounds, size_r, size_i in *. simpl. lia.
  - by rewrite integer_none by lia.
Qed.

Lemma keeps_integer_alone :
  Keeps (fun st => int_pos_ st <= size_i st) (integer : M Z).
Proof.
  intros st Hwf Hi. unfold final.
  destruct (decide (int_pos_ st < size_i st)) as [Hlt|Hge].
  - rewrite integer_some by done. simpl. split.
    + revert Hwf. unfold wf, SizeT.in_range, size_r, size_i in *. simpl. lia.
    + unfold size_i in *. simpl. lia.
  - by rewrite integer_none by lia.
Qed.

Ltac keeps :=
  autounfold with reader_members;
  repeat first
    [ apply keeps_ret | apply keeps_throw | apply keeps_lift
    | apply keeps_scalar | apply keeps_integer | apply keeps_integer_alone
    | apply keeps_bind | apply keeps_for_loop | apply keeps_if | intro ].

Lemma moved_in_bounds (st : reader) (r : Z) :
  wf st -> in_bounds st -> 0 <= r -> pos_ st + r <= size_r st ->
  wf (Reader (data_r_ st) (data_i_ st) (pos_ st + r) (int_pos_ st))
  /\ in_bounds (Reader (data_r_ st) (data_i_ st) (pos_ st + r) (int_pos_ st)).
Proof.
  intros Hwf [Hr Hi] H0 Hle. split.
  - apply wf_advance; [done|]. by apply wf_in_bounds.
  - unfold in_bounds, size_r, size_i in *. simpl. lia.
Qed.

Lemma ib_vector (st : reader) (r : Z) :
  wf st -> in_bounds st -> 0 <= r -> pos_ st + r <= size_r st ->
  wf (final (vector r) st) /\ in_bounds (final (vector r) st).
Proof.
  intros Hwf Hib H0 Hle. unfold final.
  rewrite vector_run by (done || by apply wf_in_bounds).
  by apply moved_in_bounds.
Qed.

Lemma ib_row_vector (st : reader) (r : Z) :
  wf st -> in_bounds st -> 0 <= r -> pos_ st + r <= size_r st ->
  wf (final (row_vector r) st) /\ in_bounds (final (row_vector r) st).
Proof. apply ib_vector. Qed.

Lemma ib_std_vector (st : reader) (r : Z) :
  wf st -> in_bounds st -> 0 <= r -> pos_ st + r <= size_r st ->
  wf (final (std_vector r) st) /\ in_bounds (final (std_vector r) st).
Proof.
  intros Hwf Hib H0 Hle. unfold final.
  rewrite std_vector_run by (done || by apply wf_in_bounds).
  by apply moved_in_bounds.
Qed.

Lemma ib_matrix (st : reader) (n m : Z) :
  wf st -> in_bounds st -> 0 <= SizeT.mul n m ->
  pos_ st + SizeT.mul n m <= size_r st ->
  wf (final (matrix n m) st) /\ in_bounds (final (matrix n m) st).
Proof.
  intros Hwf Hib H0 Hle. unfold final, matrix.
  destruct ((m =? 0) || (n =? 0)); [done|].
  rewrite (bind_ok _ _ _ _ _
             (scalar_ptr_increment_run st _ Hwf
                (wf_in_bounds st _ Hwf H0 Hle))).
  by apply moved_in_bounds.
Qed.

Lemma ib_sparse_matrix (st : reader) (vec_r vec_c : list Z) (n m : Z) :
  wf st -> in_bounds st -> 0 <= Z.of_nat (length vec_r) ->
  pos_ st + Z.of_nat (length vec_r) <= size_r st ->
  wf (final (sparse_matrix vec_r vec_c n m) st)
  /\ in_bounds (final (sparse_matrix vec_r vec_c n m) st).
Proof.
  intros Hwf Hib H0 Hle. unfold final, sparse_matrix, sparse_read.
  destruct ((m =? 0) || (n =? 0)); [done|].
  unfold triplet_loop.
  edestruct (for_loop_unchecked
               (fun i tl =>
                  x <- (p <- scalar_ptr_increment 1 ;; deref p) ;;
                  ret (tl ++ [Eigen.Triplet (at_index vec_r i)
                                            (at_index vec_c i) x])))
    as [tl Htl]; [|exact Hwf|exact (wf_in_bounds st _ Hwf H0 Hle)|].
  { intros i acc st' Hwf' Hfit'. eexists.
    erewrite bind_ok; [reflexivity|].
    erewrite bind_ok by (by apply scalar_ptr_increment_run). reflexivity. }
  rewrite (bind_ok _ _ _ _ _ Htl). simpl.
  by apply moved_in_bounds.
Qed.

(** X4.  A call that asks the unchecked paths for no more than is left
    keeps the reader within its data: from a reader with both cursors at or
    before the end of their sequences, every public member function --
    returning or throwing -- leaves both cursors at or before the end. *)
Theorem cursors_stay_in_bounds (c : call T TL TU TS) (st : reader) :
  wf st -> in_bounds st ->
  0 <= unchecked_request c ->
  pos_ st + unchecked_request c <= size_r st ->
  wf (exec c st) /\ in_bounds (exec c st).
Proof.
  intros Hwf Hib H0 Hle.
  destruct c; cbn [exec unchecked_request] in *;
    try done;
    try (match goal with
         | |- wf (final ?c ?st) /\ _ =>
             let H := fresh in
             assert (H : Keeps in_bounds c) by (solve [keeps]);
             exact (H st Hwf Hib)
         end);
    autounfold with reader_members;
    repeat match goal with
           | H : context [if ?b then _ else _] |- _ => destruct b
           | |- context [if ?b then _ else _] => destruct b
           end;
    rewrite ?final_throw; try done; frame;
    first [ by apply ib_vector | by apply ib_row_vector
          | by apply ib_std_vector | by apply ib_matrix
          | by apply ib_sparse_matrix ].
Qed.

(** X5.  The integer cursor never passes the end of the integer sequence:
    whatever public member function is called, and however far a bulk read
    carries the scalar cursor, [int_pos_ <= data_i_.size()] is kept. *)
Theorem integer_cursor_never_passes_the_end (c : call T TL TU TS)
    (st : reader) :
  wf st -> int_pos_ st <= size_i st ->
  int_pos_ (exec c st) <= size_i (exec c st).
Proof.
  intros Hwf Hi.
  destruct (is_integer_call c) eqn:Hc.
  - destruct c; cbn [exec is_integer_call] in *; try discriminate;
      match goal with
      | |- int_pos_ (final ?c ?st) <= _ =>
          let H := fresh in
          assert (H : Keeps (fun st => int_pos_ st <= size_i st) c)
            by (solve [keeps]);
          exact (proj2 (H st Hwf Hi))
      end.
  - rewrite (exec_leaves_int_pos c st Hc). unfold size_i.
    by rewrite (proj2 (exec_leaves_data c st)).
Qed.


(** *** Reads compose *)

Lemma next_scalars_moved_app (st : reader) (a b : Z) :
  0 <= a -> 0 <= b ->
  next_scalars st (a + b) = next_scalars st a ++ next_scalars (moved st a) b.
Proof. apply next_scalars_app. Qed.

(** X6.  Bulk reads compose: reading [a] scalars and then [b] scalars gives
    the two halves of what one read of [a + b] scalars gives, and ends at
    the same reader. *)
Theorem vector_reads_compose (st : reader) (a b : Z) :
  wf st -> 0 <= a -> 0 <= b -> pos_ st + (a + b) <= SizeT.SIZE_MAX ->
  exists v1 v2 st1 st2,
    vector a st = (Ok v1, st1)
    /\ vector b st1 = (Ok v2, st2)
    /\ vector (a + b) st = (Ok (v1 ++ v2), st2)
    /\ std_vector (a + b) st = (Ok (v1 ++ v2), st2).
Proof.
  intros Hwf Ha Hb Hle.
  assert (Hfa : fits st a) by (split; lia).
  assert (Hfab : fits st (a + b)) by (split; lia).
  pose proof (wf_advance st a Hwf Hfa) as Hwf1.
  exists (next_scalars st a), (next_scalars (moved st a) b), (moved st a),
    (moved st (a + b)).
  split; [by apply vector_run|]. split.
  - unfold moved at 2. rewrite vector_run; [|done|split; simpl; lia].
    unfold moved. simpl. by rewrite Z.add_assoc.
  - rewrite <- next_scalars_moved_app by done.
    split; [by apply vector_run|by apply std_vector_run].
Qed.

(** X7.  A matrix is its columns read as vectors: after [matrix(n, m)],
    column [j] of the result is what [vector(n)] returns from the reader
    that has [j] columns behind it. *)
Theorem matrix_is_its_columns (st : reader) (n m j : Z) :
  wf st -> 1 <= n -> 1 <= m -> pos_ st + n * m <= SizeT.SIZE_MAX ->
  0 <= j < m ->
  exists v column,
    matrix n m st = (Ok v, moved st (n * m))
    /\ vector n (moved st (j * n)) = (Ok column, moved st ((j + 1) * n))
    /\ Eigen.col v j = Some <$> column.
Proof.
  intros Hwf Hn Hm Hle Hj.
  assert (Hfit : fits st (n * m)) by (split; [nia|done]).
  assert (Hfj : fits st (j * n)) by (split; nia).
  exists (Eigen.Matrix n m (next_scalars st (n * m))),
    (next_scalars (moved st (j * n)) n).
  split; [by apply matrix_run|]. split.
  - unfold moved at 1. rewrite vector_run;
      [|by apply wf_advance|split; simpl; nia].
    unfold moved. simpl. do 2 f_equal. lia.
  - unfold Eigen.col, Eigen.coeff, Eigen.storage_index.
    cbn [Eigen.rows Eigen.cols Eigen.coeffs].
    apply list_eq. intros i.
    rewrite !list_lookup_fmap.
    destruct (decide (Z.of_nat i < n)) as [Hi|Hi].
    + rewrite lookup_seqZ_lt by done. simpl.
      replace i with (Z.to_nat (Z.of_nat i)) at 2 by lia.
      rewrite !lookup_next_scalars by nia. simpl.
      rewrite (elem_r_same_data st (moved st (j * n))) by done.
      do 3 f_equal. lia.
    + rewrite lookup_seqZ_ge by lia. simpl.
      rewrite (lookup_ge_None_2 (next_scalars _ _)); [done|].
      rewrite length_next_scalars. lia.
Qed.

(** X8.  The four dense extractors deliver the same flat sequence:
    [std_vector(n * m)], [vector(n * m)], [row_vector(n * m)] and the
    storage of [matrix(n, m)] hold the same scalars in the same order, and
    all four end at the same reader. *)
Theorem dense_extractors_agree (st : reader) (n m : Z) :
  wf st -> 1 <= n -> 1 <= m -> pos_ st + n * m <= SizeT.SIZE_MAX ->
  exists flat st',
    std_vector (n * m) st = (Ok flat, st')
    /\ vector (n * m) st = (Ok flat, st')
    /\ row_vector (n * m) st = (Ok flat, st')
    /\ matrix n m st = (Ok (Eigen.Matrix n m flat), st')
    /\ length flat = Z.to_nat (n * m).
Proof.
  intros Hwf Hn Hm Hle.
  assert (Hfit : fits st (n * m)) by (split; [nia|done]).
  exists (next_scalars st (n * m)), (moved st (n * m)).
  split; [by apply std_vector_run|]. split; [by apply vector_run|].
  split; [by apply row_vector_run|]. split; [by apply matrix_run|].
  apply length_next_scalars.
Qed.


(** *** The accessors delegate to [stan::math] *)

Lemma check_then_ret {A} (chk : outcome unit) (a : A) (st : reader) :
  (lift chk ;; ret a) st = checked_value chk a st.
Proof. unfold bind, lift, ret, checked_value. by destruct chk as [[]|]. Qed.

Lemma moved_zero (st : reader) : moved st 0 = st.
Proof. unfold moved. by rewrite Z.add_0_r, reader_eta. Qed.

(** [matrix(n, m)] for any dimensions, with the value it returns. *)
Lemma matrix_run_any (st : reader) (n m : Z) :
  wf st -> 0 <= n -> 0 <= m -> fits st (n * m) ->
  matrix n m st =
    (Ok (Eigen.Matrix n m (next_scalars st (n * m))), moved st (n * m)).
Proof.
  intros Hwf Hn Hm Hfit.
  destruct (decide (n = 0)) as [->|Hn0].
  { rewrite Z.mul_0_l, moved_zero. apply matrix_no_rows. }
  destruct (decide (m = 0)) as [->|Hm0].
  { rewrite Z.mul_0_r, moved_zero. apply matrix_no_cols. }
  apply matrix_run; (done || lia).
Qed.

(** X9.  A plain accessor of a constrained family reads the constrained
    representation, hands exactly that value to the predicate of
    [stan::math], and then returns the value as read or lets the
    predicate's exception through unchanged; the cursor has moved by the
    full size in both cases. *)
Theorem plain_families_validate_what_they_read (st : reader) (n m k : Z) :
  wf st ->
  (1 <= k -> pos_ st + k <= SizeT.SIZE_MAX ->
   let x := next_scalars st k in
   unit_vector k st =
     checked_value (math.check_unit_vector x) x (moved st k)
   /\ simplex k st = checked_value (math.check_simplex x) x (moved st k))
  /\ (0 <= k -> pos_ st + k <= SizeT.SIZE_MAX ->
      let x := next_scalars st k in
      ordered k st = checked_value (math.check_ordered x) x (moved st k)
      /\ positive_ordered k st =
           checked_value (math.check_positive_ordered x) x (moved st k))
  /\ (0 <= n -> 0 <= m -> pos_ st + n * m <= SizeT.SIZE_MAX ->
      let y := Eigen.Matrix n m (next_scalars st (n * m)) in
      cholesky_factor_cov n m st =
        checked_value (math.check_cholesky_factor y) y (moved st (n * m)))
  /\ (0 <= k -> pos_ st + k * k <= SizeT.SIZE_MAX ->
      let y := Eigen.Matrix k k (next_scalars st (k * k)) in
      cholesky_factor_corr k st =
        checked_value (math.check_cholesky_factor_corr y) y
          (moved st (k * k))
      /\ cov_matrix k st =
           checked_value (math.check_cov_matrix y) y (moved st (k * k))
      /\ corr_matrix k st =
           checked_value (math.check_corr_matrix y) y (moved st (k * k))).
Proof.
  intros Hwf. split; [|split; [|split]].
  - intros Hk Hle x. assert (Hfit : fits st k) by (split; lia).
    unfold unit_vector, simplex.
    destruct (Z.eqb_spec k 0); [lia|].
    rewrite !(bind_ok _ _ _ _ _ (vector_run st k Hwf Hfit)).
    split; apply check_then_ret.
  - intros Hk Hle x. assert (Hfit : fits st k) by (split; lia).
    unfold ordered, positive_ordered.
    rewrite !(bind_ok _ _ _ _ _ (vector_run st k Hwf Hfit)).
    split; apply check_then_ret.
  - intros Hn Hm Hle y. assert (Hfit : fits st (n * m)) by (split; nia).
    unfold cholesky_factor_cov.
    rewrite (bind_ok _ _ _ _ _ (matrix_run_any st n m Hwf Hn Hm Hfit)).
    apply check_then_ret.
  - intros Hk Hle y. assert (Hfit : fits st (k * k)) by (split; nia).
    unfold cholesky_factor_corr, cov_matrix, corr_matrix.
    rewrite !(bind_ok _ _ _ _ _ (matrix_run_any st k k Hwf Hk Hk Hfit)).
    repeat split; apply check_then_ret.
Qed.

(** X10.  A constrain accessor of a constrained family reads the
    unconstrained vector and returns what the transform of [stan::math]
    makes of exactly that vector (and of the accumulator, in the [lp]
    form): it adds no check of its own and changes neither the value nor
    the exception. *)
Theorem constrain_families_return_the_transform (st : reader) (n m k : Z)
    (lp : T) :
  wf st ->
  (1 <= k -> pos_ st + k <= SizeT.SIZE_MAX ->
   let x := next_scalars st k in
   let x' := next_scalars st (k - 1) in
   unit_vector_constrain k st = (math.unit_vector_constrain x, moved st k)
   /\ unit_vector_constrain_lp k lp st =
        (math.unit_vector_constrain_lp x lp, moved st k)
   /\ simplex_constrain k st = (math.simplex_constrain x', moved st (k - 1))
   /\ simplex_constrain_lp k lp st =
        (math.simplex_constrain_lp x' lp, moved st (k - 1)))
  /\ (0 <= k -> pos_ st + k <= SizeT.SIZE_MAX ->
      let x := next_scalars st k in
      ordered_constrain k st = (math.ordered_constrain x, moved st k)
      /\ ordered_constrain_lp k lp st =
           (math.ordered_constrain_lp x lp, moved st k)
      /\ positive_ordered_constrain k st =
           (math.positive_ordered_constrain x, moved st k)
      /\ positive_ordered_constrain_lp k lp st =
           (math.positive_ordered_constrain_lp x lp, moved st k))
  /\ (0 <= m <= n -> pos_ st + (n + 1) * m <= SizeT.SIZE_MAX ->
      let r := m * (m + 1) / 2 + (n - m) * m in
      let x := next_scalars st r in
      cholesky_factor_cov_constrain n m st =
        (math.cholesky_factor_constrain x n m, moved st r)
      /\ cholesky_factor_cov_constrain_lp n m lp st =
           (math.cholesky_factor_constrain_lp x n m lp, moved st r))
  /\ (0 <= k -> pos_ st + k * k <= SizeT.SIZE_MAX ->
      let r := k * (k - 1) / 2 in
      let x := next_scalars st r in
      let x' := next_scalars st (k + r) in
      cholesky_factor_corr_constrain k st =
        (math.cholesky_corr_constrain x k, moved st r)
      /\ cholesky_factor_corr_constrain_lp k lp st =
           (math.cholesky_corr_constrain_lp x k lp, moved st r)
      /\ corr_matrix_constrain k st =
           (math.corr_matrix_constrain x k, moved st r)
      /\ corr_matrix_constrain_lp k lp st =
           (math.corr_matrix_constrain_lp x k lp, moved st r)
      /\ cov_matrix_constrain k st =
           (math.cov_matrix_constrain x' k, moved st (k + r))
      /\ cov_matrix_constrain_lp k lp st =
           (math.cov_matrix_constrain_lp x' k lp, moved st (k + r))).
Proof.
  intros Hwf.
  assert (Hp : 0 <= pos_ st) by (by destruct Hwf as ([? ?] & _)).
  split; [|split; [|split]].
  - intros Hk Hle x x'.
    assert (Hfit : fits st k) by (split; lia).
    assert (Hfit' : fits st (k - 1)) by (split; lia).
    assert (Hsub : SizeT.sub k 1 = k - 1)
      by (apply sub_small; unfold SizeT.in_range; lia).
    unfold unit_vector_constrain, unit_vector_constrain_lp,
      simplex_constrain, simplex_constrain_lp.
    destruct (Z.eqb_spec k 0); [lia|]. rewrite Hsub.
    rewrite !(bind_ok _ _ _ _ _ (vector_run st k Hwf Hfit)).
    by rewrite !(bind_ok _ _ _ _ _ (vector_run st (k - 1) Hwf Hfit')).
  - intros Hk Hle x. assert (Hfit : fits st k) by (split; lia).
    unfold ordered_constrain, ordered_constrain_lp,
      positive_ordered_constrain, positive_ordered_constrain_lp.
    by rewrite !(bind_ok _ _ _ _ _ (vector_run st k Hwf Hfit)).
  - intros Hm Hle r x.
    assert (Hsz : cholesky_factor_cov_size n m = r)
      by (apply cholesky_factor_cov_size_exact; [done|nia]).
    assert (0 <= m * (m + 1) / 2 <= m * (m + 1))
      by (split; [apply Z.div_pos|apply Z.div_le_upper_bound]; nia).
    assert (Hfit : fits st r) by (unfold r; split; nia).
    unfold cholesky_factor_cov_constrain, cholesky_factor_cov_constrain_lp.
    rewrite Hsz.
    by rewrite !(bind_ok _ _ _ _ _ (vector_run st r Hwf Hfit)).
  - intros Hk Hle r x x'.
    assert (Hc : corr_size k = r) by (apply corr_size_exact; [done|nia]).
    assert (Hv : cov_size k = k + r) by (apply cov_size_exact; [done|nia]).
    assert (0 <= k * (k - 1) / 2 <= k * (k - 1))
      by (split; [apply Z.div_pos|apply Z.div_le_upper_bound]; nia).
    assert (Hfit : fits st r) by (unfold r; split; nia).
    assert (Hfit' : fits st (k + r)) by (unfold r; split; nia).
    unfold cholesky_factor_corr_constrain, cholesky_factor_corr_constrain_lp,
      cov_matrix_constrain, cov_matrix_constrain_lp, corr_matrix_constrain,
      corr_matrix_constrain_lp.
    rewrite Hc, Hv.
    rewrite !(bind_ok _ _ _ _ _ (vector_run st r Hwf Hfit)).
    by rewrite !(bind_ok _ _ _ _ _ (vector_run st (k + r) Hwf Hfit')).
Qed.

(** X11.  Every scalar-level accessor reads exactly one scalar.  With a
    scalar left it takes the scalar at the cursor and moves the cursor by
    one, whatever [stan::math] then does: a plain form returns the scalar
    as read or lets the predicate's exception through, a constrain form
    returns what the transform returns.  At the end of the data it throws
    the exhaustion error without calling [stan::math] and leaves the
    reader as it was. *)
Theorem scalar_accessors_read_one (st : reader) (lb : TL) (ub : TU)
    (offset : TL) (multiplier : TS) (lp : T) :
  wf st ->
  (pos_ st < size_r st ->
   let x := elem_r st (pos_ st) in
   let st' := moved st 1 in
   data_r_ st !! Z.to_nat (pos_ st) = Some x
   /\ scalar_pos st = checked_value (math.check_positive x) x st'
   /\ scalar_lb lb st =
        checked_value (math.check_greater_or_equal x lb) x st'
   /\ scalar_ub ub st = checked_value (math.check_less_or_equal x ub) x st'
   /\ scalar_lub lb ub st = checked_value (math.check_bounded x lb ub) x st'
   /\ prob st = checked_value (math.check_bounded_dd x 0 1) x st'
   /\ corr st = checked_value (math.check_bounded_dd x (-1) 1) x st'
   /\ scalar_offset_multiplier offset multiplier st = (Ok x, st')
   /\ scalar_pos_constrain st = (math.positive_constrain x, st')
   /\ scalar_pos_constrain_lp lp st = (math.positive_constrain_lp x lp, st')
   /\ scalar_lb_constrain lb st = (math.lb_constrain x lb, st')
   /\ scalar_lb_constrain_lp lb lp st = (math.lb_constrain_lp x lb lp, st')
   /\ scalar_ub_constrain ub st = (math.ub_constrain x ub, st')
   /\ scalar_ub_constrain_lp ub lp st = (math.ub_constrain_lp x ub lp, st')
   /\ scalar_lub_constrain lb ub st = (math.lub_constrain x lb ub, st')
   /\ scalar_lub_constrain_lp lb ub lp st =
        (math.lub_constrain_lp x lb ub lp, st')
   /\ scalar_offset_multiplier_constrain offset multiplier st =
        (math.offset_multiplier_constrain x offset multiplier, st')
   /\ scalar_offset_multiplier_constrain_lp offset multiplier lp st =
        (math.offset_multiplier_constrain_lp x offset multiplier lp, st')
   /\ prob_constrain st = (math.prob_constrain x, st')
   /\ prob_constrain_lp lp st = (math.prob_constrain_lp x lp, st')
   /\ corr_constrain st = (math.corr_constrain x, st')
   /\ corr_constrain_lp lp st = (math.corr_constrain_lp x lp, st'))
  /\ (size_r st <= pos_ st ->
      let gone := (Throw BufferExhausted_r, st) in
      scalar_pos st = gone /\ scalar_lb lb st = gone
      /\ scalar_ub ub st = gone /\ scalar_lub lb ub st = gone
      /\ prob st = gone /\ corr st = gone
      /\ scalar_offset_multiplier offset multiplier st = gone
      /\ scalar_pos_constrain st = gone
      /\ scalar_lb_constrain lb st = gone
      /\ scalar_ub_constrain ub st = gone
      /\ scalar_lub_constrain lb ub st = gone
      /\ scalar_offset_multiplier_constrain offset multiplier st = gone
      /\ prob_constrain st = gone /\ corr_constrain st = gone
      /\ scalar_pos_constrain_lp lp st = (Throw BufferExhausted_r, st)
      /\ scalar_lb_constrain_lp lb lp st = (Throw BufferExhausted_r, st)
      /\ scalar_ub_constrain_lp ub lp st = (Throw BufferExhausted_r, st)
      /\ scalar_lub_constrain_lp lb ub lp st = (Throw BufferExhausted_r, st)
      /\ scalar_offset_multiplier_constrain_lp offset multiplier lp st =
           (Throw BufferExhausted_r, st)
      /\ prob_constrain_lp lp st = (Throw BufferExhausted_r, st)
      /\ corr_constrain_lp lp st = (Throw BufferExhausted_r, st)).
Proof.
  intros Hwf. split.
  - intros Hlt x st'. pose proof (scalar_some st Hwf Hlt) as Hs.
    split; [apply elem_r_in_bounds; destruct Hwf as ([? ?] & _); lia|].
    unfold scalar_pos, scalar_lb, scalar_ub, scalar_lub, prob, corr,
      scalar_offset_multiplier, scalar_pos_constrain,
      scalar_pos_constrain_lp, scalar_lb_constrain, scalar_lb_constrain_lp,
      scalar_ub_constrain, scalar_ub_constrain_lp, scalar_lub_constrain,
      scalar_lub_constrain_lp, scalar_offset_multiplier_constrain,
      scalar_offset_multiplier_constrain_lp, prob_constrain,
      prob_constrain_lp, corr_constrain, corr_constrain_lp.
    rewrite !(bind_ok _ _ _ _ _ Hs).
    repeat split; apply check_then_ret.
  - intros Hge gone. pose proof (scalar_none st Hge) as Hs.
    unfold scalar_pos, scalar_lb, scalar_ub, scalar_lub, prob, corr,
      scalar_offset_multiplier, scalar_pos_constrain,
      scalar_pos_constrain_lp, scalar_lb_constrain, scalar_lb_constrain_lp,
      scalar_ub_constrain, scalar_ub_constrain_lp, scalar_lub_constrain,
      scalar_lub_constrain_lp, scalar_offset_multiplier_constrain,
      scalar_offset_multiplier_constrain_lp, prob_constrain,
      prob_constrain_lp, corr_constrain, corr_constrain_lp.
    rewrite !(bind_throw _ _ _ _ _ Hs). repeat split.
Qed.

Lemma ok_after_integer_bounds (st st' : reader) (lb ub i : Z) :
  (integer_lb lb st = (Ok i, st') -> lb <= i)
  /\ (integer_ub ub st = (Ok i, st') -> i <= ub)
  /\ (integer_lub lb ub st = (Ok i, st') -> lb <= i <= ub).
Proof.
  unfold integer_lub, integer_lb, integer_ub, bind, throw, ret.
  destruct (integer st) as [[j|e] st1]; [|by split; [|split]].
  destruct (Z.ltb_spec ub lb), (Z.leb_spec lb j), (Z.leb_spec j ub);
    simpl; (split; [|split]); try discriminate;
    intros Heq; inversion Heq; subst; lia.
Qed.

(** X12.  A plain accessor never returns a value its predicate rejected:
    whenever one returns, the predicate of [stan::math] returned on exactly
    the returned value -- and the integer bound checks return only
    integers within the bounds asked for. *)
Theorem plain_accessors_return_only_validated_values (st st' : reader)
    (lb : TL) (ub : TU) (ilb iub n m k : Z) :
  (forall x, scalar_pos st = (Ok x, st') -> math.check_positive x = Ok tt)
  /\ (forall x, scalar_lb lb st = (Ok x, st') ->
        math.check_greater_or_equal x lb = Ok tt)
  /\ (forall x, scalar_ub ub st = (Ok x, st') ->
        math.check_less_or_equal x ub = Ok tt)
  /\ (forall x, scalar_lub lb ub st = (Ok x, st') ->
        math.check_bounded x lb ub = Ok tt)
  /\ (forall x, prob st = (Ok x, st') -> math.check_bounded_dd x 0 1 = Ok tt)
  /\ (forall x, corr st = (Ok x, st') ->
        math.check_bounded_dd x (-1) 1 = Ok tt)
  /\ (forall v, unit_vector k st = (Ok v, st') ->
        math.check_unit_vector v = Ok tt)
  /\ (forall v, simplex k st = (Ok v, st') -> math.check_simplex v = Ok tt)
  /\ (forall v, ordered k st = (Ok v, st') -> math.check_ordered v = Ok tt)
  /\ (forall v, positive_ordered k st = (Ok v, st') ->
        math.check_positive_ordered v = Ok tt)
  /\ (forall y, cholesky_factor_cov n m st = (Ok y, st') ->
        math.check_cholesky_factor y = Ok tt)
  /\ (forall y, cholesky_factor_corr k st = (Ok y, st') ->
        math.check_cholesky_factor_corr y = Ok tt)
  /\ (forall y, cov_matrix k st = (Ok y, st') ->
        math.check_cov_matrix y = Ok tt)
  /\ (forall y, corr_matrix k st = (Ok y, st') ->
        math.check_corr_matrix y = Ok tt)
  /\ (forall i, integer_lb ilb st = (Ok i, st') -> ilb <= i)
  /\ (forall i, integer_ub iub st = (Ok i, st') -> i <= iub)
  /\ (forall i, integer_lub ilb iub st = (Ok i, st') -> ilb <= i <= iub).
Proof.
  unfold scalar_pos, scalar_lb, scalar_ub, scalar_lub, prob, corr,
    unit_vector, simplex, ordered, positive_ordered, cholesky_factor_cov,
    cholesky_factor_corr, cov_matrix, corr_matrix.
  repeat match goal with |- _ /\ _ => split end;
    try (intros i; apply (ok_after_integer_bounds st st' ilb iub i));
    intros a Ha; unfold bind, lift, ret, throw in Ha;
    repeat match type of Ha with
           | context [match ?e with _ => _ end] => destruct e eqn:?
           | context [if ?e then _ else _] => destruct e eqn:?
           end;
    try discriminate; inversion Ha; subst;
    match goal with
    | H : ?chk = Ok ?u |- ?chk = Ok tt => by destruct u
    end.
Qed.


(** *** Checked batch reads and the end of the data *)

Lemma reads_ret {A} (a : A) : Reads (ret a : M A) 0.
Proof.
  intros st Hwf Hle. split; [|lia].
  intros _. exists a. by rewrite moved_zero.
Qed.

Lemma reads_lift_ok {A} (a : A) : Reads (lift (Ok a) : M A) 0.
Proof. apply reads_ret. Qed.

Lemma reads_scalar : Reads (scalar : M T) 1.
Proof.
  intros st Hwf Hle. split.
  - intros Hin. eexists. apply scalar_some; [done|lia].
  - intros Hout. rewrite scalar_none by lia.
    unfold at_end. replace (size_r st) with (pos_ st) by lia.
    by rewrite reader_eta.
Qed.

Lemma reads_bind {A B} (c : M A) (k : A -> M B) (k1 k2 : Z) :
  0 <= k1 -> 0 <= k2 ->
  Reads c k1 -> (forall a, Reads (k a) k2) -> Reads (bind c k) (k1 + k2).
Proof.
  intros H1 H2 Hc Hk st Hwf Hle. destruct (Hc st Hwf Hle) as [Hin Hout].
  assert (Hfit : pos_ st + k1 <= size_r st -> fits st k1)
    by (intros; by apply wf_in_bounds).
  split.
  - intros Hboth. destruct Hin as [a Ha]; [lia|].
    rewrite (bind_ok _ _ _ _ _ Ha).
    destruct (Hk a (moved st k1)) as [Hin' _].
    { apply wf_advance; [done|]. apply Hfit. lia. }
    { unfold moved, size_r. simpl. unfold size_r in Hboth. lia. }
    destruct Hin' as [b Hb].
    { unfold moved, size_r. simpl. unfold size_r in Hboth. lia. }
    exists b. rewrite Hb. unfold moved. simpl. by rewrite Z.add_assoc.
  - intros Hover.
    destruct (decide (pos_ st + k1 <= size_r st)) as [Hfst|Hfst].
    + destruct Hin as [a Ha]; [done|].
      rewrite (bind_ok _ _ _ _ _ Ha).
      destruct (Hk a (moved st k1)) as [_ Hout'].
      { apply wf_advance; [done|]. by apply Hfit. }
      { unfold moved, size_r. simpl. unfold size_r in Hfst. lia. }
      rewrite Hout'; [done|].
      unfold moved, size_r. simpl. unfold size_r in Hover. lia.
    + rewrite (bind_throw _ _ _ _ _ (Hout ltac:(lia))). done.
Qed.

Lemma reads_for_loop {A} (body : Z -> A -> M A) (k : Z) (count : nat) :
  0 <= k -> (forall i acc, Reads (body i acc) k) ->
  forall i acc, Reads (for_loop count i body acc) (Z.of_nat count * k).
Proof.
  intros Hk Hbody. induction count as [|count IH]; intros i acc.
  - simpl. apply reads_ret.
  - replace (Z.of_nat (S count) * k) with (k + Z.of_nat count * k) by lia.
    cbn [for_loop]. apply reads_bind; [done|nia|apply Hbody|].
    intros acc'. apply IH.
Qed.

Lemma reads_eq {A} (c : M A) (k k' : Z) : k = k' -> Reads c k -> Reads c k'.
Proof. by intros ->. Qed.

(** The loops of the batch accessors over a scalar-level read. *)
Lemma reads_fill_vector (elem : M T) (m : Z) :
  0 <= m -> Reads elem 1 -> Reads (fill_vector elem m) m.
Proof.
  intros Hm Helem. unfold fill_vector.
  apply (reads_eq _ (Z.of_nat (Z.to_nat m) * (1 + 0))); [lia|].
  apply reads_for_loop; [lia|]. intros i acc.
  apply reads_bind; [lia|lia|done|]. intros x. apply reads_ret.
Qed.

Lemma reads_fill_matrix (elem : M T) (n m : Z) :
  0 <= n -> 0 <= m -> Reads elem 1 -> Reads (fill_matrix elem n m) (n * m).
Proof.
  intros Hn Hm Helem. unfold fill_matrix.
  apply (reads_eq _ (Z.of_nat (Z.to_nat m)
                     * (Z.of_nat (Z.to_nat n) * (1 + 0)))); [lia|].
  apply reads_for_loop; [lia|]. intros j acc.
  apply reads_for_loop; [lia|]. intros i acc'.
  apply reads_bind; [lia|lia|done|]. intros x. apply reads_ret.
Qed.

Lemma reads_sparse_read (init : list (Eigen.triplet_type T)) (elem : M T)
    (vec_r vec_c : list Z) (n m : Z) :
  1 <= n -> 1 <= m -> Reads elem 1 ->
  Reads (sparse_read init elem vec_r vec_c n m) (Z.of_nat (length vec_r)).
Proof.
  intros Hn Hm Helem. unfold sparse_read, triplet_loop.
  destruct (Z.eqb_spec m 0); [lia|]. destruct (Z.eqb_spec n 0); [lia|].
  simpl.
  apply (reads_eq _ (Z.of_nat (length vec_r) * (1 + 0) + 0)); [lia|].
  apply reads_bind; [lia|lia| |intros tl; apply reads_ret].
  apply reads_for_loop; [lia|]. intros i acc.
  apply reads_bind; [lia|lia|done|]. intros x. apply reads_ret.
Qed.

Lemma reads_transform (f : T -> outcome T) (h : T -> T) :
  (forall x, f x = Ok (h x)) -> Reads (x <- scalar ;; lift (f x)) 1.
Proof.
  intros Hf. apply (reads_eq _ (1 + 0)); [lia|].
  apply reads_bind; [lia|lia|apply reads_scalar|].
  intros x. rewrite Hf. apply reads_lift_ok.
Qed.

Lemma reads_plain : Reads (x <- scalar ;; ret x) 1.
Proof.
  apply (reads_eq _ (1 + 0)); [lia|].
  apply reads_bind; [lia|lia|apply reads_scalar|].
  intros x. apply reads_ret.
Qed.

(** X13.  A batch accessor that goes through [scalar()] reads until the
    data runs out: when fewer scalars are left than the shape asks for, it
    throws the exhaustion error with the cursor at the end of the data --
    everything that was left has been consumed.  Shown for the plain
    offset-multiplier forms, which call nothing but [scalar()], and for the
    lower-bound constrain forms when the transform does not throw. *)
Theorem batch_reads_stop_at_the_end (st : reader) (offset : TL)
    (multiplier : TS) (lb : TL) (h : T -> T) (vec_r vec_c : list Z)
    (n m : Z) :
  wf st -> pos_ st <= size_r st -> 1 <= n -> 1 <= m ->
  (forall x, math.lb_constrain x lb = Ok (h x)) ->
  let gone := (Throw BufferExhausted_r, at_end st) in
  (size_r st < pos_ st + m ->
   vector_offset_multiplier offset multiplier m st = gone
   /\ row_vector_offset_multiplier offset multiplier m st = gone
   /\ vector_lb_constrain lb m st = gone
   /\ row_vector_lb_constrain lb m st = gone)
  /\ (size_r st < pos_ st + n * m ->
      matrix_offset_multiplier offset multiplier n m st =
        (Throw BufferExhausted_r, at_end st)
      /\ matrix_lb_constrain lb n m st =
           (Throw BufferExhausted_r, at_end st))
  /\ (size_r st < pos_ st + Z.of_nat (length vec_r) ->
      sparse_matrix_offset_multiplier offset multiplier vec_r vec_c n m st =
        (Throw BufferExhausted_r, at_end st)
      /\ sparse_matrix_offset_multiplier_constrain offset multiplier
           vec_r vec_c n m st = (Throw BufferExhausted_r, at_end st)
      /\ sparse_matrix_lb_constrain lb vec_r vec_c n m st =
           (Throw BufferExhausted_r, at_end st)).
Proof.
  intros Hwf Hle Hn Hm Hh gone.
  pose proof reads_plain as Hplain.
  pose proof (reads_transform _ h Hh) as Hlb.
  split; [|split].
  - intros Hout. repeat split;
      apply (reads_fill_vector _ m ltac:(lia)); (done || lia).
  - intros Hout. split;
      apply (reads_fill_matrix _ n m ltac:(lia) ltac:(lia)); (done || lia).
  - intros Hout. repeat split;
      apply (reads_sparse_read _ _ vec_r vec_c n m Hn Hm); (done || lia).
Qed.

(** X14.  With enough scalars left the checked plain forms and the
    unchecked bulk reads agree: [vector_offset_multiplier],
    [row_vector_offset_multiplier], [matrix_offset_multiplier] and
    [sparse_matrix_offset_multiplier] return what [vector], [row_vector],
    [matrix] and [sparse_matrix] return, whatever offset and multiplier
    they are given, and end at the same reader. *)
Theorem plain_offset_multiplier_is_the_bulk_read (st : reader) (offset : TL)
    (multiplier : TS) (vec_r vec_c : list Z) (n m : Z) :
  wf st -> 1 <= n -> 1 <= m ->
  (pos_ st + m <= size_r st ->
   vector_offset_multiplier offset multiplier m st = vector m st
   /\ row_vector_offset_multiplier offset multiplier m st = row_vector m st)
  /\ (pos_ st + n * m <= size_r st ->
      matrix_offset_multiplier offset multiplier n m st = matrix n m st)
  /\ (length vec_c = length vec_r ->
      pos_ st + Z.of_nat (length vec_r) <= size_r st ->
      sparse_matrix_offset_multiplier offset multiplier vec_r vec_c n m st =
        sparse_matrix vec_r vec_c n m st).
Proof.
  intros Hwf Hn Hm. split; [|split].
  - intros Hin. assert (Hfit : fits st m) by (apply wf_in_bounds; (done||lia)).
    rewrite vector_run, row_vector_run by done.
    unfold vector_offset_multiplier, row_vector_offset_multiplier,
      scalar_offset_multiplier.
    rewrite (fill_vector_in_order _ id m st)
      by (done || lia || apply element_read_plain).
    by rewrite list_fmap_id.
  - intros Hin.
    assert (Hfit : fits st (n * m)) by (apply wf_in_bounds; (done||nia)).
    rewrite matrix_run by done.
    unfold matrix_offset_multiplier, scalar_offset_multiplier.
    destruct (fill_matrix_column_major (x <- scalar ;; ret x) id n m st)
      as [-> _]; try done; try lia; [apply element_read_plain|].
    by rewrite list_fmap_id.
  - intros Hlen Hin.
    assert (Hfit : fits st (Z.of_nat (length vec_r)))
      by (apply wf_in_bounds; (done||lia)).
    rewrite sparse_matrix_run by done.
    unfold sparse_matrix_offset_multiplier, scalar_offset_multiplier.
    rewrite (sparse_read_in_order _ _ id)
      by (done || apply element_read_plain).
    by rewrite list_fmap_id.
Qed.


(** *** Batch reads, element by element *)

(** A loop whose rounds are known: round [d] starts from accumulator
    [accs d] and reader [sts d]. *)
Lemma for_loop_rounds {A} (body : Z -> A -> M A) (count : nat)
    (accs : nat -> A) (sts : nat -> reader) (i : Z) :
  (forall d, (d < count)%nat ->
     body (i + Z.of_nat d) (accs d) (sts d) = (Ok (accs (S d)), sts (S d))) ->
  for_loop count i body (accs O) (sts O) = (Ok (accs count), sts count).
Proof.
  revert accs sts i. induction count as [|count IH]; intros accs sts i Hr.
  - done.
  - cbn [for_loop]. pose proof (Hr O ltac:(lia)) as H0.
    rewrite Z.add_0_r in H0. rewrite (bind_ok _ _ _ _ _ H0).
    apply (IH (fun d => accs (S d)) (fun d => sts (S d)) (i + 1)).
    intros d Hd. rewrite <- (Hr (S d)) by lia. f_equal. lia.
Qed.

(** ... and a loop that meets an exception in round [j]. *)
Lemma for_loop_throws {A} (body : Z -> A -> M A) (count j : nat)
    (accs : nat -> A) (sts : nat -> reader) (i : Z) (e : exn)
    (st_e : reader) :
  (j < count)%nat ->
  (forall d, (d < j)%nat ->
     body (i + Z.of_nat d) (accs d) (sts d) = (Ok (accs (S d)), sts (S d))) ->
  body (i + Z.of_nat j) (accs j) (sts j) = (Throw e, st_e) ->
  for_loop count i body (accs O) (sts O) = (Throw e, st_e).
Proof.
  revert count accs sts i. induction j as [|j IH];
    intros count accs sts i Hj Hr He.
  - destruct count as [|count]; [lia|]. cbn [for_loop].
    rewrite Z.add_0_r in He. by rewrite (bind_throw _ _ _ _ _ He).
  - destruct count as [|count]; [lia|]. cbn [for_loop].
    pose proof (Hr O ltac:(lia)) as H0.
    rewrite Z.add_0_r in H0. rewrite (bind_ok _ _ _ _ _ H0).
    apply (IH count (fun d => accs (S d)) (fun d => sts (S d)) (i + 1));
      [lia| |].
    + intros d Hd. rewrite <- (Hr (S d)) by lia. f_equal. lia.
    + rewrite <- He. f_equal. lia.
Qed.

Lemma insert_next_cell (xs init : list T) (d : nat) (x : T) :
  xs !! d = Some x -> (d < length init)%nat ->
  <[d := x]> (take d xs ++ drop d init) =
    take (S d) xs ++ drop (S d) init.
Proof.
  intros Hx Hd.
  assert (Hlen : length (take d xs) = d).
  { rewrite length_take. apply lookup_lt_Some in Hx. lia. }
  destruct (lookup_lt_is_Some_2 init d Hd) as [y Hy].
  rewrite insert_app_r_alt, Hlen, Nat.sub_diag by lia.
  rewrite (drop_S _ _ _ Hy), (take_S_r _ _ _ Hx). simpl.
  by rewrite <- app_assoc.
Qed.

Lemma triplets_of_snoc (vec_r vec_c : list Z) (xs : list T) (d : nat)
    (r c : Z) (x : T) :
  vec_r !! d = Some r -> vec_c !! d = Some c -> xs !! d = Some x ->
  triplets_of (take (S d) vec_r) (take (S d) vec_c) (take (S d) xs) =
    triplets_of (take d vec_r) (take d vec_c) (take d xs) ++
    [Eigen.Triplet r c x].
Proof.
  revert vec_r vec_c xs. induction d as [|d IH]; intros vec_r vec_c xs.
  - destruct vec_r, vec_c, xs; try done. by intros [= ->] [= ->] [= ->].
  - destruct vec_r as [|r0 vec_r], vec_c as [|c0 vec_c], xs as [|x0 xs];
      try done.
    intros Hr Hc Hx. cbn [take triplets_of app].
    f_equal. by apply IH.
Qed.

Lemma triplets_of_all (vec_r vec_c : list Z) (xs : list T) :
  triplets_of (take (length vec_r) vec_r) (take (length vec_r) vec_c)
              (take (length vec_r) xs) =
    triplets_of vec_r vec_c xs.
Proof.
  revert vec_c xs. induction vec_r as [|r vec_r IH]; intros vec_c xs.
  - done.
  - destruct vec_c as [|c vec_c], xs as [|x xs]; try done.
    cbn [length take triplets_of]. f_equal. apply IH.
Qed.

Lemma fill_vector_rounds (elem : M T) (ys : list T) (m : Z) (st : reader) :
  0 <= m -> length ys = Z.to_nat m ->
  (forall d y, ys !! d = Some y -> round_of elem st d (Ok y)) ->
  fill_vector elem m st = (Ok ys, moved st m).
Proof.
  intros Hm Hlen Hround. unfold fill_vector, Vector_new.
  set (init := replicate (Z.to_nat m) indet).
  pose proof (for_loop_rounds
                (fun i v => x <- elem ;; ret (<[Z.to_nat i := x]> v))
                (Z.to_nat m)
                (fun d => take d ys ++ drop d init)
                (fun d => moved st (Z.of_nat d)) 0) as Hloop.
  cbn beta in Hloop. rewrite take_0, drop_0, moved_zero in Hloop.
  cbn [app] in Hloop. unfold Eigen.vector_t. rewrite Hloop.
  - rewrite take_ge, drop_ge by (unfold init; rewrite ?length_replicate; lia).
    rewrite app_nil_r. by rewrite Z2Nat.id.
  - intros d Hd.
    destruct (lookup_lt_is_Some_2 ys d ltac:(lia)) as [y Hy].
    rewrite (bind_ok _ _ _ _ _ (Hround d y Hy)). unfold ret.
    rewrite Z.add_0_l, Nat2Z.id.
    rewrite (insert_next_cell ys init d y Hy); [done|].
    unfold init. rewrite length_replicate. lia.
Qed.

Lemma fill_vector_stops (elem : M T) (ys : list T) (m : Z) (st : reader)
    (e : exn) :
  (length ys < Z.to_nat m)%nat ->
  (forall d y, ys !! d = Some y -> round_of elem st d (Ok y)) ->
  round_of elem st (length ys) (Throw e) ->
  fill_vector elem m st = (Throw e, moved st (Z.of_nat (S (length ys)))).
Proof.
  intros Hlen Hround Hthrow. unfold fill_vector, Vector_new.
  set (init := replicate (Z.to_nat m) indet).
  pose proof (for_loop_throws
                (fun i v => x <- elem ;; ret (<[Z.to_nat i := x]> v))
                (Z.to_nat m) (length ys)
                (fun d => take d ys ++ drop d init)
                (fun d => moved st (Z.of_nat d)) 0 e
                (moved st (Z.of_nat (S (length ys)))) Hlen) as Hloop.
  cbn beta in Hloop. rewrite take_0, drop_0, moved_zero in Hloop.
  cbn [app] in Hloop. unfold Eigen.vector_t. apply Hloop.
  - intros d Hd.
    destruct (lookup_lt_is_Some_2 ys d ltac:(lia)) as [y Hy].
    rewrite (bind_ok _ _ _ _ _ (Hround d y Hy)). unfold ret.
    rewrite Z.add_0_l, Nat2Z.id.
    rewrite (insert_next_cell ys init d y Hy); [done|].
    unfold init. rewrite length_replicate. lia.
  - by rewrite (bind_throw _ _ _ _ _ Hthrow).
Qed.

Lemma sparse_read_rounds (init : list (Eigen.triplet_type T)) (elem : M T)
    (ys : list T) (vec_r vec_c : list Z) (n m : Z) (st : reader) :
  1 <= n -> 1 <= m ->
  length vec_c = length vec_r -> length ys = length vec_r ->
  (forall d y, ys !! d = Some y -> round_of elem st d (Ok y)) ->
  sparse_read init elem vec_r vec_c n m st =
    (Ok (Eigen.SparseMatrix n m (init ++ triplets_of vec_r vec_c ys)),
     moved st (Z.of_nat (length vec_r))).
Proof.
  intros Hn Hm Hlc Hly Hround. unfold sparse_read, triplet_loop.
  destruct (Z.eqb_spec m 0); [lia|]. destruct (Z.eqb_spec n 0); [lia|].
  simpl.
  pose proof (for_loop_rounds
                (fun i tl =>
                   x <- elem ;;
                   ret (tl ++ [Eigen.Triplet (at_index vec_r i)
                                             (at_index vec_c i) x]))
                (length vec_r)
                (fun d => init ++ triplets_of (take d vec_r) (take d vec_c)
                                              (take d ys))
                (fun d => moved st (Z.of_nat d)) 0) as Hloop.
  cbn beta in Hloop. rewrite !take_0, moved_zero in Hloop.
  cbn [triplets_of] in Hloop. rewrite app_nil_r in Hloop.
  erewrite bind_ok; cycle 1.
  { apply Hloop. intros d Hd.
    destruct (lookup_lt_is_Some_2 ys d ltac:(lia)) as [y Hy].
    destruct (lookup_lt_is_Some_2 vec_r d ltac:(lia)) as [r Hr].
    destruct (lookup_lt_is_Some_2 vec_c d ltac:(lia)) as [c Hc].
    rewrite (bind_ok _ _ _ _ _ (Hround d y Hy)). unfold ret.
    rewrite Z.add_0_l.
    rewrite (at_index_lookup _ _ _ Hr), (at_index_lookup _ _ _ Hc).
    by rewrite (triplets_of_snoc _ _ _ _ _ _ _ Hr Hc Hy), app_assoc. }
  unfold ret, Eigen.setFromTriplets, SparseMatrix_new. simpl.
  by rewrite triplets_of_all.
Qed.

Lemma sparse_read_stops (init : list (Eigen.triplet_type T)) (elem : M T)
    (ys : list T) (vec_r vec_c : list Z) (n m : Z) (st : reader) (e : exn) :
  1 <= n -> 1 <= m -> length vec_c = length vec_r ->
  (length ys < length vec_r)%nat ->
  (forall d y, ys !! d = Some y -> round_of elem st d (Ok y)) ->
  round_of elem st (length ys) (Throw e) ->
  sparse_read init elem vec_r vec_c n m st =
    (Throw e, moved st (Z.of_nat (S (length ys)))).
Proof.
  intros Hn Hm Hlc Hly Hround Hthrow. unfold sparse_read, triplet_loop.
  destruct (Z.eqb_spec m 0); [lia|]. destruct (Z.eqb_spec n 0); [lia|].
  simpl.
  pose proof (for_loop_throws
                (fun i tl =>
                   x <- elem ;;
                   ret (tl ++ [Eigen.Triplet (at_index vec_r i)
                                             (at_index vec_c i) x]))
                (length vec_r) (length ys)
                (fun d => init ++ triplets_of (take d vec_r) (take d vec_c)
                                              (take d ys))
                (fun d => moved st (Z.of_nat d)) 0 e
                (moved st (Z.of_nat (S (length ys)))) Hly) as Hloop.
  cbn beta in Hloop. rewrite !take_0, moved_zero in Hloop.
  cbn [triplets_of] in Hloop. rewrite app_nil_r in Hloop.
  erewrite bind_throw; [reflexivity|].
  apply Hloop.
  - intros d Hd.
    destruct (lookup_lt_is_Some_2 ys d ltac:(lia)) as [y Hy].
    destruct (lookup_lt_is_Some_2 vec_r d ltac:(lia)) as [r Hr].
    destruct (lookup_lt_is_Some_2 vec_c d ltac:(lia)) as [c Hc].
    rewrite (bind_ok _ _ _ _ _ (Hround d y Hy)). unfold ret.
    rewrite Z.add_0_l.
    rewrite (at_index_lookup _ _ _ Hr), (at_index_lookup _ _ _ Hc).
    by rewrite (triplets_of_snoc _ _ _ _ _ _ _ Hr Hc Hy), app_assoc.
  - by rewrite (bind_throw _ _ _ _ _ Hthrow).
Qed.


Lemma scalar_round (st : reader) (d : nat) :
  wf st -> pos_ st + Z.of_nat d < size_r st ->
  scalar (moved st (Z.of_nat d)) =
    (Ok (elem_r st (pos_ st + Z.of_nat d)), moved st (Z.of_nat (S d))).
Proof.
  intros Hwf Hlt.
  assert (Hwf' : wf (moved st (Z.of_nat d))).
  { apply wf_advance; [done|]. apply wf_in_bounds; [done|lia|lia]. }
  rewrite scalar_some; [|done|unfold moved, size_r in *; simpl; lia].
  unfold moved. simpl. do 2 f_equal. lia.
Qed.

(** Round [d] of a plain batch read: the scalar is taken, then checked. *)
Lemma plain_round (chk : T -> outcome unit) (st : reader) (d : nat) :
  wf st -> pos_ st + Z.of_nat d < size_r st ->
  (x <- scalar ;; lift (chk x) ;; ret x) (moved st (Z.of_nat d)) =
    checked_value (chk (elem_r st (pos_ st + Z.of_nat d)))
      (elem_r st (pos_ st + Z.of_nat d)) (moved st (Z.of_nat (S d))).
Proof.
  intros Hwf Hlt.
  rewrite (bind_ok _ _ _ _ _ (scalar_round st d Hwf Hlt)).
  apply check_then_ret.
Qed.

Lemma plain_rounds_pass (chk : T -> outcome unit) (st : reader) (k : Z)
    (ys : list T) :
  wf st -> pos_ st + k <= size_r st ->
  (forall d y, ys !! d = Some y -> next_scalars st k !! d = Some y) ->
  Forall (fun x => chk x = Ok tt) ys ->
  forall d y, ys !! d = Some y ->
    round_of (x <- scalar ;; lift (chk x) ;; ret x) st d (Ok y).
Proof.
  intros Hwf Hin Hsub Hpass d y Hy. unfold round_of.
  pose proof (Hsub d y Hy) as Hy'.
  assert (Hd : Z.of_nat d < k).
  { apply lookup_lt_Some in Hy'. rewrite length_next_scalars in Hy'. lia. }
  replace d with (Z.to_nat (Z.of_nat d)) in Hy' at 1 by lia.
  rewrite lookup_next_scalars in Hy' by lia. injection Hy' as Hy'.
  rewrite plain_round by (done || lia). rewrite Hy'.
  by rewrite (proj1 (Forall_lookup _ _) Hpass d y Hy).
Qed.

Lemma plain_round_rejects (chk : T -> outcome unit) (st : reader) (k : Z)
    (j : nat) (x : T) (e : exn) :
  wf st -> pos_ st + k <= size_r st ->
  next_scalars st k !! j = Some x -> chk x = Throw e ->
  round_of (x <- scalar ;; lift (chk x) ;; ret x) st j (Throw e).
Proof.
  intros Hwf Hin Hx He. unfold round_of.
  assert (Hj : Z.of_nat j < k).
  { apply lookup_lt_Some in Hx. rewrite length_next_scalars in Hx. lia. }
  replace j with (Z.to_nat (Z.of_nat j)) in Hx at 1 by lia.
  rewrite lookup_next_scalars in Hx by lia. injection Hx as Hx.
  rewrite plain_round by (done || lia). by rewrite Hx, He.
Qed.

(** X15.  A plain batch read validates element by element and stops at the
    first rejection.  For the lower-bound forms with enough scalars left:
    when the predicate accepts every scalar, the read returns the scalars
    as they are ([sparse_matrix_lb] with exactly the listed triplets); when
    the predicate throws on the [j]-th scalar after accepting those before
    it, the read lets that exception through with the cursor one past the
    rejected scalar. *)
Theorem lower_bound_batch_stops_at_the_first_rejection (st : reader)
    (lb : TL) (vec_r vec_c : list Z) (n m : Z) :
  wf st -> 1 <= n -> 1 <= m ->
  let pass x := math.check_greater_or_equal x lb = Ok tt in
  (pos_ st + m <= size_r st ->
   let xs := next_scalars st m in
   (Forall pass xs ->
    vector_lb lb m st = (Ok xs, moved st m)
    /\ row_vector_lb lb m st = (Ok xs, moved st m))
   /\ (forall (j : nat) x e,
         xs !! j = Some x -> Forall pass (take j xs) ->
         math.check_greater_or_equal x lb = Throw e ->
         vector_lb lb m st = (Throw e, moved st (Z.of_nat j + 1))
         /\ row_vector_lb lb m st = (Throw e, moved st (Z.of_nat j + 1))))
  /\ (length vec_c = length vec_r ->
      pos_ st + Z.of_nat (length vec_r) <= size_r st ->
      let xs := next_scalars st (Z.of_nat (length vec_r)) in
      (Forall pass xs ->
       sparse_matrix_lb lb vec_r vec_c n m st =
         (Ok (Eigen.SparseMatrix n m (triplets_of vec_r vec_c xs)),
          moved st (Z.of_nat (length vec_r))))
      /\ (forall (j : nat) x e,
            xs !! j = Some x -> Forall pass (take j xs) ->
            math.check_greater_or_equal x lb = Throw e ->
            sparse_matrix_lb lb vec_r vec_c n m st =
              (Throw e, moved st (Z.of_nat j + 1)))).
Proof.
  intros Hwf Hn Hm pass. split.
  - intros Hin xs. split.
    + intros Hpass.
      assert (Hrun : fill_vector (scalar_lb lb) m st = (Ok xs, moved st m)).
      { apply fill_vector_rounds; [lia|apply length_next_scalars|].
        by apply (plain_rounds_pass
                    (fun x => math.check_greater_or_equal x lb) st m xs). }
      by split.
    + intros j x e Hx Hpass He.
      assert (Hj : (j < Z.to_nat m)%nat).
      { apply lookup_lt_Some in Hx. unfold xs in Hx.
        by rewrite length_next_scalars in Hx. }
      assert (Hlen : length (take j xs) = j).
      { rewrite length_take. unfold xs. rewrite length_next_scalars. lia. }
      assert (Hrun : fill_vector (scalar_lb lb) m st =
                     (Throw e, moved st (Z.of_nat j + 1))).
      { replace (Z.of_nat j + 1) with (Z.of_nat (S (length (take j xs))))
          by lia.
        apply fill_vector_stops; [lia| |].
        - apply (plain_rounds_pass
                   (fun x => math.check_greater_or_equal x lb) st m);
            try done.
          intros d y Hy. apply lookup_take_Some in Hy. apply Hy.
        - rewrite Hlen.
          by apply (plain_round_rejects
                      (fun x => math.check_greater_or_equal x lb) st m j x). }
      by split.
  - intros Hlc Hin xs. split.
    + intros Hpass. unfold sparse_matrix_lb, reserved.
      rewrite (sparse_read_rounds [] _ xs); try done.
      * unfold xs. rewrite length_next_scalars. lia.
      * by apply (plain_rounds_pass
                    (fun x => math.check_greater_or_equal x lb) st
                    (Z.of_nat (length vec_r)) xs).
    + intros j x e Hx Hpass He.
      assert (Hj : (j < length vec_r)%nat).
      { apply lookup_lt_Some in Hx. unfold xs in Hx.
        rewrite length_next_scalars in Hx. lia. }
      assert (Hlen : length (take j xs) = j).
      { rewrite length_take. unfold xs. rewrite length_next_scalars. lia. }
      unfold sparse_matrix_lb, reserved.
      replace (Z.of_nat j + 1) with (Z.of_nat (S (length (take j xs))))
        by lia.
      apply sparse_read_stops; try done; [lia| |].
      * apply (plain_rounds_pass
                 (fun x => math.check_greater_or_equal x lb) st
                 (Z.of_nat (length vec_r)));
          try done.
        intros d y Hy. apply lookup_take_Some in Hy. apply Hy.
      * rewrite Hlen.
        by apply (plain_round_rejects
                    (fun x => math.check_greater_or_equal x lb) st
                    (Z.of_nat (length vec_r)) j x).
Qed.


Lemma length_triplets_of (vec_r vec_c : list Z) (xs : list T) :
  length vec_c = length vec_r -> length xs = length vec_r ->
  length (triplets_of vec_r vec_c xs) = length vec_r.
Proof.
  revert vec_c xs. induction vec_r as [|r vec_r IH]; intros vec_c xs Hc Hx.
  - done.
  - destruct vec_c as [|c vec_c], xs as [|x xs]; try done.
    simpl in *. f_equal. apply IH; lia.
Qed.

(** X16.  A constrain batch read is the transform applied to what the bulk
    read would return, element by element and in reading order.  For the
    lower-upper-bound forms, with enough scalars left and a transform that
    returns: the vector forms return the transformed scalars in order, the
    matrix form stores them column by column, and the sparse form appends
    one triplet per listed nonzero with the transformed scalar. *)
Theorem lower_upper_bound_batch_is_elementwise (st : reader) (lb : TL)
    (ub : TU) (h : T -> T) (vec_r vec_c : list Z) (n m : Z) :
  wf st -> 1 <= n -> 1 <= m ->
  (forall x, math.lub_constrain x lb ub = Ok (h x)) ->
  (pos_ st + m <= size_r st ->
   vector_lub_constrain lb ub m st =
     (Ok (h <$> next_scalars st m), moved st m)
   /\ row_vector_lub_constrain lb ub m st =
        (Ok (h <$> next_scalars st m), moved st m))
  /\ (pos_ st + n * m <= size_r st ->
      matrix_lub_constrain lb ub n m st =
        (Ok (Eigen.Matrix n m (h <$> next_scalars st (n * m))),
         moved st (n * m))
      /\ forall i j, 0 <= i < n -> 0 <= j < m ->
           Eigen.coeff
             (Eigen.Matrix n m (h <$> next_scalars st (n * m))) i j =
             Some (h (elem_r st (pos_ st + (j * n + i)))))
  /\ (length vec_c = length vec_r ->
      pos_ st + Z.of_nat (length vec_r) <= size_r st ->
      sparse_matrix_lub_constrain lb ub vec_r vec_c n m st =
        (Ok (Eigen.SparseMatrix n m
               (presized vec_r ++
                triplets_of vec_r vec_c
                  (h <$> next_scalars st (Z.of_nat (length vec_r))))),
         moved st (Z.of_nat (length vec_r)))).
Proof.
  intros Hwf Hn Hm Hh.
  pose proof (element_read_transform _ h Hh) as Helem.
  split; [|split].
  - intros Hin.
    split; apply (fill_vector_in_order _ h m st); (done || lia).
  - intros Hin.
    apply (fill_matrix_column_major _ h n m st); (done || lia).
  - intros Hlc Hin.
    by apply (sparse_read_in_order _ _ h).
Qed.

(** X17.  [sparse_matrix] hands [setFromTriplets] twice as many triplets
    as nonzeros are listed: the list is created with [vec_r.size()]
    default-built triplets [(0, 0, T(0))] and the triplets read are
    emplaced behind them. *)
Theorem sparse_matrix_triplets_follow_default_ones (st : reader)
    (vec_r vec_c : list Z) (n m : Z) :
  wf st -> 1 <= n -> 1 <= m -> length vec_c = length vec_r ->
  pos_ st + Z.of_nat (length vec_r) <= SizeT.SIZE_MAX ->
  exists built,
    sparse_matrix vec_r vec_c n m st =
      (Ok (Eigen.SparseMatrix n m built), moved st (Z.of_nat (length vec_r)))
    /\ length built = (2 * length vec_r)%nat
    /\ take (length vec_r) built =
         replicate (length vec_r) (Eigen.Triplet 0 0 zero)
    /\ drop (length vec_r) built =
         triplets_of vec_r vec_c
           (next_scalars st (Z.of_nat (length vec_r))).
Proof.
  intros Hwf Hn Hm Hlc Hle.
  assert (Hfit : fits st (Z.of_nat (length vec_r))) by (split; lia).
  eexists. split; [by apply sparse_matrix_run|].
  assert (Hp : length (presized vec_r) = length vec_r)
    by apply length_replicate.
  split; [|split].
  - rewrite length_app, Hp, length_triplets_of; [lia|done|].
    rewrite length_next_scalars. lia.
  - rewrite take_app_length'; done.
  - rewrite drop_app_length'; done.
Qed.


(** *** The log-probability accumulator of the batch reads *)

Lemma lp_round (elem : T -> M (T * T)) (h : T -> T) (g : T -> T -> T)
    (st : reader) (d : nat) (lp : T) :
  element_read_lp elem h g -> wf st -> pos_ st + Z.of_nat d < size_r st ->
  elem lp (moved st (Z.of_nat d)) =
    (Ok (h (elem_r st (pos_ st + Z.of_nat d)),
         g lp (elem_r st (pos_ st + Z.of_nat d))),
     moved st (Z.of_nat (S d))).
Proof.
  intros Helem Hwf Hlt.
  assert (Hwf' : wf (moved st (Z.of_nat d))).
  { apply wf_advance; [done|]. apply wf_in_bounds; [done|lia|lia]. }
  rewrite (Helem lp _ Hwf') by (unfold moved, size_r in *; simpl; lia).
  unfold moved. simpl. f_equal. f_equal. lia.
Qed.

Lemma element_read_lp_transform (f : T -> T -> outcome (T * T))
    (h : T -> T) (g : T -> T -> T) :
  (forall x lp, f x lp = Ok (h x, g lp x)) ->
  element_read_lp (fun lp => x <- scalar ;; lift (f x lp)) h g.
Proof.
  intros Hf lp st Hwf Hlt.
  rewrite (bind_ok _ _ _ _ _ (scalar_some st Hwf Hlt)).
  unfold lift. by rewrite Hf.
Qed.

Lemma next_scalar_at (st : reader) (k : Z) (d : nat) :
  Z.of_nat d < k ->
  next_scalars st k !! d = Some (elem_r st (pos_ st + Z.of_nat d)).
Proof.
  intros Hd. rewrite <- (Nat2Z.id d) at 1. apply lookup_next_scalars. lia.
Qed.

Lemma foldl_take_S {A B} (g : A -> B -> A) (a : A) (xs : list B) (d : nat)
    (x : B) :
  xs !! d = Some x -> foldl g a (take (S d) xs) = g (foldl g a (take d xs)) x.
Proof. intros Hx. by rewrite (take_S_r _ _ _ Hx), foldl_app. Qed.

Lemma fill_vector_lp_in_order (elem : T -> M (T * T)) (h : T -> T)
    (g : T -> T -> T) (m : Z) (lp : T) (st : reader) :
  element_read_lp elem h g -> wf st -> 0 <= m ->
  pos_ st + m <= size_r st ->
  fill_vector_lp elem m lp st =
    (Ok (h <$> next_scalars st m, foldl g lp (next_scalars st m)),
     moved st m).
Proof.
  intros Helem Hwf Hm Hin. unfold fill_vector_lp, Vector_new.
  set (init := replicate (Z.to_nat m) indet).
  set (xs := next_scalars st m).
  assert (Hlx : length xs = Z.to_nat m) by apply length_next_scalars.
  pose proof (for_loop_rounds
                (fun i acc =>
                   r <- elem (snd acc) ;;
                   ret (<[Z.to_nat i := fst r]> (fst acc), snd r))
                (Z.to_nat m)
                (fun d => (take d (h <$> xs) ++ drop d init,
                           foldl g lp (take d xs)))
                (fun d => moved st (Z.of_nat d)) 0) as Hloop.
  cbn beta in Hloop. rewrite !take_0, drop_0, moved_zero in Hloop.
  cbn [app foldl] in Hloop. unfold Eigen.vector_t. rewrite Hloop.
  - rewrite !take_ge, drop_ge
      by (unfold init; rewrite ?length_fmap, ?length_replicate; lia).
    rewrite app_nil_r. by rewrite Z2Nat.id.
  - intros d Hd.
    assert (Hx : xs !! d = Some (elem_r st (pos_ st + Z.of_nat d)))
      by (apply next_scalar_at; lia).
    rewrite (bind_ok _ _ _ _ _
               (lp_round elem h g st d _ Helem Hwf ltac:(lia))).
    unfold ret. cbn [fst snd]. rewrite Z.add_0_l, Nat2Z.id.
    rewrite (insert_next_cell (h <$> xs) init d
               (h (elem_r st (pos_ st + Z.of_nat d))));
      [|by rewrite list_lookup_fmap, Hx
       |unfold init; rewrite length_replicate; lia].
    by rewrite (foldl_take_S _ _ _ _ _ Hx).
Qed.

Lemma fill_matrix_lp_column_major (elem : T -> M (T * T)) (h : T -> T)
    (g : T -> T -> T) (n m : Z) (lp : T) (st : reader) :
  element_read_lp elem h g -> wf st -> 0 <= n -> 0 <= m ->
  pos_ st + n * m <= size_r st ->
  fill_matrix_lp elem n m lp st =
    (Ok (Eigen.Matrix n m (h <$> next_scalars st (n * m)),
         foldl g lp (next_scalars st (n * m))),
     moved st (n * m)).
Proof.
  intros Helem Hwf Hn Hm Hin. unfold fill_matrix_lp, Matrix_new.
  set (N := Z.to_nat n).
  set (init := replicate (Z.to_nat (n * m)) indet).
  set (xs := next_scalars st (n * m)).
  assert (Hlx : length xs = Z.to_nat (n * m)) by apply length_next_scalars.
  assert (HN : Z.of_nat N = n) by (unfold N; lia).
  set (acc_at := fun k : nat =>
                   (Eigen.Matrix n m (take k (h <$> xs) ++ drop k init),
                    foldl g lp (take k xs))).
  pose proof (for_loop_rounds
                (fun j acc =>
                   for_loop N 0
                     (fun i acc =>
                        r <- elem (snd acc) ;;
                        ret (Eigen.set_coeff (fst acc) i j (fst r), snd r))
                     acc)
                (Z.to_nat m)
                (fun j => acc_at (j * N)%nat)
                (fun j => moved st (Z.of_nat (j * N))) 0) as Hloop.
  cbn beta in Hloop.
  assert (H0 : acc_at (0 * N)%nat = (Eigen.Matrix n m init, lp)).
  { unfold acc_at. cbn [Nat.mul]. by rewrite !take_0, drop_0. }
  rewrite H0 in Hloop. change (Z.of_nat (0 * N)) with 0 in Hloop.
  rewrite moved_zero in Hloop. rewrite Hloop.
  - unfold acc_at.
    rewrite !take_ge, drop_ge
      by (unfold init; rewrite ?length_fmap, ?length_replicate; nia).
    rewrite app_nil_r. do 2 f_equal. nia.
  - intros j Hj.
    pose proof (for_loop_rounds
                  (fun i acc =>
                     r <- elem (snd acc) ;;
                     ret (Eigen.set_coeff (fst acc) i (0 + Z.of_nat j)
                            (fst r), snd r))
                  N
                  (fun i => acc_at (j * N + i)%nat)
                  (fun i => moved st (Z.of_nat (j * N + i))) 0) as Hcol.
    cbn beta in Hcol. rewrite Nat.add_0_r in Hcol.
    replace (S j * N)%nat with (j * N + N)%nat by lia.
    apply Hcol. intros i Hi.
    assert (Hk : Z.of_nat (j * N + i) < n * m) by nia.
    assert (Hx : xs !! (j * N + i)%nat =
                 Some (elem_r st (pos_ st + Z.of_nat (j * N + i))))
      by (by apply next_scalar_at).
    unfold acc_at. cbn [fst snd].
    rewrite (bind_ok _ _ _ _ _
               (lp_round elem h g st (j * N + i) _ Helem Hwf ltac:(lia))).
    unfold ret, Eigen.set_coeff, Eigen.storage_index.
    cbn [fst snd Eigen.rows Eigen.cols Eigen.coeffs].
    replace (Z.to_nat ((0 + Z.of_nat j) * n + (0 + Z.of_nat i)))
      with (j * N + i)%nat by nia.
    rewrite (insert_next_cell (h <$> xs) init (j * N + i)
               (h (elem_r st (pos_ st + Z.of_nat (j * N + i)))));
      [|by rewrite list_lookup_fmap, Hx
       |unfold init; rewrite length_replicate; lia].
    replace (j * N + S i)%nat with (S (j * N + i)) by lia.
    by rewrite (foldl_take_S _ _ _ _ _ Hx).
Qed.

Lemma sparse_read_lp_in_order (init : list (Eigen.triplet_type T))
    (elem : T -> M (T * T)) (h : T -> T) (g : T -> T -> T)
    (vec_r vec_c : list Z) (n m : Z) (lp : T) (st : reader) :
  element_read_lp elem h g -> wf st -> 1 <= n -> 1 <= m ->
  length vec_c = length vec_r ->
  pos_ st + Z.of_nat (length vec_r) <= size_r st ->
  sparse_read_lp init elem vec_r vec_c n m lp st =
    (Ok (Eigen.SparseMatrix n m
           (init ++ triplets_of vec_r vec_c
                      (h <$> next_scalars st (Z.of_nat (length vec_r)))),
         foldl g lp (next_scalars st (Z.of_nat (length vec_r)))),
     moved st (Z.of_nat (length vec_r))).
Proof.
  intros Helem Hwf Hn Hm Hlc Hin. unfold sparse_read_lp, triplet_loop_lp.
  destruct (Z.eqb_spec m 0); [lia|]. destruct (Z.eqb_spec n 0); [lia|].
  simpl.
  set (xs := next_scalars st (Z.of_nat (length vec_r))).
  assert (Hlx : length xs = length vec_r).
  { unfold xs. rewrite length_next_scalars. lia. }
  pose proof (for_loop_rounds
                (fun i acc =>
                   r <- elem (snd acc) ;;
                   ret (fst acc ++
                          [Eigen.Triplet (at_index vec_r i)
                                         (at_index vec_c i) (fst r)],
                        snd r))
                (length vec_r)
                (fun d => (init ++ triplets_of (take d vec_r) (take d vec_c)
                                               (take d (h <$> xs)),
                           foldl g lp (take d xs)))
                (fun d => moved st (Z.of_nat d)) 0) as Hloop.
  cbn beta in Hloop. rewrite !take_0, moved_zero in Hloop.
  cbn [triplets_of foldl] in Hloop. rewrite app_nil_r in Hloop.
  erewrite bind_ok; cycle 1.
  { apply Hloop. intros d Hd.
    assert (Hx : xs !! d = Some (elem_r st (pos_ st + Z.of_nat d)))
      by (apply next_scalar_at; lia).
    destruct (lookup_lt_is_Some_2 vec_r d ltac:(lia)) as [r Hr].
    destruct (lookup_lt_is_Some_2 vec_c d ltac:(lia)) as [c Hc].
    rewrite (bind_ok _ _ _ _ _
               (lp_round elem h g st d _ Helem Hwf ltac:(lia))).
    unfold ret. cbn [fst snd]. rewrite Z.add_0_l.
    rewrite (at_index_lookup _ _ _ Hr), (at_index_lookup _ _ _ Hc).
    rewrite (triplets_of_snoc vec_r vec_c (h <$> xs) d r c
               (h (elem_r st (pos_ st + Z.of_nat d))) Hr Hc)
      by (by rewrite list_lookup_fmap, Hx).
    by rewrite (foldl_take_S _ _ _ _ _ Hx), app_assoc. }
  unfold ret, Eigen.setFromTriplets, SparseMatrix_new. simpl.
  rewrite triplets_of_all.
  by rewrite (take_ge xs) by lia.
Qed.

(** X18.  The [lp] overloads of the batch reads thread the accumulator
    through the reads in the order in which the scalars are consumed.
    For the lower-bound forms, with enough scalars left and a transform
    that returns: the value is the one the form without [lp] returns
    (the transformed scalars, column by column for a matrix) and the
    final [lp] is the left fold of the per-scalar update over the scalars
    read, first scalar first. *)
Theorem lower_bound_batch_accumulates_lp_in_reading_order (st : reader)
    (lb : TL) (h : T -> T) (g : T -> T -> T) (vec_r vec_c : list Z)
    (n m : Z) (lp : T) :
  wf st -> 1 <= n -> 1 <= m ->
  (forall x lp, math.lb_constrain_lp x lb lp = Ok (h x, g lp x)) ->
  (pos_ st + m <= size_r st ->
   vector_lb_constrain_lp lb m lp st =
     (Ok (h <$> next_scalars st m, foldl g lp (next_scalars st m)),
      moved st m)
   /\ row_vector_lb_constrain_lp lb m lp st =
        (Ok (h <$> next_scalars st m, foldl g lp (next_scalars st m)),
         moved st m))
  /\ (pos_ st + n * m <= size_r st ->
      matrix_lb_constrain_lp lb n m lp st =
        (Ok (Eigen.Matrix n m (h <$> next_scalars st (n * m)),
             foldl g lp (next_scalars st (n * m))),
         moved st (n * m)))
  /\ (length vec_c = length vec_r ->
      pos_ st + Z.of_nat (length vec_r) <= size_r st ->
      sparse_matrix_lb_constrain_lp lb vec_r vec_c n m lp st =
        (Ok (Eigen.SparseMatrix n m
               (presized vec_r ++
                triplets_of vec_r vec_c
                  (h <$> next_scalars st (Z.of_nat (length vec_r)))),
             foldl g lp (next_scalars st (Z.of_nat (length vec_r)))),
         moved st (Z.of_nat (length vec_r)))).
Proof.
  intros Hwf Hn Hm Hh.
  pose proof (element_read_lp_transform
                (fun x lp => math.lb_constrain_lp x lb lp) h g Hh) as Helem.
  split; [|split].
  - intros Hin.
    split; apply (fill_vector_lp_in_order _ h g); (done || lia).
  - intros Hin.
    apply (fill_matrix_lp_column_major _ h g); (done || lia).
  - intros Hlc Hin.
    by apply (sparse_read_lp_in_order _ _ h g).
Qed.


(** *** Batch reads of no elements *)

Lemma for_loop_skips {A} (body : Z -> A -> M A) (count : nat) (i : Z)
    (acc : A) (st : reader) :
  (forall i acc st, body i acc st = (Ok acc, st)) ->
  for_loop count i body acc st = (Ok acc, st).
Proof.
  intros Hbody. revert i. induction count as [|count IH]; intros i.
  - done.
  - cbn [for_loop]. by rewrite (bind_ok _ _ _ _ _ (Hbody i acc st)).
Qed.

Lemma Matrix_new_empty (n m : Z) :
  n = 0 \/ m = 0 -> Matrix_new n m = Eigen.Matrix n m [].
Proof.
  intros Hz. unfold Matrix_new.
  by replace (n * m) with 0 by (destruct Hz; subst; lia).
Qed.

Lemma fill_matrix_none (elem : M T) (n m : Z) (st : reader) :
  n = 0 \/ m = 0 ->
  fill_matrix elem n m st = (Ok (Eigen.Matrix n m []), st).
Proof.
  intros Hz. unfold fill_matrix. rewrite (Matrix_new_empty n m Hz).
  destruct Hz as [-> | ->]; [|done].
  by apply for_loop_skips.
Qed.

Lemma fill_matrix_lp_none (elem : T -> M (T * T)) (n m : Z) (lp : T)
    (st : reader) :
  n = 0 \/ m = 0 ->
  fill_matrix_lp elem n m lp st = (Ok (Eigen.Matrix n m [], lp), st).
Proof.
  intros Hz. unfold fill_matrix_lp. rewrite (Matrix_new_empty n m Hz).
  destruct Hz as [-> | ->]; [|done].
  by apply for_loop_skips.
Qed.

Lemma sparse_read_none (init : list (Eigen.triplet_type T)) (elem : M T)
    (vec_r vec_c : list Z) (n m : Z) (st : reader) :
  n = 0 \/ m = 0 ->
  sparse_read init elem vec_r vec_c n m st =
    (Ok (Eigen.SparseMatrix n m []), st).
Proof.
  intros Hz. unfold sparse_read.
  replace ((m =? 0) || (n =? 0)) with true; [done|].
  destruct Hz as [-> | ->]; [by rewrite orb_true_r|done].
Qed.

Lemma sparse_read_lp_none (init : list (Eigen.triplet_type T))
    (elem : T -> M (T * T)) (vec_r vec_c : list Z) (n m : Z) (lp : T)
    (st : reader) :
  n = 0 \/ m = 0 ->
  sparse_read_lp init elem vec_r vec_c n m lp st =
    (Ok (Eigen.SparseMatrix n m [], lp), st).
Proof.
  intros Hz. unfold sparse_read_lp.
  replace ((m =? 0) || (n =? 0)) with true; [done|].
  destruct Hz as [-> | ->]; [by rewrite orb_true_r|done].
Qed.

(** X19.  A batch read of no elements reads nothing and cannot throw, in
    whatever state the reader is, exhausted or not.  For the upper-bound
    forms with a dimension that is zero: the dense matrix forms return
    the matrix of those dimensions without storage, the sparse forms
    return the matrix without triplets however many nonzeros the index
    lists name, both cursors stay where they are, and the [lp] overloads
    hand [lp] back unchanged. *)
Theorem upper_bound_batch_of_no_elements_reads_nothing (st : reader)
    (ub : TU) (vec_r vec_c : list Z) (n m : Z) (lp : T) :
  n = 0 \/ m = 0 ->
  matrix_ub ub n m st = (Ok (Eigen.Matrix n m []), st)
  /\ matrix_ub_constrain ub n m st = (Ok (Eigen.Matrix n m []), st)
  /\ matrix_ub_constrain_lp ub n m lp st =
       (Ok (Eigen.Matrix n m [], lp), st)
  /\ sparse_matrix_ub ub vec_r vec_c n m st =
       (Ok (Eigen.SparseMatrix n m []), st)
  /\ sparse_matrix_ub_constrain ub vec_r vec_c n m st =
       (Ok (Eigen.SparseMatrix n m []), st)
  /\ sparse_matrix_ub_constrain_lp ub vec_r vec_c n m lp st =
       (Ok (Eigen.SparseMatrix n m [], lp), st).
Proof.
  intros Hz. repeat split.
  - by apply fill_matrix_none.
  - by apply fill_matrix_none.
  - by apply fill_matrix_lp_none.
  - by apply sparse_read_none.
  - by apply sparse_read_none.
  - by apply sparse_read_lp_none.
Qed.


End Facts.

(** ** The facts on concrete readers *)

#[local] Existing Instances Demo.machine Demo.lib.

Ltac concrete_wf :=
  unfold wf, fits, SizeT.in_range, size_r, size_i; simpl;
  rewrite ?size_max_value; repeat split; lia.
Ltac known H := vm_compute in H; injection H as H; subst.
Ltac concrete :=
  first [ lia | done | vm_compute; first [ reflexivity | discriminate ] ].

(** Scenario A: integers [3, 5]; the reads give [3], then [5], then the
    exhaustion error; a reader without scalars throws on [scalar()]. *)
Lemma single_reads_check_then_advance_witness :
  wf (Demo.start [10; 20] [3; 5])
  /\ scalar (Demo.start [10; 20] [3; 5]) = (Ok 10, Reader [10; 20] [3; 5] 1 0)
  /\ integer (Demo.start [10; 20] [3; 5]) = (Ok 3, Reader [10; 20] [3; 5] 0 1)
  /\ integer (Reader [10; 20] [3; 5] 0 1) = (Ok 5, Reader [10; 20] [3; 5] 0 2)
  /\ integer (Reader [10; 20] [3; 5] 0 2) =
       (Throw BufferExhausted_i, Reader [10; 20] [3; 5] 0 2)
  /\ scalar (Reader [10; 20] [3; 5] 2 2) =
       (Throw BufferExhausted_r, Reader [10; 20] [3; 5] 2 2).
Proof.
  assert (H0 : wf (Demo.start [10; 20] [3; 5])) by concrete_wf.
  assert (H1 : wf (Reader [10; 20] [3; 5] 0 1)) by concrete_wf.
  assert (H2 : wf (Reader [10; 20] [3; 5] 0 2)) by concrete_wf.
  assert (H3 : wf (Reader [10; 20] [3; 5] 2 2)) by concrete_wf.
  split; [exact H0|].
  destruct (single_reads_check_then_advance _ H0) as (Hs & _ & Hi & _).
  destruct Hs as (x & Hx & Hs); [concrete|].
  destruct Hi as (i & Hi & Hi'); [concrete|].
  known Hx. known Hi. split; [exact Hs|]. split; [exact Hi'|].
  destruct (single_reads_check_then_advance _ H1) as (_ & _ & Hi & _).
  destruct Hi as (i & Hi & Hi''); [concrete|].
  known Hi. split; [exact Hi''|].
  destruct (single_reads_check_then_advance _ H2) as (_ & _ & _ & Hend).
  split; [apply Hend; concrete|].
  destruct (single_reads_check_then_advance _ H3) as (_ & Hend' & _).
  apply Hend'; concrete.
Defined.

(** Scenario B: the next scalars are [1, 2, 3, 4, 5, 6]. *)
Lemma matrix_column_major_witness :
  wf (Demo.start [1; 2; 3; 4; 5; 6] [])
  /\ exists v,
      matrix 2 3 (Demo.start [1; 2; 3; 4; 5; 6] []) =
        (Ok v, Reader [1; 2; 3; 4; 5; 6] [] 6 0)
      /\ Eigen.rows v = 2 /\ Eigen.cols v = 3
      /\ Eigen.row v 0 = [Some 1; Some 3; Some 5]
      /\ Eigen.row v 1 = [Some 2; Some 4; Some 6]
      /\ Eigen.col v 0 = [Some 1; Some 2]
      /\ Eigen.col v 1 = [Some 3; Some 4]
      /\ Eigen.col v 2 = [Some 5; Some 6].
Proof.
  assert (H0 : wf (Demo.start [1; 2; 3; 4; 5; 6] [])) by concrete_wf.
  split; [exact H0|].
  destruct (matrix_column_major (Demo.start [1; 2; 3; 4; 5; 6] []) 2 3 H0)
    as (v & Hrun & _ & Hr & Hc & _ & _ & _ & Hrows);
    [lia|lia|concrete|].
  exists v. split; [exact Hrun|]. split; [exact Hr|]. split; [exact Hc|].
  apply (Hrows 1 2 3 4 5 6); reflexivity.
Defined.

(** Scenario C and the rest of the table at [k = 3], [n = 3], [m = 2]. *)
Lemma constrained_reads_consume_by_dimension_witness :
  let st := Demo.start [1; 2; 3; 4; 5; 6; 7; 8; 9; 10] [] in
  wf st
  /\ consumed (simplex_constrain 3) st = 2
  /\ consumed (unit_vector_constrain 3) st = 3
  /\ consumed (ordered_constrain 3) st = 3
  /\ consumed (positive_ordered_constrain 3) st = 3
  /\ consumed (cholesky_factor_cov_constrain 3 2) st = 5
  /\ consumed (cholesky_factor_corr_constrain 3) st = 3
  /\ consumed (cov_matrix_constrain 3) st = 6
  /\ consumed (corr_matrix_constrain 3) st = 3
  /\ consumed (simplex 3) st = 3
  /\ consumed (cholesky_factor_cov 3 2) st = 6
  /\ consumed (cov_matrix 3) st = 9.
Proof.
  intros st. assert (H0 : wf st) by (subst st; concrete_wf).
  split; [exact H0|].
  destruct (constrained_reads_consume_by_dimension st 3 2 3 0 H0)
    as (Hvec & Hsimplex & Hcov & Hsq).
  destruct Hvec as (Hu & _ & Ho & _ & Hp & _ & _ & Hs & _);
    [lia|concrete|].
  destruct Hsimplex as (Hsc & _);
    [lia|concrete|].
  destruct Hcov as (Hcc & _ & Hcp);
    [lia|concrete|].
  destruct Hsq as (Hkc & _ & Hvc & _ & Hrc & _ & _ & Hvp & _);
    [lia|concrete|].
  unfold consumed.
  rewrite Hsc, Hu, Ho, Hp, Hcc, Hkc, Hvc, Hrc, Hs, Hcp, Hvp.
  repeat split.
Defined.


(** Scenario D: bounds [(2, 5)] and the next integer [7]; and the same
    integer with the inconsistent bounds [(5, 2)]. *)
Lemma integer_bounds_consume_then_validate_witness :
  let st := Demo.start [] [7] in
  wf st /\ int_pos_ st < size_i st
  /\ integer_lub 2 5 st = (Throw AboveUpperBound, Reader [] [7] 0 1)
  /\ integer_lub 5 2 st = (Throw BoundInconsistent, Reader [] [7] 0 1)
  /\ integer_lb 8 st = (Throw BelowLowerBound, Reader [] [7] 0 1)
  /\ integer_ub 7 st = (Ok 7, Reader [] [7] 0 1).
Proof.
  intros st. assert (H0 : wf st) by (subst st; concrete_wf).
  assert (H1 : int_pos_ st < size_i st) by (subst st; vm_compute; reflexivity).
  split; [exact H0|]. split; [exact H1|].
  destruct (integer_bounds_consume_then_validate st 2 5 H0 H1)
    as (i & Hi & _ & _ & Hub & _).
  known Hi.
  destruct (integer_bounds_consume_then_validate st 5 2 H0 H1)
    as (i & Hi & Hinc & _).
  known Hi.
  destruct (integer_bounds_consume_then_validate st 8 7 H0 H1)
    as (i & Hi & _ & _ & _ & _ & _ & _ & Hlb & _ & _ & Hok).
  known Hi.
  split; [apply Hub; lia|]. split; [apply Hinc; lia|].
  split; [apply Hlb; lia|apply Hok; lia].
Defined.

(** Two nonzeros listed out of order in a 2 by 2 matrix; and the same lists
    with no row. *)
Lemma sparse_matrix_reads_listed_nonzeros_witness :
  let st := Demo.start [5; 6; 7] [] in
  wf st
  /\ consumed (sparse_matrix [1; 0] [0; 1] 2 2) st = 2
  /\ (exists head,
        sparse_matrix [1; 0] [0; 1] 2 2 st =
          (Ok (Eigen.SparseMatrix 2 2
                 (head ++ [Eigen.Triplet 1 0 5; Eigen.Triplet 0 1 6])),
           Reader [5; 6; 7] [] 2 0))
  /\ sparse_matrix [1; 0] [0; 1] 0 2 st = (Ok (Eigen.SparseMatrix 0 2 []), st).
Proof.
  intros st. assert (H0 : wf st) by (subst st; concrete_wf).
  split; [exact H0|].
  destruct (sparse_matrix_reads_listed_nonzeros st [1; 0] [0; 1] 2 2 H0)
    as (Hpos & _); [done|concrete|].
  destruct Hpos as (Hcount & Hrun & _); [lia|lia|].
  split; [exact Hcount|]. split; [exact Hrun|].
  destruct (sparse_matrix_reads_listed_nonzeros st [1; 0] [0; 1] 0 2 H0)
    as (_ & Hzero); [done|concrete|].
  apply Hzero. by left.
Defined.

(** The claim that [sparse_matrix] always reads [vec_r.size()] scalars
    fails on a matrix without rows: one nonzero is listed, nothing is
    read. *)
Lemma sparse_matrix_without_rows_reads_nothing :
  let st := Demo.start [7] [] in
  wf st
  /\ length [0] = length [0]
  /\ sparse_matrix [0] [0] 0 1 st = (Ok (Eigen.SparseMatrix 0 1 []), st)
  /\ consumed (sparse_matrix [0] [0] 0 1) st <> Z.of_nat (length [0]).
Proof.
  intros st. split; [subst st; concrete_wf|].
  split; [reflexivity|]. split; [reflexivity|].
  vm_compute. discriminate.
Qed.



(** C8 at a concrete call.  With the transform [x |-> offset +
    multiplier * x], offset [1], multiplier [3] and the next scalar [2]:
    [scalar_offset_multiplier_constrain] returns [7], and
    [sparse_matrix_offset_multiplier_constrain] for the single nonzero
    [(0, 0)] stores the raw [2], behind a default-built triplet; both leave
    the cursor one further. *)
Theorem sparse_offset_multiplier_constrain_stores_raw_scalar :
  let st := Demo.start [2] [] in
  scalar_offset_multiplier_constrain 1 3 st = (Ok 7, Reader [2] [] 1 0)
  /\ sparse_matrix_offset_multiplier_constrain 1 3 [0] [0] 1 1 st =
       (Ok (Eigen.SparseMatrix 1 1
              [Eigen.Triplet 0 0 0; Eigen.Triplet 0 0 2]),
        Reader [2] [] 1 0)
  /\ sparse_matrix_offset_multiplier_constrain 1 3 [0] [0] 1 1 st =
       sparse_matrix_offset_multiplier 1 3 [0] [0] 1 1 st.
Proof. repeat split. Qed.

(** ** The further facts on concrete readers *)

Ltac concrete_in_bounds :=
  unfold in_bounds, size_r, size_i; simpl; lia.

(** X1 with one scalar read out of three and both integers read. *)
Lemma available_counts_what_is_left_witness :
  let st := Reader [10; 20; 30] [3; 5] 1 2 in
  wf st /\ in_bounds st
  /\ available st = 2 /\ available_i st = 0
  /\ integer st = (Throw BufferExhausted_i, st)
  /\ available (final (scalar : M Z Z) st) = 1.
Proof.
  intros st. assert (H0 : wf st) by (subst st; concrete_wf).
  assert (Hib : in_bounds st) by (subst st; concrete_in_bounds).
  destruct (available_counts_what_is_left st H0 Hib)
    as (Ha & Hai & _ & Hz & Hdec & _).
  split; [exact H0|]. split; [exact Hib|].
  split; [exact Ha|]. split; [exact Hai|].
  split; [apply Hz; exact Hai|].
  apply Hdec. subst st. concrete.
Defined.

(** X2: five scalars asked of a reader that holds two. *)
Lemma available_wraps_after_over_read_witness :
  let st := Demo.start [1; 2] [] in
  let st' := final (vector 5) st in
  wf st /\ in_bounds st
  /\ pos_ st' = 5
  /\ available st' = SizeT.modulus - 3
  /\ scalar st' = (Throw BufferExhausted_r, st').
Proof.
  intros st st'. assert (H0 : wf st) by (subst st; concrete_wf).
  assert (Hib : in_bounds st) by (subst st; concrete_in_bounds).
  pose proof (available_wraps_after_over_read st 5 H0 Hib) as H.
  cbv zeta in H.
  destruct H as (Hp & Ha & _ & Hs);
    [subst st; concrete|subst st; concrete|].
  split; [exact H0|]. split; [exact Hib|].
  split; [exact Hp|]. split; [exact Ha|]. exact Hs.
Defined.

(** X4: a bulk read within the data and a batch read that runs out. *)
Lemma cursors_stay_in_bounds_witness :
  let st := Demo.start [1; 2; 3] [4] in
  let bulk : call Z Z Z Z := call_matrix 2 1 in
  let batch : call Z Z Z Z := call_vector_lb_constrain 0 5 in
  wf st /\ in_bounds st
  /\ in_bounds (exec bulk st) /\ in_bounds (exec batch st).
Proof.
  intros st bulk batch. assert (H0 : wf st) by (subst st; concrete_wf).
  assert (Hib : in_bounds st) by (subst st; concrete_in_bounds).
  split; [exact H0|]. split; [exact Hib|]. split.
  - apply (cursors_stay_in_bounds bulk st H0 Hib); subst st bulk; concrete.
  - apply (cursors_stay_in_bounds batch st H0 Hib); subst st batch; concrete.
Defined.

(** X5: a bulk read past the end of the scalars leaves the integer cursor
    within the integers. *)
Lemma integer_cursor_never_passes_the_end_witness :
  let st := Demo.start [1] [4] in
  let bulk : call Z Z Z Z := call_vector 3 in
  wf st /\ pos_ (exec bulk st) = 3
  /\ int_pos_ (exec bulk st) <= size_i (exec bulk st).
Proof.
  intros st bulk. assert (H0 : wf st) by (subst st; concrete_wf).
  split; [exact H0|]. split; [reflexivity|].
  apply (integer_cursor_never_passes_the_end bulk st H0).
  subst st. concrete.
Defined.

(** X6: one scalar and then two, against three at once. *)
Lemma vector_reads_compose_witness :
  let st := Demo.start [1; 2; 3] [] in
  wf st
  /\ exists v1 v2 st1 st2,
       vector 1 st = (Ok v1, st1)
       /\ vector 2 st1 = (Ok v2, st2)
       /\ vector (1 + 2) st = (Ok (v1 ++ v2), st2)
       /\ std_vector (1 + 2) st = (Ok (v1 ++ v2), st2).
Proof.
  intros st. assert (H0 : wf st) by (subst st; concrete_wf).
  split; [exact H0|].
  apply (vector_reads_compose st 1 2 H0); subst st; concrete.
Defined.

(** X7: the middle column of a 2-by-3 matrix. *)
Lemma matrix_is_its_columns_witness :
  let st := Demo.start [1; 2; 3; 4; 5; 6] [] in
  wf st
  /\ exists v column,
       matrix 2 3 st = (Ok v, moved st (2 * 3))
       /\ vector 2 (moved st (1 * 2)) = (Ok column, moved st ((1 + 1) * 2))
       /\ Eigen.col v 1 = Some <$> column.
Proof.
  intros st. assert (H0 : wf st) by (subst st; concrete_wf).
  split; [exact H0|].
  apply (matrix_is_its_columns st 2 3 1 H0); subst st; concrete.
Defined.

(** X8: four scalars through the four dense extractors. *)
Lemma dense_extractors_agree_witness :
  let st := Demo.start [1; 2; 3; 4] [] in
  wf st
  /\ exists flat st',
       std_vector (2 * 2) st = (Ok flat, st')
       /\ vector (2 * 2) st = (Ok flat, st')
       /\ row_vector (2 * 2) st = (Ok flat, st')
       /\ matrix 2 2 st = (Ok (Eigen.Matrix 2 2 flat), st')
       /\ length flat = Z.to_nat (2 * 2).
Proof.
  intros st. assert (H0 : wf st) by (subst st; concrete_wf).
  split; [exact H0|].
  apply (dense_extractors_agree st 2 2 H0); subst st; concrete.
Defined.

(** X9: a simplex that the predicate accepts and one it rejects. *)
Lemma plain_families_validate_what_they_read_witness :
  let st := Demo.start [1; 0; 0; 5] [] in
  wf st
  /\ simplex 3 st = (Ok [1; 0; 0], Reader [1; 0; 0; 5] [] 3 0)
  /\ simplex 4 st =
       (Throw (library_error "is not a simplex"), Reader [1; 0; 0; 5] [] 4 0)
  /\ cov_matrix 2 st =
       (Ok (Eigen.Matrix 2 2 [1; 0; 0; 5]), Reader [1; 0; 0; 5] [] 4 0).
Proof.
  intros st. assert (H0 : wf st) by (subst st; concrete_wf).
  split; [exact H0|].
  pose proof (plain_families_validate_what_they_read st 0 0 3 H0) as H3.
  pose proof (plain_families_validate_what_they_read st 0 0 4 H0) as H4.
  pose proof (plain_families_validate_what_they_read st 0 0 2 H0) as H2.
  cbv zeta in H3, H4, H2.
  destruct H3 as (H3 & _). destruct H3 as (_ & H3);
    [lia|subst st; concrete|].
  destruct H4 as (H4 & _). destruct H4 as (_ & H4);
    [lia|subst st; concrete|].
  destruct H2 as (_ & _ & _ & H2). destruct H2 as (_ & H2 & _);
    [lia|subst st; concrete|].
  split; [exact H3|]. split; [exact H4|]. exact H2.
Defined.

(** X10: the transforms of the example library on what was read. *)
Lemma constrain_families_return_the_transform_witness :
  let st := Demo.start [1; 2; 3; 4; 5; 6; 7; 8; 9; 10] [] in
  wf st
  /\ simplex_constrain 3 st =
       (Ok [1; 2; -2], Reader [1; 2; 3; 4; 5; 6; 7; 8; 9; 10] [] 2 0)
  /\ cov_matrix_constrain_lp 3 0 st =
       (Ok (Eigen.Matrix 3 3 [1; 2; 3; 4; 5; 6], 0),
        Reader [1; 2; 3; 4; 5; 6; 7; 8; 9; 10] [] 6 0).
Proof.
  intros st. assert (H0 : wf st) by (subst st; concrete_wf).
  split; [exact H0|].
  pose proof (constrain_families_return_the_transform st 0 0 3 0 H0) as H.
  cbv zeta in H. destruct H as (Hs & _ & _ & Hc).
  destruct Hs as (_ & _ & Hs & _); [lia|subst st; concrete|].
  destruct Hc as (_ & _ & _ & _ & _ & Hc); [lia|subst st; concrete|].
  split; [exact Hs|exact Hc].
Defined.

(** X11: the scalar [7] against the lower bound [9], through the
    transform, and a reader at its end. *)
Lemma scalar_accessors_read_one_witness :
  let st := Demo.start [7] [] in
  let st' := Reader [7] [] 1 0 in
  wf st /\ wf st'
  /\ scalar_lb 9 st = (Throw (library_error "is below lb"), st')
  /\ scalar_lb 2 st = (Ok 7, st')
  /\ scalar_lb_constrain 9 st = (Ok 16, st')
  /\ scalar_lb 2 st' = (Throw BufferExhausted_r, st')
  /\ scalar_lb_constrain_lp 9 0 st' = (Throw BufferExhausted_r, st').
Proof.
  intros st st'. assert (H0 : wf st) by (subst st; concrete_wf).
  assert (H1 : wf st') by (subst st'; concrete_wf).
  split; [exact H0|]. split; [exact H1|].
  pose proof (scalar_accessors_read_one st 9 0 0 0 0 H0) as H9.
  pose proof (scalar_accessors_read_one st 2 0 0 0 0 H0) as H2.
  pose proof (scalar_accessors_read_one st' 2 0 0 0 0 H1) as He2.
  pose proof (scalar_accessors_read_one st' 9 0 0 0 0 H1) as He9.
  cbv zeta in H9, H2, He2, He9.
  destruct H9 as (H9 & _). destruct H2 as (H2 & _).
  destruct He2 as (_ & He2). destruct He9 as (_ & He9).
  destruct H9 as (_ & _ & H9 & _ & _ & _ & _ & _ & _ & _ & H9c & _);
    [subst st; concrete|].
  destruct H2 as (_ & _ & H2 & _); [subst st; concrete|].
  destruct He2 as (_ & He2 & _); [subst st'; concrete|].
  destruct He9
    as (_ & _ & _ & _ & _ & _ & _ & _ & _ & _ & _ & _ & _ & _ & _ & He9 & _);
    [subst st'; concrete|].
  split; [exact H9|]. split; [exact H2|]. split; [exact H9c|].
  split; [exact He2|exact He9].
Defined.

(** X13: five scalars asked of a reader that holds three. *)
Lemma batch_reads_stop_at_the_end_witness :
  let st := Demo.start [1; 2; 3] [] in
  wf st
  /\ vector_lb_constrain 0 5 st =
       (Throw BufferExhausted_r, Reader [1; 2; 3] [] 3 0)
  /\ matrix_offset_multiplier 0 1 2 2 st =
       (Throw BufferExhausted_r, Reader [1; 2; 3] [] 3 0)
  /\ sparse_matrix_offset_multiplier 0 1 [0; 1; 1; 0] [0; 0; 1; 1] 2 2 st =
       (Throw BufferExhausted_r, Reader [1; 2; 3] [] 3 0).
Proof.
  intros st. assert (H0 : wf st) by (subst st; concrete_wf).
  split; [exact H0|].
  pose proof (batch_reads_stop_at_the_end st 0 1 0 (fun x => 0 + Z.abs x)
                [0; 1; 1; 0] [0; 0; 1; 1] 2 5 H0) as H5.
  pose proof (batch_reads_stop_at_the_end st 0 1 0 (fun x => 0 + Z.abs x)
                [0; 1; 1; 0] [0; 0; 1; 1] 2 2 H0) as H2.
  cbv zeta in H5, H2.
  destruct H5 as (H5 & _); [subst st; concrete|lia|lia|reflexivity|].
  destruct H2 as (_ & H2 & Hsp); [subst st; concrete|lia|lia|reflexivity|].
  destruct H5 as (_ & _ & H5 & _); [subst st; concrete|].
  destruct H2 as (H2 & _); [subst st; concrete|].
  destruct Hsp as (Hsp & _); [subst st; concrete|].
  split; [exact H5|]. split; [exact H2|exact Hsp].
Defined.

(** X14: the plain offset-multiplier forms against the bulk reads. *)
Lemma plain_offset_multiplier_is_the_bulk_read_witness :
  let st := Demo.start [1; 2; 3; 4] [] in
  wf st
  /\ vector_offset_multiplier 0 1 3 st = vector 3 st
  /\ matrix_offset_multiplier 0 1 2 2 st = matrix 2 2 st
  /\ sparse_matrix_offset_multiplier 0 1 [0; 1] [1; 0] 2 2 st =
       sparse_matrix [0; 1] [1; 0] 2 2 st.
Proof.
  intros st. assert (H0 : wf st) by (subst st; concrete_wf).
  split; [exact H0|].
  destruct (plain_offset_multiplier_is_the_bulk_read st 0 1 [0; 1] [1; 0]
              2 3 H0) as (Hv & _); [lia|lia|].
  destruct (plain_offset_multiplier_is_the_bulk_read st 0 1 [0; 1] [1; 0]
              2 2 H0) as (_ & Hm & Hsp); [lia|lia|].
  destruct Hv as (Hv & _); [subst st; concrete|].
  split; [exact Hv|]. split.
  - apply Hm. subst st. concrete.
  - apply Hsp; [done|subst st; concrete].
Defined.

(** X15: the lower bound [3] over the scalars [5, 6, 1, 7]. *)
Lemma lower_bound_batch_stops_at_the_first_rejection_witness :
  let st := Demo.start [5; 6; 1; 7] [] in
  wf st
  /\ vector_lb 3 2 st = (Ok [5; 6], Reader [5; 6; 1; 7] [] 2 0)
  /\ vector_lb 3 4 st =
       (Throw (library_error "is below lb"), Reader [5; 6; 1; 7] [] 3 0)
  /\ sparse_matrix_lb 3 [0; 1] [1; 0] 2 2 st =
       (Ok (Eigen.SparseMatrix 2 2 [Eigen.Triplet 0 1 5; Eigen.Triplet 1 0 6]),
        Reader [5; 6; 1; 7] [] 2 0).
Proof.
  intros st. assert (H0 : wf st) by (subst st; concrete_wf).
  split; [exact H0|].
  pose proof (lower_bound_batch_stops_at_the_first_rejection st 3
                [0; 1] [1; 0] 2 2 H0) as H2.
  pose proof (lower_bound_batch_stops_at_the_first_rejection st 3
                [0; 1] [1; 0] 2 4 H0) as H4.
  cbv zeta in H2, H4.
  destruct H2 as (H2 & Hsp); [lia|lia|].
  destruct H4 as (H4 & _); [lia|lia|].
  destruct H2 as (H2 & _); [subst st; concrete|].
  destruct H4 as (_ & H4); [subst st; concrete|].
  destruct Hsp as (Hsp & _); [done|subst st; concrete|].
  split; [|split].
  - apply H2. subst st. repeat constructor.
  - apply (H4 2%nat 1 (library_error "is below lb")).
    + reflexivity.
    + subst st. repeat constructor.
    + reflexivity.
  - apply Hsp. subst st. repeat constructor.
Defined.

(** X16: the bounds [(0, 4)] over the scalars [7, 12, 3, 4]. *)
Lemma lower_upper_bound_batch_is_elementwise_witness :
  let st := Demo.start [7; 12; 3; 4] [] in
  wf st
  /\ vector_lub_constrain 0 4 3 st =
       (Ok [2; 2; 3], Reader [7; 12; 3; 4] [] 3 0)
  /\ matrix_lub_constrain 0 4 2 2 st =
       (Ok (Eigen.Matrix 2 2 [2; 2; 3; 4]), Reader [7; 12; 3; 4] [] 4 0)
  /\ sparse_matrix_lub_constrain 0 4 [1] [0] 2 2 st =
       (Ok (Eigen.SparseMatrix 2 2
              [Eigen.Triplet 0 0 0; Eigen.Triplet 1 0 2]),
        Reader [7; 12; 3; 4] [] 1 0).
Proof.
  intros st. assert (H0 : wf st) by (subst st; concrete_wf).
  split; [exact H0|].
  destruct (lower_upper_bound_batch_is_elementwise st 0 4
              (fun x => 0 + x mod (4 - 0 + 1)) [1] [0] 2 3 H0)
    as (Hv & _); [lia|lia|reflexivity|].
  destruct (lower_upper_bound_batch_is_elementwise st 0 4
              (fun x => 0 + x mod (4 - 0 + 1)) [1] [0] 2 2 H0)
    as (_ & Hm & Hsp); [lia|lia|reflexivity|].
  destruct Hv as (Hv & _); [subst st; concrete|].
  destruct Hm as (Hm & _); [subst st; concrete|].
  split; [exact Hv|]. split; [exact Hm|].
  apply Hsp; [done|subst st; concrete].
Defined.

(** X17: two listed nonzeros give four triplets. *)
Lemma sparse_matrix_triplets_follow_default_ones_witness :
  let st := Demo.start [8; 9] [] in
  wf st
  /\ sparse_matrix [0; 1] [1; 0] 2 2 st =
       (Ok (Eigen.SparseMatrix 2 2
              [Eigen.Triplet 0 0 0; Eigen.Triplet 0 0 0;
               Eigen.Triplet 0 1 8; Eigen.Triplet 1 0 9]),
        Reader [8; 9] [] 2 0).
Proof.
  intros st. assert (H0 : wf st) by (subst st; concrete_wf).
  split; [exact H0|].
  destruct (sparse_matrix_triplets_follow_default_ones st [0; 1] [1; 0]
              2 2 H0) as (built & Hrun & _ & Htake & Hdrop);
    [lia|lia|done|subst st; concrete|].
  rewrite Hrun, <- (take_drop 2 built).
  change (length [0; 1]) with 2%nat in Htake, Hdrop.
  by rewrite Htake, Hdrop.
Defined.

(** X18: the lower bound [10] and the accumulator [100] over the scalars
    [1, -2, 3, 4]. *)
Lemma lower_bound_batch_accumulates_lp_in_reading_order_witness :
  let st := Demo.start [1; -2; 3; 4] [] in
  wf st
  /\ vector_lb_constrain_lp 10 3 100 st =
       (Ok ([11; 12; 13], 102), Reader [1; -2; 3; 4] [] 3 0)
  /\ matrix_lb_constrain_lp 10 2 2 100 st =
       (Ok (Eigen.Matrix 2 2 [11; 12; 13; 14], 106),
        Reader [1; -2; 3; 4] [] 4 0).
Proof.
  intros st. assert (H0 : wf st) by (subst st; concrete_wf).
  split; [exact H0|].
  destruct (lower_bound_batch_accumulates_lp_in_reading_order st 10
              (fun x => 10 + Z.abs x) (fun lp x => lp + x) [] [] 2 3 100 H0)
    as (Hv & _); [lia|lia|reflexivity|].
  destruct (lower_bound_batch_accumulates_lp_in_reading_order st 10
              (fun x => 10 + Z.abs x) (fun lp x => lp + x) [] [] 2 2 100 H0)
    as (_ & Hm & _); [lia|lia|reflexivity|].
  destruct Hv as (Hv & _); [subst st; concrete|].
  split; [exact Hv|]. apply Hm. subst st. concrete.
Defined.

(** X19: no rows, three columns, on a reader that has nothing left. *)
Lemma upper_bound_batch_of_no_elements_reads_nothing_witness :
  let st := Reader [1] [] 1 0 in
  matrix_ub 5 0 3 st = (Ok (Eigen.Matrix 0 3 []), st)
  /\ sparse_matrix_ub_constrain 5 [0; 1] [0; 0] 0 3 st =
       (Ok (Eigen.SparseMatrix 0 3 []), st).
Proof.
  intros st.
  destruct (upper_bound_batch_of_no_elements_reads_nothing st 5
              [0; 1] [0; 0] 0 3 0) as (Hm & _ & _ & _ & Hsp & _);
    [by left|].
  split; [exact Hm|exact Hsp].
Defined.
